(** * MetaShapedTexture: a shallow embedding of
      [src/compositor/meta-shaped-texture.c] and the properties of its
      mask rasterizer, mipmap policy, damage coordination and clipped
      paint.

    Conventions of the embedding.
    - [gint] and [guint] values are integers of [Z], and the 32 bits of
      the C code are written out where the file or GDK computes on them:
      a [guint] stored in an [int] is converted by [guint_to_gint], the
      sums and differences of [gdk_rectangle_intersect] wrap around
      ([gint_add], [gint_sub]), the size given to [g_malloc0] is a
      product modulo [2^32], and an [int] offset that overflows has no
      defined behaviour.  The rectangles of a region are those that
      [cairo_region_get_rectangle] gives: cairo keeps the corners [x],
      [y], [x + width] and [y + height] of each of them in the range of
      [int], so these corners are computed in [Z].  [gint64] time stamps
      are subtracted with the 64-bit wrap-around written out ([sub64]);
      the [guint] counter [fast_updates] is incremented modulo [2^32].
    - A nullable pointer is an [option].
    - Calls into Clutter, Cogl and cairo whose only effect lies outside
      the private structure are recorded, in order, in a list of [call]s
      returned next to the new state.
    - [float] is IEEE 754 binary32, computed by the Standard Library's
      [SpecFloat] at precision 24. *)

From Stdlib Require Import ZArith NArith List Bool Lia SpecFloat.
From stdpp Require Import gmap list.

Local Open Scope Z_scope.

(** ** Machine integers *)

(** Two's complement reduction to the range of [gint64]. *)
Definition wrap64 (z : Z) : Z := (z + 2 ^ 63) mod 2 ^ 64 - 2 ^ 63.

(** [a - b] on [gint64]. *)
Definition sub64 (a b : Z) : Z := wrap64 (a - b).

(** [a + b] on [gint64]. *)
Definition add64 (a b : Z) : Z := wrap64 (a + b).

(** [n++] on [guint]. *)
Definition guint_succ (n : N) : N := ((n + 1) mod 2 ^ 32)%N.

(** Two's complement reduction to the range of [gint]. *)
Definition wrap32 (z : Z) : Z := (z + 2 ^ 31) mod 2 ^ 32 - 2 ^ 31.

(** [a + b] and [a - b] on [gint] as the machine computes them: the sum
    and the difference where they fit, wrapped around where they do
    not. *)
Definition gint_add (a b : Z) : Z := wrap32 (a + b).
Definition gint_sub (a b : Z) : Z := wrap32 (a - b).

(** A [guint] stored in an [int]: from [2^31] on it becomes negative. *)
Definition guint_to_gint (u : Z) : Z := wrap32 u.

(** [z] is a value of [gint]. *)
Definition fits_gint (z : Z) : bool := (- 2 ^ 31 <=? z) && (z <? 2 ^ 31).

(** glib's [CLAMP (x, low, high)]:
    [(x > high) ? high : ((x < low) ? low : x)]. *)
Definition CLAMP (x low high : Z) : Z :=
  if high <? x then high else if x <? low then low else x.

(** glib's [MAX] and [MIN]. *)
Definition MAX (a b : Z) : Z := if b <? a then a else b.
Definition MIN (a b : Z) : Z := if a <? b then a else b.

(** ** Constants of the file *)

Definition G_USEC_PER_SEC : Z := 1000000.
Definition MAX_MIPMAPPING_FPS : Z := 5.
Definition MIN_MIPMAP_AGE_USEC : Z := G_USEC_PER_SEC / MAX_MIPMAPPING_FPS.
Definition MIN_FAST_UPDATES_BEFORE_UNMIPMAP : N := 20%N.
Definition MAX_RECTS : Z := 16.

(** ** Rectangles and regions (cairo, GDK) *)

(** [cairo_rectangle_int_t], also [GdkRectangle]. *)
Record cairo_rectangle_int_t := mkRect {
  rx : Z;
  ry : Z;
  rwidth : Z;
  rheight : Z
}.

(** The pixel [(px, py)] lies in the rectangle: the half-open box
    [x <= px < x + width], [y <= py < y + height]. *)
Definition in_rect (px py : Z) (r : cairo_rectangle_int_t) : Prop :=
  rx r <= px < rx r + rwidth r /\ ry r <= py < ry r + rheight r.

Definition in_rectb (px py : Z) (r : cairo_rectangle_int_t) : bool :=
  (rx r <=? px) && (px <? rx r + rwidth r) &&
  (ry r <=? py) && (py <? ry r + rheight r).

(** [gdk_rectangle_intersect (src1, src2, dest)]: the boolean result and
    the value left in [*dest].  [dest0] is the content of [*dest] before
    the call; when the rectangles do not meet, GDK zeroes the width and
    the height of [*dest] and leaves its origin alone.  GDK computes the
    far corners [x + width] and [y + height] and the size of the result
    in [gint]. *)
Definition gdk_rectangle_intersect
    (src1 src2 dest0 : cairo_rectangle_int_t) : bool * cairo_rectangle_int_t :=
  let dest_x := MAX (rx src1) (rx src2) in
  let dest_y := MAX (ry src1) (ry src2) in
  let dest_x2 :=
    MIN (gint_add (rx src1) (rwidth src1)) (gint_add (rx src2) (rwidth src2)) in
  let dest_y2 :=
    MIN (gint_add (ry src1) (rheight src1))
      (gint_add (ry src2) (rheight src2)) in
  if (dest_x <? dest_x2) && (dest_y <? dest_y2)
  then (true,
        mkRect dest_x dest_y (gint_sub dest_x2 dest_x) (gint_sub dest_y2 dest_y))
  else (false, mkRect (rx dest0) (ry dest0) 0 0).

(** A [cairo_region_t]: the address of the reference-counted object and
    the rectangles that [cairo_region_get_rectangle] enumerates. *)
Record cairo_region_t := mkRegion {
  region_addr : positive;
  region_rects : list cairo_rectangle_int_t
}.

(** cairo stores no empty rectangle in a region. *)
Definition rect_nonempty (r : cairo_rectangle_int_t) : Prop :=
  0 < rwidth r /\ 0 < rheight r.

Definition region_wf (rects : list cairo_rectangle_int_t) : Prop :=
  Forall rect_nonempty rects.

(** The pixels of a region. *)
Definition in_region (px py : Z) (rects : list cairo_rectangle_int_t) : Prop :=
  Exists (in_rect px py) rects.

Definition in_regionb (px py : Z) (rects : list cairo_rectangle_int_t) : bool :=
  existsb (in_rectb px py) rects.

Definition cairo_region_num_rectangles (rects : list cairo_rectangle_int_t) : Z :=
  Z.of_nat (length rects).

Definition cairo_region_is_empty (rects : list cairo_rectangle_int_t) : bool :=
  match rects with
  | [] => true
  | _ :: _ => false
  end.

(** [cairo_region_intersect_rectangle] on the rectangle list: every
    rectangle is cut to [clip], the empty results are dropped. *)
Definition rect_intersect (clip r : cairo_rectangle_int_t)
  : option cairo_rectangle_int_t :=
  let x1 := Z.max (rx r) (rx clip) in
  let y1 := Z.max (ry r) (ry clip) in
  let x2 := Z.min (rx r + rwidth r) (rx clip + rwidth clip) in
  let y2 := Z.min (ry r + rheight r) (ry clip + rheight clip) in
  if (x1 <? x2) && (y1 <? y2)
  then Some (mkRect x1 y1 (x2 - x1) (y2 - y1))
  else None.

Definition cairo_region_intersect_rectangle
    (rects : list cairo_rectangle_int_t) (clip : cairo_rectangle_int_t)
  : list cairo_rectangle_int_t :=
  omap (rect_intersect clip) rects.

(** The smallest rectangle around two rectangles. *)
Definition rect_hull (a b : cairo_rectangle_int_t) : cairo_rectangle_int_t :=
  let x1 := Z.min (rx a) (rx b) in
  let y1 := Z.min (ry a) (ry b) in
  let x2 := Z.max (rx a + rwidth a) (rx b + rwidth b) in
  let y2 := Z.max (ry a + rheight a) (ry b + rheight b) in
  mkRect x1 y1 (x2 - x1) (y2 - y1).

(** [cairo_region_get_extents]: the bounding box, all zero for the empty
    region. *)
Definition cairo_region_get_extents (rects : list cairo_rectangle_int_t)
  : cairo_rectangle_int_t :=
  match rects with
  | [] => mkRect 0 0 0 0
  | r :: rest => fold_left rect_hull rest r
  end.

(** [cairo_path_t]: not reference counted.  The path is represented by its
    address and by the alpha value that filling it with an opaque source
    leaves at each pixel. *)
Record cairo_path_t := mkPath {
  path_addr : positive;
  path_alpha : Z -> Z -> Z
}.

(** ** binary32 floating point (the C type [float]) *)

Definition float : Type := spec_float.

(** Conversion of a [gint] to [float], rounding to nearest even. *)
Definition float_of_int (z : Z) : float := binary_normalize 24 128 z 0 false.
Definition float_sub : float -> float -> float := SFsub 24 128.
Definition float_div : float -> float -> float := SFdiv 24 128.

(** [ClutterActorBox]. *)
Record ClutterActorBox := mkBox {
  box_x1 : float;
  box_y1 : float;
  box_x2 : float;
  box_y2 : float
}.

(** ** Cogl and cairo objects *)

(** The pixmap-backed [CoglTexture]: an identity and what
    [cogl_texture_get_width] and [cogl_texture_get_height] answer. *)
Record CoglTexture := mkTexture {
  texture_id : positive;
  texture_width : Z;
  texture_height : Z
}.

(** The alpha-only texture made from [mask_data]: its size, the row
    stride of the data it was made from, and the bytes. *)
Record MaskTexture := mkMask {
  mask_tex_width : Z;
  mask_tex_height : Z;
  mask_rowstride : Z;
  mask_bytes : list Z
}.

(** The value of the mask at pixel [(x, y)]: byte [y * stride + x]. *)
Definition mask_pixel (m : MaskTexture) (x y : Z) : Z :=
  nth (Z.to_nat (y * mask_rowstride m + x)) (mask_bytes m) 0.

(** A [CoglPipeline]: the textures of its layers 0 and 1 and its color
    (the four equal components of the paint opacity). *)
Record CoglPipeline := mkPipeline {
  layer0 : option CoglTexture;
  layer1 : option MaskTexture;
  pipeline_color : Z
}.

Definition cogl_pipeline_new : CoglPipeline := mkPipeline None None 255.

Inductive cairo_format_t := CAIRO_FORMAT_ARGB32 | CAIRO_FORMAT_A8.

(** An image surface made by [cairo_image_surface_create]: format and
    size, the texture whose pixels were read into it (with the part
    read), and the mask that was painted over it with
    [CAIRO_OPERATOR_DEST_IN], if any. *)
Record cairo_surface_t := mkSurface {
  surface_format : cairo_format_t;
  surface_width : Z;
  surface_height : Z;
  surface_source : CoglTexture * option cairo_rectangle_int_t;
  surface_dest_in : option (MaskTexture * option cairo_rectangle_int_t)
}.

(** ** The private structure

    [paint_tower] is left out: the tower is reached only through calls,
    and what it answers is an input of the model.  [pixmap] is the X
    identifier, 0 for [None]. *)
Record MetaShapedTexturePrivate := mkPriv {
  pixmap : Z;
  texture : option CoglTexture;
  mask_texture : option MaskTexture;
  pipeline : option CoglPipeline;
  pipeline_unshaped : option CoglPipeline;
  clip_region : option cairo_region_t;
  unobscured_region : option cairo_region_t;
  shape_region : option cairo_region_t;
  overlay_region : option cairo_region_t;
  overlay_path : option cairo_path_t;
  tex_width : Z;
  tex_height : Z;
  mask_width : Z;
  mask_height : Z;
  prev_invalidation : Z;
  last_invalidation : Z;
  fast_updates : N;
  remipmap_timeout_id : Z;
  earliest_remipmap : Z;
  create_mipmaps : bool
}.

(** The structure as [g_type_class_add_private] hands it out (zeroed) and
    [meta_shaped_texture_init] leaves it. *)
Definition meta_shaped_texture_init : MetaShapedTexturePrivate :=
  mkPriv 0 None None None None None None None None None
    0 0 0 0 0 0 0%N 0 0 true.

(** Field updates. *)
Definition with_mask (m : option MaskTexture) (w h : Z)
    (s : MetaShapedTexturePrivate) : MetaShapedTexturePrivate :=
  mkPriv (pixmap s) (texture s) m (pipeline s) (pipeline_unshaped s) (clip_region s)
    (unobscured_region s) (shape_region s) (overlay_region s) (overlay_path s)
    (tex_width s) (tex_height s) w h
    (prev_invalidation s) (last_invalidation s) (fast_updates s)
    (remipmap_timeout_id s) (earliest_remipmap s) (create_mipmaps s).

Definition with_pipelines (p pu : option CoglPipeline)
    (s : MetaShapedTexturePrivate) : MetaShapedTexturePrivate :=
  mkPriv (pixmap s) (texture s) (mask_texture s) p pu (clip_region s)
    (unobscured_region s) (shape_region s) (overlay_region s) (overlay_path s)
    (tex_width s) (tex_height s) (mask_width s) (mask_height s)
    (prev_invalidation s) (last_invalidation s) (fast_updates s)
    (remipmap_timeout_id s) (earliest_remipmap s) (create_mipmaps s).

Definition with_shape_region (r : option cairo_region_t)
    (s : MetaShapedTexturePrivate) : MetaShapedTexturePrivate :=
  mkPriv (pixmap s) (texture s) (mask_texture s) (pipeline s) (pipeline_unshaped s)
    (clip_region s) (unobscured_region s) r (overlay_region s) (overlay_path s)
    (tex_width s) (tex_height s) (mask_width s) (mask_height s)
    (prev_invalidation s) (last_invalidation s) (fast_updates s)
    (remipmap_timeout_id s) (earliest_remipmap s) (create_mipmaps s).

Definition with_overlay (r : option cairo_region_t) (p : option cairo_path_t)
    (s : MetaShapedTexturePrivate) : MetaShapedTexturePrivate :=
  mkPriv (pixmap s) (texture s) (mask_texture s) (pipeline s) (pipeline_unshaped s)
    (clip_region s) (unobscured_region s) (shape_region s) r p
    (tex_width s) (tex_height s) (mask_width s) (mask_height s)
    (prev_invalidation s) (last_invalidation s) (fast_updates s)
    (remipmap_timeout_id s) (earliest_remipmap s) (create_mipmaps s).

Definition with_timeline (prev last : Z) (fast : N)
    (s : MetaShapedTexturePrivate) : MetaShapedTexturePrivate :=
  mkPriv (pixmap s) (texture s) (mask_texture s) (pipeline s) (pipeline_unshaped s)
    (clip_region s) (unobscured_region s) (shape_region s) (overlay_region s)
    (overlay_path s) (tex_width s) (tex_height s) (mask_width s) (mask_height s)
    prev last fast
    (remipmap_timeout_id s) (earliest_remipmap s) (create_mipmaps s).

Definition with_remipmap (id earliest : Z)
    (s : MetaShapedTexturePrivate) : MetaShapedTexturePrivate :=
  mkPriv (pixmap s) (texture s) (mask_texture s) (pipeline s) (pipeline_unshaped s)
    (clip_region s) (unobscured_region s) (shape_region s) (overlay_region s)
    (overlay_path s) (tex_width s) (tex_height s) (mask_width s) (mask_height s)
    (prev_invalidation s) (last_invalidation s) (fast_updates s)
    id earliest (create_mipmaps s).

Definition with_clip_region (r : option cairo_region_t)
    (s : MetaShapedTexturePrivate) : MetaShapedTexturePrivate :=
  mkPriv (pixmap s) (texture s) (mask_texture s) (pipeline s)
    (pipeline_unshaped s) r (unobscured_region s) (shape_region s)
    (overlay_region s) (overlay_path s)
    (tex_width s) (tex_height s) (mask_width s) (mask_height s)
    (prev_invalidation s) (last_invalidation s) (fast_updates s)
    (remipmap_timeout_id s) (earliest_remipmap s) (create_mipmaps s).

Definition with_create_mipmaps (b : bool)
    (s : MetaShapedTexturePrivate) : MetaShapedTexturePrivate :=
  mkPriv (pixmap s) (texture s) (mask_texture s) (pipeline s)
    (pipeline_unshaped s) (clip_region s) (unobscured_region s)
    (shape_region s) (overlay_region s) (overlay_path s)
    (tex_width s) (tex_height s) (mask_width s) (mask_height s)
    (prev_invalidation s) (last_invalidation s) (fast_updates s)
    (remipmap_timeout_id s) (earliest_remipmap s) b.

Definition with_pixmap (id : Z)
    (s : MetaShapedTexturePrivate) : MetaShapedTexturePrivate :=
  mkPriv id (texture s) (mask_texture s) (pipeline s)
    (pipeline_unshaped s) (clip_region s) (unobscured_region s)
    (shape_region s) (overlay_region s) (overlay_path s)
    (tex_width s) (tex_height s) (mask_width s) (mask_height s)
    (prev_invalidation s) (last_invalidation s) (fast_updates s)
    (remipmap_timeout_id s) (earliest_remipmap s) (create_mipmaps s).

Definition with_texture (t : option CoglTexture) (w h : Z)
    (s : MetaShapedTexturePrivate) : MetaShapedTexturePrivate :=
  mkPriv (pixmap s) t (mask_texture s) (pipeline s)
    (pipeline_unshaped s) (clip_region s) (unobscured_region s)
    (shape_region s) (overlay_region s) (overlay_path s)
    w h (mask_width s) (mask_height s)
    (prev_invalidation s) (last_invalidation s) (fast_updates s)
    (remipmap_timeout_id s) (earliest_remipmap s) (create_mipmaps s).

(** ** Calls that leave the private structure *)

Inductive call :=
| clutter_actor_realize
| clutter_actor_queue_redraw
| clutter_actor_queue_relayout
| clutter_actor_queue_redraw_with_clip (clip : cairo_rectangle_int_t)
| cogl_texture_pixmap_x11_update_area (x y width height : Z)
| meta_texture_tower_update_area (x y width height : Z)
| meta_texture_tower_set_base_texture (base : option CoglTexture)
| g_timeout_add (interval : Z)
| cairo_region_destroy (region : cairo_region_t)
| cairo_region_reference (region : option cairo_region_t)
| cairo_region_copy (copy : cairo_region_t)
| cairo_path_destroy (path : cairo_path_t)
| cogl_set_source (p : CoglPipeline)
| cogl_rectangle (x1 y1 x2 y2 : float)
| cogl_rectangle_with_multitexture_coords
    (x1 y1 x2 y2 : float) (tex_coords : list float).

(** ** [meta_shaped_texture_dirty_mask] *)

Definition dirty_mask_pipeline (p : option CoglPipeline) : option CoglPipeline :=
  match p with
  | Some pl => Some (mkPipeline (layer0 pl) None (pipeline_color pl))
  | None => None
  end.

(** The mask texture is dropped (the element holds its only reference)
    and layer 1 of the shaped pipeline, if there is one, is reset. *)
Definition meta_shaped_texture_dirty_mask
    (priv : MetaShapedTexturePrivate) : MetaShapedTexturePrivate :=
  let priv1 := with_mask None (mask_width priv) (mask_height priv) priv in
  with_pipelines (dirty_mask_pipeline (pipeline priv1)) (pipeline_unshaped priv1)
    priv1.

(** ** The mipmap policy *)

(** The test of [meta_shaped_texture_paint] that decides whether the
    texture tower is asked for the paint texture. *)
Definition should_use_mipmap (priv : MetaShapedTexturePrivate) (now : Z) : bool :=
  if create_mipmaps priv && negb (last_invalidation priv =? 0)
  then
    let age := sub64 now (last_invalidation priv) in
    (MIN_MIPMAP_AGE_USEC <=? age) ||
    (fast_updates priv <? MIN_FAST_UPDATES_BEFORE_UNMIPMAP)%N
  else false.

(** The value of [paint_tex] after the test; [tower_texture] is what
    [meta_texture_tower_get_paint_texture] answers. *)
Definition mipmap_paint_texture (priv : MetaShapedTexturePrivate) (now : Z)
    (tower_texture : option CoglTexture) : option CoglTexture :=
  if should_use_mipmap priv now then tower_texture else None.

(** The timing block of [meta_shaped_texture_update_area]; [now] is what
    [g_get_monotonic_time] answers. *)
Definition record_update (priv : MetaShapedTexturePrivate) (now : Z)
  : MetaShapedTexturePrivate :=
  let prev := last_invalidation priv in
  let last := now in
  let fast :=
    if negb (prev =? 0)
    then
      let interval := sub64 last prev in
      let fast_update := interval <? MIN_MIPMAP_AGE_USEC in
      if negb fast_update then 0%N
      else if (fast_updates priv <? MIN_FAST_UPDATES_BEFORE_UNMIPMAP)%N
           then guint_succ (fast_updates priv)
           else fast_updates priv
    else fast_updates priv in
  with_timeline prev last fast priv.

(** ** Damage *)

(** The last block of [meta_shaped_texture_update_area]: the redraws it
    queues and the value it returns. *)
Definition queue_damage_redraw (clip : cairo_rectangle_int_t)
    (unobscured_region : option cairo_region_t) : list call * bool :=
  match unobscured_region with
  | Some region =>
      if cairo_region_is_empty (region_rects region) then ([], false)
      else
        let intersection :=
          cairo_region_intersect_rectangle (region_rects region) clip in
        if negb (cairo_region_is_empty intersection)
        then
          let damage_rect := cairo_region_get_extents intersection in
          ([clutter_actor_queue_redraw_with_clip damage_rect], true)
        else ([], false)
  | None => ([clutter_actor_queue_redraw_with_clip clip], true)
  end.

Definition meta_shaped_texture_update_area
    (priv : MetaShapedTexturePrivate) (x y width height : Z)
    (unobscured_region : option cairo_region_t) (now : Z)
  : MetaShapedTexturePrivate * list call * bool :=
  let clip := mkRect x y width height in
  match texture priv with
  | None => (priv, [], false)
  | Some _ =>
      let priv1 := record_update priv now in
      let '(redraws, queued) := queue_damage_redraw clip unobscured_region in
      (priv1,
       cogl_texture_pixmap_x11_update_area x y width height
         :: meta_texture_tower_update_area x y width height
         :: redraws,
       queued)
  end.

(** ** Obscured query *)

(** [has_mapped_clones] is what [clutter_actor_has_mapped_clones]
    answers. *)
Definition effective_unobscured_region (priv : MetaShapedTexturePrivate)
    (has_mapped_clones : bool) : option cairo_region_t :=
  if has_mapped_clones then None else unobscured_region priv.

Definition meta_shaped_texture_is_obscured (priv : MetaShapedTexturePrivate)
    (has_mapped_clones : bool) : bool :=
  match effective_unobscured_region priv has_mapped_clones with
  | Some region => cairo_region_is_empty (region_rects region)
  | None => false
  end.

(** ** Region and overlay setters *)

Definition destroy_region_if_set (r : option cairo_region_t) : list call :=
  match r with
  | Some region => [cairo_region_destroy region]
  | None => []
  end.

Definition destroy_path_if_set (p : option cairo_path_t) : list call :=
  match p with
  | Some path => [cairo_path_destroy path]
  | None => []
  end.

Definition meta_shaped_texture_set_shape_region
    (priv : MetaShapedTexturePrivate) (region : option cairo_region_t)
  : MetaShapedTexturePrivate * list call :=
  let destroyed := destroy_region_if_set (shape_region priv) in
  let referenced :=
    match region with
    | Some _ => [cairo_region_reference region]
    | None => []
    end in
  (meta_shaped_texture_dirty_mask (with_shape_region region priv),
   destroyed ++ referenced ++ [clutter_actor_queue_redraw]).

Definition meta_shaped_texture_set_overlay_path
    (priv : MetaShapedTexturePrivate)
    (overlay_region' : option cairo_region_t)
    (overlay_path' : option cairo_path_t)
  : MetaShapedTexturePrivate * list call :=
  let destroyed_region := destroy_region_if_set (overlay_region priv) in
  let destroyed_path := destroy_path_if_set (overlay_path priv) in
  (meta_shaped_texture_dirty_mask
     (with_overlay overlay_region' overlay_path' priv),
   destroyed_region ++ destroyed_path
     ++ [cairo_region_reference overlay_region']).

(** [meta_shaped_texture_set_clip_region]; [copy_addr] is the address of
    the region that [cairo_region_copy] makes. *)
Definition meta_shaped_texture_set_clip_region
    (priv : MetaShapedTexturePrivate) (clip_region' : option cairo_region_t)
    (copy_addr : positive) : MetaShapedTexturePrivate * list call :=
  let destroyed := destroy_region_if_set (clip_region priv) in
  match clip_region' with
  | Some region =>
      let copy := mkRegion copy_addr (region_rects region) in
      (with_clip_region (Some copy) priv, destroyed ++ [cairo_region_copy copy])
  | None => (with_clip_region None priv, destroyed)
  end.

Definition meta_shaped_texture_set_create_mipmaps
    (priv : MetaShapedTexturePrivate) (create_mipmaps' : bool)
  : MetaShapedTexturePrivate * list call :=
  if negb (eqb create_mipmaps' (create_mipmaps priv))
  then
    let base_texture := if create_mipmaps' then texture priv else None in
    (with_create_mipmaps create_mipmaps' priv,
     [meta_texture_tower_set_base_texture base_texture])
  else (priv, []).

Definition set_layer0 (p : option CoglPipeline) (t : option CoglTexture)
  : option CoglPipeline :=
  match p with
  | Some pl => Some (mkPipeline t (layer1 pl) (pipeline_color pl))
  | None => None
  end.

(** [set_cogl_texture]. *)
Definition set_cogl_texture (priv : MetaShapedTexturePrivate)
    (cogl_tex : option CoglTexture) : MetaShapedTexturePrivate * list call :=
  let priv1 :=
    with_pipelines (set_layer0 (pipeline priv) cogl_tex)
      (set_layer0 (pipeline_unshaped priv) cogl_tex) priv in
  match cogl_tex with
  | Some tex =>
      let width := texture_width tex in
      let height := texture_height tex in
      if negb (width =? tex_width priv1) || negb (height =? tex_height priv1)
      then (with_texture cogl_tex width height priv1,
            [clutter_actor_queue_relayout; clutter_actor_queue_redraw])
      else (with_texture cogl_tex (tex_width priv1) (tex_height priv1) priv1,
            [clutter_actor_queue_redraw])
  | None =>
      (with_texture None 0 0 priv1,
       [clutter_actor_queue_relayout; clutter_actor_queue_redraw])
  end.

(** [meta_shaped_texture_set_pixmap]; [new_texture] is what
    [cogl_texture_pixmap_x11_new] gives for the pixmap. *)
Definition meta_shaped_texture_set_pixmap (priv : MetaShapedTexturePrivate)
    (pixmap' : Z) (new_texture : option CoglTexture)
  : MetaShapedTexturePrivate * list call :=
  if pixmap priv =? pixmap' then (priv, [])
  else
    let priv1 := with_pixmap pixmap' priv in
    let '(priv2, calls) :=
      if negb (pixmap' =? 0) then set_cogl_texture priv1 new_texture
      else set_cogl_texture priv1 None in
    if create_mipmaps priv2
    then (priv2, calls ++ [meta_texture_tower_set_base_texture (texture priv2)])
    else (priv2, calls).

(** ** Reference counts

    What the cairo calls of a trace do to the objects they are given:
    the reference count of every live region and the set of live paths.
    A call on an object that is no longer live has no defined behaviour
    ([None]).  [cairo_region_reference] tests its argument against
    [NULL] before it touches the count, so it accepts [NULL]. *)
Record Memory := mkMemory {
  region_refs : gmap positive nat;
  live_paths : gset positive
}.

Definition exec_call (m : Memory) (c : call) : option Memory :=
  match c with
  | cairo_region_destroy region =>
      match region_refs m !! region_addr region with
      | Some (S O) =>
          Some (mkMemory (delete (region_addr region) (region_refs m))
                  (live_paths m))
      | Some (S (S n)) =>
          Some (mkMemory (<[region_addr region := S n]> (region_refs m))
                  (live_paths m))
      | _ => None
      end
  | cairo_region_reference None => Some m
  | cairo_region_reference (Some region) =>
      match region_refs m !! region_addr region with
      | Some (S n) =>
          Some (mkMemory (<[region_addr region := S (S n)]> (region_refs m))
                  (live_paths m))
      | _ => None
      end
  | cairo_region_copy copy =>
      match region_refs m !! region_addr copy with
      | None =>
          Some (mkMemory (<[region_addr copy := 1%nat]> (region_refs m))
                  (live_paths m))
      | Some _ => None
      end
  | cairo_path_destroy path =>
      if decide (path_addr path ∈ live_paths m)
      then Some (mkMemory (region_refs m) (live_paths m ∖ {[path_addr path]}))
      else None
  | _ => Some m
  end.

Fixpoint exec_calls (m : Memory) (cs : list call) : option Memory :=
  match cs with
  | [] => Some m
  | c :: rest =>
      match exec_call m c with
      | Some m' => exec_calls m' rest
      | None => None
      end
  end.

(** The number of references held on the region at [addr]; 0 when it has
    been freed. *)
Definition refcount (m : Memory) (addr : positive) : nat :=
  default O (region_refs m !! addr).

(** ** [meta_shaped_texture_get_image]

    The result is the returned surface ([None] for [NULL]) and the
    content of [*clip] after the call. *)
Definition meta_shaped_texture_get_image
    (priv : MetaShapedTexturePrivate) (clip : option cairo_rectangle_int_t)
  : option cairo_surface_t * option cairo_rectangle_int_t :=
  match texture priv with
  | None => (None, clip)
  | Some tex =>
      (* the [guint] sizes are stored in the [int] fields of the rectangle *)
      let texture_rect :=
        mkRect 0 0 (guint_to_gint (texture_width tex))
          (guint_to_gint (texture_height tex)) in
      match clip with
      | Some c =>
          match gdk_rectangle_intersect texture_rect c c with
          | (false, c') => (None, Some c')
          | (true, c') =>
              (* the sub-texture has the size of the clipped rectangle *)
              (Some (mkSurface CAIRO_FORMAT_ARGB32 (rwidth c') (rheight c')
                       (tex, Some c')
                       (match mask_texture priv with
                        | Some m => Some (m, Some c')
                        | None => None
                        end)),
               Some c')
          end
      | None =>
          (Some (mkSurface CAIRO_FORMAT_ARGB32
                   (guint_to_gint (texture_width tex))
                   (guint_to_gint (texture_height tex))
                   (tex, None)
                   (match mask_texture priv with
                    | Some m => Some (m, None)
                    | None => None
                    end)),
           None)
      end
  end.

(** ** The mask rasterizer *)

(** [cairo_format_stride_for_width (CAIRO_FORMAT_A8, width)]: 8 bits per
    pixel, rows aligned on 4 bytes; [-1] when the width is out of
    range. *)
Definition cairo_format_stride_for_width_A8 (width : Z) : Z :=
  if (width <? 0) || ((2 ^ 31 - 1 - 7) / 8 <=? width) then -1
  else Z.land ((8 * width + 7) / 8 + 3) (-4).

(** [g_malloc0 (n)]: [n] zero bytes. *)
Definition g_malloc0 (n : Z) : list Z := replicate (Z.to_nat n) 0.

(** [memset (buf + p, c, n)].  Writing outside the buffer has no defined
    behaviour: [None]. *)
Definition memset (buf : list Z) (p c n : Z) : option (list Z) :=
  if (0 <=? p) && (0 <=? n) && (p + n <=? Z.of_nat (length buf))
  then Some (take (Z.to_nat p) buf ++ replicate (Z.to_nat n) c
               ++ drop (Z.to_nat (p + n)) buf)
  else None.

(** The loop [for (p = ...; y1 < y2; y1++, p += stride) memset (p, 255, len)],
    [rows] being the number of its iterations. *)
Fixpoint fill_rows (rows : nat) (data : list Z) (p stride len : Z)
  : option (list Z) :=
  match rows with
  | O => Some data
  | S k =>
      match memset data p 255 len with
      | Some data' => fill_rows k data' (p + stride) stride len
      | None => None
      end
  end.

(** The four clamped bounds of a rectangle of the shape region;
    [tex_width] and [tex_height] are the sizes as [gint]. *)
Definition clamp_x1 (tex_width : Z) (rect : cairo_rectangle_int_t) : Z :=
  CLAMP (rx rect) 0 (tex_width - 1).
Definition clamp_x2 (tex_width : Z) (rect : cairo_rectangle_int_t) : Z :=
  CLAMP (rx rect + rwidth rect) (clamp_x1 tex_width rect) tex_width.
Definition clamp_y1 (tex_height : Z) (rect : cairo_rectangle_int_t) : Z :=
  CLAMP (ry rect) 0 (tex_height - 1).
Definition clamp_y2 (tex_height : Z) (rect : cairo_rectangle_int_t) : Z :=
  CLAMP (ry rect + rheight rect) (clamp_y1 tex_height rect) tex_height.

(** The body of the loop over the rectangles of the shape region.  The
    bounds [(gint) tex_width - 1] and [(gint) tex_height - 1] and the
    product [y1 * stride], which is then added to the pointer as [x1]
    is, are computed in [int]: where one of them overflows there is no
    defined behaviour ([None]). *)
Definition fill_rectangle (tex_width tex_height stride : Z)
    (mask_data : list Z) (rect : cairo_rectangle_int_t) : option (list Z) :=
  let x1 := clamp_x1 tex_width rect in
  let x2 := clamp_x2 tex_width rect in
  let y1 := clamp_y1 tex_height rect in
  let y2 := clamp_y2 tex_height rect in
  if fits_gint (tex_width - 1) && fits_gint (tex_height - 1)
     && fits_gint (y1 * stride)
  then
    fill_rows (Z.to_nat (y2 - y1)) mask_data (y1 * stride + x1) stride
      (x2 - x1)
  else None.

Fixpoint fill_rectangles (tex_width tex_height stride : Z)
    (mask_data : list Z) (rects : list cairo_rectangle_int_t)
  : option (list Z) :=
  match rects with
  | [] => Some mask_data
  | rect :: rest =>
      match fill_rectangle tex_width tex_height stride mask_data rect with
      | Some data' => fill_rectangles tex_width tex_height stride data' rest
      | None => None
      end
  end.

(** [install_overlay_path]: inside the image, the pixels of the overlay
    region are cleared; with an overlay path they then take the alpha of
    the filled path, the fill being clipped to the region. *)
Definition install_overlay_path (priv : MetaShapedTexturePrivate)
    (mask_data : list Z) (tex_width tex_height stride : Z) : list Z :=
  match overlay_region priv with
  | None => mask_data
  | Some region =>
      imap (fun i v =>
              let x := Z.of_nat i mod stride in
              let y := Z.of_nat i / stride in
              if (x <? tex_width) && (y <? tex_height)
                 && in_regionb x y (region_rects region)
              then match overlay_path priv with
                   | None => 0
                   | Some path => path_alpha path x y
                   end
              else v) mask_data
  end.

(** [meta_shaped_texture_ensure_mask].  [None] stands for a run without
    defined behaviour: a write outside [mask_data], an [int] that
    overflows, or [cairo_region_num_rectangles] on the [NULL] shape
    region.  The sizes of the texture are [guint]s; they are converted
    where the code passes them as [int], and the size of the buffer is
    the product of an [int] and a [guint], taken modulo [2^32]. *)
Definition meta_shaped_texture_ensure_mask (priv : MetaShapedTexturePrivate)
  : option MetaShapedTexturePrivate :=
  match texture priv with
  | None => Some priv
  | Some paint_tex =>
      let tex_width := texture_width paint_tex in
      let tex_height := texture_height paint_tex in
      let priv1 :=
        match mask_texture priv with
        | Some _ =>
            if negb (mask_width priv =? tex_width)
               || negb (mask_height priv =? tex_height)
            then meta_shaped_texture_dirty_mask priv
            else priv
        | None => priv
        end in
      match mask_texture priv1 with
      | Some _ => Some priv1
      | None =>
          let no_overlay :=
            match overlay_region priv1 with
            | None => true
            | Some region =>
                cairo_region_num_rectangles (region_rects region) =? 0
            end in
          match shape_region priv1 with
          | None => if no_overlay then Some priv1 else None
          | Some shape =>
              let stride :=
                cairo_format_stride_for_width_A8 (guint_to_gint tex_width) in
              let mask_data := g_malloc0 ((stride * tex_height) mod 2 ^ 32) in
              match fill_rectangles (guint_to_gint tex_width)
                      (guint_to_gint tex_height) stride mask_data
                      (region_rects shape) with
              | None => None
              | Some filled =>
                  let mask_data' :=
                    install_overlay_path priv1 filled (guint_to_gint tex_width)
                      (guint_to_gint tex_height) stride in
                  Some (with_mask
                          (Some (mkMask tex_width tex_height stride mask_data'))
                          tex_width tex_height priv1)
              end
          end
      end
  end.

(** ** Paint *)

(** What the environment answers during one paint: the monotonic time,
    the paint texture of the tower, the allocation box, the paint
    opacity, whether the actor is realized, and the identifier that
    [g_timeout_add] would return. *)
Record PaintEnv := mkPaintEnv {
  env_now : Z;
  env_tower_texture : option CoglTexture;
  env_alloc : ClutterActorBox;
  env_opacity : Z;
  env_realized : bool;
  env_timeout_id : Z
}.

(** The clipped paint: the rectangles drawn once the source is set. *)
Definition multitexture_rectangle (alloc : ClutterActorBox)
    (rect : cairo_rectangle_int_t) : call :=
  let x1 := float_of_int (rx rect) in
  let y1 := float_of_int (ry rect) in
  let x2 := float_of_int (rx rect + rwidth rect) in
  let y2 := float_of_int (ry rect + rheight rect) in
  let c0 :=
    float_div (float_of_int (rx rect)) (float_sub (box_x2 alloc) (box_x1 alloc)) in
  let c1 :=
    float_div (float_of_int (ry rect)) (float_sub (box_y2 alloc) (box_y1 alloc)) in
  let c2 :=
    float_div (float_of_int (rx rect + rwidth rect))
      (float_sub (box_x2 alloc) (box_x1 alloc)) in
  let c3 :=
    float_div (float_of_int (ry rect + rheight rect))
      (float_sub (box_y2 alloc) (box_y1 alloc)) in
  cogl_rectangle_with_multitexture_coords x1 y1 x2 y2
    [c0; c1; c2; c3; c0; c1; c2; c3].

Definition full_rectangle (alloc : ClutterActorBox) : call :=
  cogl_rectangle (float_of_int 0) (float_of_int 0)
    (float_sub (box_x2 alloc) (box_x1 alloc))
    (float_sub (box_y2 alloc) (box_y1 alloc)).

(** The rectangle that survives [gdk_rectangle_intersect (&tex_rect,
    &rect, &rect)], if any. *)
Definition clip_to_texture (tex_rect rect : cairo_rectangle_int_t)
  : option cairo_rectangle_int_t :=
  match gdk_rectangle_intersect tex_rect rect rect with
  | (true, rect') => Some rect'
  | (false, _) => None
  end.

(** [cairo_rectangle_int_t tex_rect = { 0, 0, tex_width, tex_height }]:
    the [guint] sizes are stored in [int] fields. *)
Definition source_rectangle (tex_width tex_height : Z)
  : cairo_rectangle_int_t :=
  mkRect 0 0 (guint_to_gint tex_width) (guint_to_gint tex_height).

Definition paint_rectangles (clip : option cairo_region_t)
    (tex_width tex_height : Z) (alloc : ClutterActorBox) : list call :=
  match clip with
  | Some region =>
      let tex_rect := source_rectangle tex_width tex_height in
      let n_rects := cairo_region_num_rectangles (region_rects region) in
      if n_rects <=? MAX_RECTS
      then map (multitexture_rectangle alloc)
             (omap (clip_to_texture tex_rect) (region_rects region))
      else [full_rectangle alloc]
  | None => [full_rectangle alloc]
  end.

(** The raw texture is painted while mipmaps are wanted: the check for an
    idle texture is armed. *)
Definition arm_remipmap (env : PaintEnv) (priv : MetaShapedTexturePrivate)
  : MetaShapedTexturePrivate * list call :=
  if create_mipmaps priv
  then
    let earliest := sub64 (add64 (env_now env) MIN_MIPMAP_AGE_USEC) 1000 in
    if remipmap_timeout_id priv =? 0
    then (with_remipmap (env_timeout_id env) earliest priv,
          [g_timeout_add (MIN_MIPMAP_AGE_USEC / 1000)])
    else (with_remipmap (remipmap_timeout_id priv) earliest priv, [])
  else (priv, []).

(** The texture painted from, with the state and the calls of the
    fallback to the raw texture; [None] when there is nothing to paint. *)
Definition select_paint_texture (env : PaintEnv)
    (priv : MetaShapedTexturePrivate)
  : option CoglTexture * MetaShapedTexturePrivate * list call :=
  match mipmap_paint_texture priv (env_now env) (env_tower_texture env) with
  | Some paint_tex => (Some paint_tex, priv, [])
  | None =>
      match texture priv with
      | None => (None, priv, [])
      | Some paint_tex =>
          let '(priv1, calls) := arm_remipmap env priv in
          (Some paint_tex, priv1, calls)
      end
  end.

(** From the size test to the end of [meta_shaped_texture_paint]. *)
Definition paint_texture (env : PaintEnv) (priv : MetaShapedTexturePrivate)
    (paint_tex : CoglTexture)
  : option (MetaShapedTexturePrivate * list call) :=
  if (tex_width priv =? 0) || (tex_height priv =? 0) then Some (priv, [])
  else
    match shape_region priv with
    | None =>
        let p := default cogl_pipeline_new (pipeline_unshaped priv) in
        let p' := mkPipeline (Some paint_tex) (layer1 p) (env_opacity env) in
        Some (with_pipelines (pipeline priv) (Some p') priv,
              cogl_set_source p'
                :: paint_rectangles (clip_region priv) (tex_width priv)
                     (tex_height priv) (env_alloc env))
    | Some _ =>
        match meta_shaped_texture_ensure_mask priv with
        | None => None
        | Some priv1 =>
            let p := default cogl_pipeline_new (pipeline priv1) in
            let p' :=
              mkPipeline (Some paint_tex) (mask_texture priv1)
                (env_opacity env) in
            Some (with_pipelines (Some p') (pipeline_unshaped priv1) priv1,
                  cogl_set_source p'
                    :: paint_rectangles (clip_region priv1) (tex_width priv1)
                         (tex_height priv1) (env_alloc env))
        end
    end.

Definition meta_shaped_texture_paint (env : PaintEnv)
    (priv : MetaShapedTexturePrivate)
  : option (MetaShapedTexturePrivate * list call) :=
  let clipped_away :=
    match clip_region priv with
    | Some region => cairo_region_is_empty (region_rects region)
    | None => false
    end in
  if clipped_away then Some (priv, [])
  else
    let realize := if env_realized env then [] else [clutter_actor_realize] in
    match select_paint_texture env priv with
    | (None, priv1, calls) => Some (priv1, realize ++ calls)
    | (Some paint_tex, priv1, calls) =>
        match paint_texture env priv1 paint_tex with
        | None => None
        | Some (priv2, draws) => Some (priv2, realize ++ calls ++ draws)
        end
    end.

(** ** Operations on the element

    The entry points of the file that change the private structure, as a
    caller can issue them in any order.  A paint that meets undefined
    behaviour leaves the structure as it was. *)
Inductive operation :=
| OpUpdateArea (x y width height : Z)
    (unobscured_region : option cairo_region_t) (now : Z)
| OpPaint (env : PaintEnv)
| OpSetShapeRegion (region : option cairo_region_t)
| OpSetOverlayPath (region : option cairo_region_t) (path : option cairo_path_t)
| OpSetClipRegion (region : option cairo_region_t) (copy_addr : positive)
| OpSetCreateMipmaps (create_mipmaps : bool)
| OpSetPixmap (pixmap : Z) (new_texture : option CoglTexture).

Definition apply_operation (priv : MetaShapedTexturePrivate) (op : operation)
  : MetaShapedTexturePrivate :=
  match op with
  | OpUpdateArea x y width height unobscured now =>
      fst (fst (meta_shaped_texture_update_area priv x y width height
                  unobscured now))
  | OpPaint env =>
      match meta_shaped_texture_paint env priv with
      | Some (priv', _) => priv'
      | None => priv
      end
  | OpSetShapeRegion region =>
      fst (meta_shaped_texture_set_shape_region priv region)
  | OpSetOverlayPath region path =>
      fst (meta_shaped_texture_set_overlay_path priv region path)
  | OpSetClipRegion region copy_addr =>
      fst (meta_shaped_texture_set_clip_region priv region copy_addr)
  | OpSetCreateMipmaps create_mipmaps =>
      fst (meta_shaped_texture_set_create_mipmaps priv create_mipmaps)
  | OpSetPixmap pixmap new_texture =>
      fst (meta_shaped_texture_set_pixmap priv pixmap new_texture)
  end.

Definition run_operations (priv : MetaShapedTexturePrivate)
    (ops : list operation) : MetaShapedTexturePrivate :=
  fold_left apply_operation ops priv.

(** ** Vocabulary of the properties *)

(** The invalidation timeline of the structure. *)
Definition timeline (priv : MetaShapedTexturePrivate) : Z * Z * N :=
  (prev_invalidation priv, last_invalidation priv, fast_updates priv).

(** [b] is the bounding box of the pixels [P]: it holds them all and each
    of its four sides meets one. *)
Definition bounding_box (P : Z -> Z -> Prop) (b : cairo_rectangle_int_t) : Prop :=
  (forall px py, P px py -> in_rect px py b) /\
  (exists py, P (rx b) py) /\
  (exists py, P (rx b + rwidth b - 1) py) /\
  (exists px, P px (ry b)) /\
  (exists px, P px (ry b + rheight b - 1)).

(** The far corners [x + width] and [y + height] of [r] are values of
    [gint], as they are for every rectangle that cairo enumerates. *)
Definition corners_fit (r : cairo_rectangle_int_t) : Prop :=
  - 2 ^ 31 <= rx r + rwidth r < 2 ^ 31 /\
  - 2 ^ 31 <= ry r + rheight r < 2 ^ 31.

(** The destination corners and the texture coordinates of a draw. *)
Definition call_destination (c : call) : option (float * float * float * float) :=
  match c with
  | cogl_rectangle x1 y1 x2 y2 => Some (x1, y1, x2, y2)
  | cogl_rectangle_with_multitexture_coords x1 y1 x2 y2 _ =>
      Some (x1, y1, x2, y2)
  | _ => None
  end.

Definition call_tex_coords (c : call) : list float :=
  match c with
  | cogl_rectangle_with_multitexture_coords _ _ _ _ coords => coords
  | _ => []
  end.

(** The destination of a draw whose corners are the integers of [r]. *)
Definition destination_of_rect (r : cairo_rectangle_int_t)
  : float * float * float * float :=
  (float_of_int (rx r), float_of_int (ry r),
   float_of_int (rx r + rwidth r), float_of_int (ry r + rheight r)).

(** The integer that a [float] holds, when it holds one. *)
Definition float_to_int (f : float) : option Z :=
  match f with
  | S754_zero _ => Some 0
  | S754_finite s m e =>
      if 0 <=? e then Some (cond_Zopp s (Z.pos m * 2 ^ e))
      else if Z.pos m mod 2 ^ (- e) =? 0
           then Some (cond_Zopp s (Z.pos m / 2 ^ (- e)))
           else None
  | _ => None
  end.

(** The rectangle whose corners a destination holds. *)
Definition destination_rect (d : float * float * float * float)
  : option cairo_rectangle_int_t :=
  let '(x1, y1, x2, y2) := d in
  match float_to_int x1, float_to_int y1, float_to_int x2, float_to_int y2 with
  | Some a, Some b, Some c, Some d => Some (mkRect a b (c - a) (d - b))
  | _, _, _, _ => None
  end.

(** The corners of [r] divided by the extent [(w, h)], in the order
    [x1, y1, x2, y2]. *)
Definition normalized_coords (w h : float) (r : cairo_rectangle_int_t)
  : list float :=
  [float_div (float_of_int (rx r)) w;
   float_div (float_of_int (ry r)) h;
   float_div (float_of_int (rx r + rwidth r)) w;
   float_div (float_of_int (ry r + rheight r)) h].

(** Sizes of a texture for which the rasterizer stays within 32 bits:
    cairo has a stride for the width, and the [stride * height] bytes of
    the mask can be counted and addressed in [int]. *)
Definition mask_size_fits (tex_width tex_height : Z) : Prop :=
  0 < tex_width < (2 ^ 31 - 1 - 7) / 8 /\
  0 < tex_height /\
  cairo_format_stride_for_width_A8 tex_width * tex_height < 2 ^ 31.

(** The pixels that the loop body fills for one rectangle of the shape
    region: the box of its four clamped bounds. *)
Definition filledb (tex_width tex_height : Z) (x y : Z)
    (rect : cairo_rectangle_int_t) : bool :=
  (clamp_y1 tex_height rect <=? y) && (y <? clamp_y2 tex_height rect)
  && (clamp_x1 tex_width rect <=? x) && (x <? clamp_x2 tex_width rect).

(** The pixels of a shape region clamped to [[0, w) x [0, h)]: those of
    its rectangles that lie inside the texture. *)
Definition covered (tex_width tex_height : Z)
    (rects : list cairo_rectangle_int_t) (x y : Z) : Prop :=
  in_region x y rects /\ in_rect x y (mkRect 0 0 tex_width tex_height).

(** A state with a bound texture of the given size, the given shape
    region, no overlay and no mask yet. *)
Definition shaped_state (tex_width tex_height : Z) (shape : cairo_region_t)
  : MetaShapedTexturePrivate :=
  mkPriv 1 (Some (mkTexture 1 tex_width tex_height)) None None None None None
    (Some shape) None None tex_width tex_height 0 0 0 0 0%N 0 0 true.

(** A clip region of seventeen rectangles, one pixel each. *)
Definition seventeen_rectangles : cairo_region_t :=
  mkRegion 1 (map (fun i => mkRect (2 * Z.of_nat i) 0 1 1) (seq 0 17)).

(** ** The idle check, picking, sizes and disposal *)

(** [texture_is_idle_and_not_mipmapped], the callback of the time-out
    that a paint arms: the structure, the calls, and whether the source
    is kept ([G_SOURCE_CONTINUE]) or removed.  [now] is what
    [g_get_monotonic_time] answers. *)
Definition texture_is_idle_and_not_mipmapped (priv : MetaShapedTexturePrivate)
    (now : Z) : MetaShapedTexturePrivate * list call * bool :=
  if sub64 now (earliest_remipmap priv) <? 0 then (priv, [], true)
  else (with_remipmap 0 (earliest_remipmap priv) priv,
        [clutter_actor_queue_redraw], false).

(** [ClutterColor]. *)
Record ClutterColor := mkColor {
  red : Z;
  green : Z;
  blue : Z;
  alpha : Z
}.

(** The calls of [meta_shaped_texture_pick]. *)
Inductive pick_call :=
| parent_pick (color : ClutterColor)
| cogl_set_source_color4ub (r g b a : Z)
| cogl_set_source_texture (mask : option MaskTexture)
| cogl_rectangle_with_texture_coords
    (x1 y1 x2 y2 tx1 ty1 tx2 ty2 : float).

(** [meta_shaped_texture_pick]; [should_pick_paint] is what
    [clutter_actor_should_pick_paint] answers and [alloc] the allocation
    box.  [None] as for [meta_shaped_texture_ensure_mask]. *)
Definition meta_shaped_texture_pick (priv : MetaShapedTexturePrivate)
    (color : ClutterColor) (should_pick_paint : bool) (alloc : ClutterActorBox)
  : option (MetaShapedTexturePrivate * list pick_call) :=
  match shape_region priv with
  | None => Some (priv, [parent_pick color])
  | Some _ =>
      if should_pick_paint
      then
        match texture priv with
        | None => Some (priv, [])
        | Some paint_tex =>
            let tex_width := texture_width paint_tex in
            let tex_height := texture_height paint_tex in
            if (tex_width =? 0) || (tex_height =? 0) then Some (priv, [])
            else
              match meta_shaped_texture_ensure_mask priv with
              | None => None
              | Some priv1 =>
                  Some (priv1,
                        [cogl_set_source_color4ub (red color) (green color)
                           (blue color) (alpha color);
                         cogl_set_source_texture (mask_texture priv1);
                         cogl_rectangle_with_texture_coords
                           (float_of_int 0) (float_of_int 0)
                           (float_sub (box_x2 alloc) (box_x1 alloc))
                           (float_sub (box_y2 alloc) (box_y1 alloc))
                           (float_of_int 0) (float_of_int 0)
                           (float_of_int 1) (float_of_int 1)])
              end
        end
      else Some (priv, [])
  end.

(** [meta_shaped_texture_get_preferred_width] and
    [meta_shaped_texture_get_preferred_height]: the minimum and the
    natural size written through the two pointers. *)
Definition meta_shaped_texture_get_preferred_width
    (priv : MetaShapedTexturePrivate) : float * float :=
  (float_of_int 0, float_of_int (tex_width priv)).

Definition meta_shaped_texture_get_preferred_height
    (priv : MetaShapedTexturePrivate) : float * float :=
  (float_of_int 0, float_of_int (tex_height priv)).

(** [meta_shaped_texture_get_texture]. *)
Definition meta_shaped_texture_get_texture (priv : MetaShapedTexturePrivate)
  : option CoglTexture :=
  texture priv.

(** The calls of [meta_shaped_texture_dispose]: those of the setters it
    runs, and its own. *)
Inductive dispose_call :=
| g_source_remove (id : Z)
| meta_texture_tower_free
| setter_call (c : call)
| parent_dispose.

(** [meta_shaped_texture_dispose]; [paint_tower] tells whether the tower
    is still allocated.  The pipelines and the texture are dropped like
    the mask texture. *)
Definition meta_shaped_texture_dispose (priv : MetaShapedTexturePrivate)
    (paint_tower : bool)
  : MetaShapedTexturePrivate * bool * list dispose_call :=
  let removed :=
    if negb (remipmap_timeout_id priv =? 0)
    then [g_source_remove (remipmap_timeout_id priv)] else [] in
  let priv1 := with_remipmap 0 (earliest_remipmap priv) priv in
  let freed := if paint_tower then [meta_texture_tower_free] else [] in
  let priv2 := meta_shaped_texture_dirty_mask priv1 in
  let priv3 := with_pipelines None None priv2 in
  let priv4 := with_texture None (tex_width priv3) (tex_height priv3) priv3 in
  let '(priv5, shape_calls) := meta_shaped_texture_set_shape_region priv4 None in
  let '(priv6, clip_calls) :=
    meta_shaped_texture_set_clip_region priv5 None 1%positive in
  let '(priv7, overlay_calls) :=
    meta_shaped_texture_set_overlay_path priv6 None None in
  (priv7, false,
   removed ++ freed
     ++ map setter_call (shape_calls ++ clip_calls ++ overlay_calls)
     ++ [parent_dispose]).

(** The cairo calls among those of a disposal. *)
Definition setter_calls (cs : list dispose_call) : list call :=
  omap (fun c => match c with setter_call c' => Some c' | _ => None end) cs.

(** ** Everything that can happen to a live element

    The operations of a caller, the time-out firing, and a pick. *)
Inductive event :=
| EvOperation (op : operation)
| EvIdleCheck (now : Z)
| EvPick (color : ClutterColor) (should_pick_paint : bool)
    (alloc : ClutterActorBox).

Definition apply_event (priv : MetaShapedTexturePrivate) (ev : event)
  : MetaShapedTexturePrivate :=
  match ev with
  | EvOperation op => apply_operation priv op
  | EvIdleCheck now => fst (fst (texture_is_idle_and_not_mipmapped priv now))
  | EvPick color should_pick_paint alloc =>
      match meta_shaped_texture_pick priv color should_pick_paint alloc with
      | Some (priv', _) => priv'
      | None => priv
      end
  end.

Definition run_events (priv : MetaShapedTexturePrivate) (evs : list event)
  : MetaShapedTexturePrivate :=
  fold_left apply_event evs priv.

(** ** Invariants of a live element *)

(** The cached size is the size of the bound texture, and zero without
    one. *)
Definition size_cached (priv : MetaShapedTexturePrivate) : Prop :=
  match texture priv with
  | Some tex =>
      tex_width priv = texture_width tex /\ tex_height priv = texture_height tex
  | None => tex_width priv = 0 /\ tex_height priv = 0
  end.

(** A mask texture has the size recorded for it. *)
Definition mask_recorded (priv : MetaShapedTexturePrivate) : Prop :=
  match mask_texture priv with
  | Some m =>
      mask_tex_width m = mask_width priv /\ mask_tex_height m = mask_height priv
  | None => True
  end.

(** Layer 1 of the shaped pipeline is unset or is the current mask
    texture. *)
Definition pipeline_mask_current (priv : MetaShapedTexturePrivate) : Prop :=
  match pipeline priv with
  | Some p => layer1 p = None \/ layer1 p = mask_texture priv
  | None => True
  end.

(** Every update of the run follows the one before it, which was
    recorded, by less than [MIN_MIPMAP_AGE_USEC]. *)
Fixpoint all_fast (last : Z) (times : list Z) : Prop :=
  match times with
  | [] => True
  | t :: rest =>
      last <> 0 /\ sub64 t last < MIN_MIPMAP_AGE_USEC /\ all_fast t rest
  end.

(** What a live element keeps true. *)
Definition live_invariant (priv : MetaShapedTexturePrivate) : Prop :=
  size_cached priv /\ mask_recorded priv /\ pipeline_mask_current priv.

(** The number of references that the element holds on the region at
    [addr]: one for each of the shape, clip and overlay fields that
    points to it. *)
Definition field_holds (r : option cairo_region_t) (addr : positive) : nat :=
  match r with
  | Some region => if decide (region_addr region = addr) then 1 else 0
  | None => 0
  end.

Definition holds (priv : MetaShapedTexturePrivate) (addr : positive) : nat :=
  (field_holds (shape_region priv) addr + field_holds (clip_region priv) addr
   + field_holds (overlay_region priv) addr)%nat.

(** The memory has every reference that the element holds, and the
    stored overlay path is live. *)
Definition owns (m : Memory) (priv : MetaShapedTexturePrivate) : Prop :=
  (forall addr, (holds priv addr <= refcount m addr)%nat) /\
  match overlay_path priv with
  | Some path => path_addr path ∈ live_paths m
  | None => True
  end.

(** The draws among the calls of a paint. *)
Definition is_draw (c : call) : bool :=
  match c with
  | cogl_rectangle _ _ _ _ => true
  | cogl_rectangle_with_multitexture_coords _ _ _ _ _ => true
  | _ => false
  end.

Definition is_timeout_add (c : call) : bool :=
  match c with
  | g_timeout_add _ => true
  | _ => false
  end.

Definition is_redraw (c : call) : bool :=
  match c with
  | clutter_actor_queue_redraw_with_clip _ => true
  | _ => false
  end.

(** * Properties *)

(** ** Machine integers *)

Lemma MIN_MIPMAP_AGE_USEC_value : MIN_MIPMAP_AGE_USEC = 200000.
Proof. reflexivity. Qed.

(** Time stamps of the monotonic clock are not negative, and then their
    64-bit difference is the difference. *)
Lemma sub64_exact (a b : Z) :
  0 <= a < 2 ^ 63 -> 0 <= b < 2 ^ 63 -> sub64 a b = a - b.
Proof.
  intros Ha Hb. unfold sub64, wrap64.
  rewrite Z.mod_small; lia.
Qed.

Lemma guint_succ_small (n : N) :
  (n < MIN_FAST_UPDATES_BEFORE_UNMIPMAP)%N -> guint_succ n = (n + 1)%N.
Proof.
  unfold guint_succ, MIN_FAST_UPDATES_BEFORE_UNMIPMAP. intros Hn.
  apply N.mod_small. change (2 ^ 32)%N with 4294967296%N. lia.
Qed.

(** ** binary32: integers up to [2^24] are converted exactly *)

Lemma digits2_pos_iter_xO (p k : positive) :
  digits2_pos (Pos.iter xO p k) = (digits2_pos p + k)%positive.
Proof.
  induction k as [| k IH] using Pos.peano_ind.
  - simpl. lia.
  - rewrite Pos.iter_succ. simpl. rewrite IH. lia.
Qed.

Lemma Zpos_iter_xO (p k : positive) :
  Z.pos (Pos.iter xO p k) = Z.pos p * 2 ^ Z.pos k.
Proof.
  induction k as [| k IH] using Pos.peano_ind.
  - simpl. lia.
  - rewrite Pos.iter_succ, Pos2Z.inj_xO, IH, Pos2Z.inj_succ.
    rewrite Z.pow_succ_r by lia. lia.
Qed.

Lemma digits2_pos_lower (p : positive) :
  2 ^ (Z.pos (digits2_pos p) - 1) <= Z.pos p.
Proof.
  induction p as [p IH | p IH |]; simpl digits2_pos.
  - rewrite Pos2Z.inj_succ.
    replace (Z.succ (Z.pos (digits2_pos p)) - 1)
      with (Z.succ (Z.pos (digits2_pos p) - 1)) by lia.
    rewrite Z.pow_succ_r by lia. lia.
  - rewrite Pos2Z.inj_succ.
    replace (Z.succ (Z.pos (digits2_pos p)) - 1)
      with (Z.succ (Z.pos (digits2_pos p) - 1)) by lia.
    rewrite Z.pow_succ_r by lia. lia.
  - simpl. lia.
Qed.

Lemma digits2_pos_small (p : positive) :
  Z.pos p < 2 ^ 24 -> Z.pos (digits2_pos p) <= 24.
Proof.
  intros Hp. pose proof (digits2_pos_lower p) as Hlow.
  destruct (Z.le_gt_cases (Z.pos (digits2_pos p)) 24) as [H | H]; [exact H |].
  exfalso.
  assert (2 ^ 24 <= 2 ^ (Z.pos (digits2_pos p) - 1))
    by (apply Z.pow_le_mono_r; lia).
  lia.
Qed.

Lemma binary_round_aux_exact (s : bool) (m : positive) (e : Z) :
  Z.pos (digits2_pos m) = 24 -> -149 <= e <= 104 ->
  binary_round_aux 24 128 s (Z.pos m) e loc_Exact = S754_finite s m e.
Proof.
  intros Hdig He.
  assert (Hn : fexp 24 128 (24 + e) - e = 0) by (unfold fexp, emin; lia).
  unfold binary_round_aux, shr_fexp. cbn [Zdigits2 shr_record_of_loc].
  rewrite Hdig, Hn.
  cbn [shr shr_m loc_of_shr_record round_nearest_even Zdigits2
         shr_record_of_loc].
  rewrite Hdig, Hn. cbn [shr shr_m].
  destruct (Z.leb_spec e (128 - 24)); [reflexivity | lia].
Qed.

Lemma binary_round_exact (s : bool) (p : positive) :
  Z.pos p < 2 ^ 24 ->
  float_to_int (binary_round 24 128 s p 0) = Some (cond_Zopp s (Z.pos p)).
Proof.
  intros Hp. pose proof (digits2_pos_small p Hp) as Hd.
  unfold binary_round.
  assert (Hfexp : fexp 24 128 (Z.pos (digits2_pos p) + 0)
                  = Z.pos (digits2_pos p) - 24)
    by (unfold fexp, emin; lia).
  rewrite Hfexp. unfold shl_align.
  replace (Z.pos (digits2_pos p) - 24 - 0)
    with (Z.pos (digits2_pos p) - 24) by lia.
  destruct (Z.pos (digits2_pos p) - 24) as [| k | k] eqn:Ek; [| lia |].
  - rewrite binary_round_aux_exact by lia.
    cbn. rewrite Z.pow_0_r, Z.mul_1_r. reflexivity.
  - rewrite binary_round_aux_exact
      by (rewrite ?digits2_pos_iter_xO, ?Pos2Z.inj_add; lia).
    unfold float_to_int.
    destruct (Z.leb_spec 0 (Z.neg k)); [lia |].
    rewrite Zpos_iter_xO. change (- Z.neg k) with (Z.pos k).
    rewrite Z.mod_mul by lia. cbn [Z.eqb].
    rewrite Z.div_mul by lia. reflexivity.
Qed.

Lemma float_of_int_exact (z : Z) :
  - 2 ^ 24 <= z <= 2 ^ 24 -> float_to_int (float_of_int z) = Some z.
Proof.
  intros Hz. unfold float_of_int, binary_normalize.
  destruct z as [| p | p].
  - reflexivity.
  - destruct (Z.eq_dec (Z.pos p) (2 ^ 24)) as [E | E].
    + change (2 ^ 24) with (Z.pos 16777216) in E. inversion E. reflexivity.
    + rewrite binary_round_exact by lia. reflexivity.
  - destruct (Z.eq_dec (Z.neg p) (- 2 ^ 24)) as [E | E].
    + change (- 2 ^ 24) with (Z.neg 16777216) in E. inversion E. reflexivity.
    + rewrite binary_round_exact by lia. reflexivity.
Qed.

Lemma destination_of_rect_exact (r : cairo_rectangle_int_t) :
  - 2 ^ 24 <= rx r <= 2 ^ 24 -> - 2 ^ 24 <= ry r <= 2 ^ 24 ->
  - 2 ^ 24 <= rx r + rwidth r <= 2 ^ 24 ->
  - 2 ^ 24 <= ry r + rheight r <= 2 ^ 24 ->
  destination_rect (destination_of_rect r) = Some r.
Proof.
  intros Hx Hy Hx2 Hy2. unfold destination_rect, destination_of_rect.
  rewrite !float_of_int_exact by assumption.
  destruct r as [x y w h]. simpl. f_equal. f_equal; lia.
Qed.

(** ** The mipmap policy *)

Section MipStalenessPolicy.

Variable priv : MetaShapedTexturePrivate.

Lemma should_use_mipmap_disabled (now : Z) :
  create_mipmaps priv = false -> should_use_mipmap priv now = false.
Proof. unfold should_use_mipmap. intros ->. reflexivity. Qed.

Lemma should_use_mipmap_never_invalidated (now : Z) :
  last_invalidation priv = 0 -> should_use_mipmap priv now = false.
Proof.
  unfold should_use_mipmap. intros ->. simpl.
  rewrite andb_false_r. reflexivity.
Qed.

Lemma should_use_mipmap_true (now : Z) :
  should_use_mipmap priv now = true <->
  create_mipmaps priv = true /\ last_invalidation priv <> 0 /\
  (MIN_MIPMAP_AGE_USEC <= sub64 now (last_invalidation priv) \/
   (fast_updates priv < MIN_FAST_UPDATES_BEFORE_UNMIPMAP)%N).
Proof.
  unfold should_use_mipmap.
  destruct (create_mipmaps priv); simpl.
  - destruct (Z.eqb_spec (last_invalidation priv) 0) as [E | E]; simpl.
    + split; [discriminate | intros (_ & H & _); contradiction].
    + rewrite orb_true_iff, Z.leb_le, N.ltb_lt. tauto.
  - split; [discriminate | intros (H & _); discriminate].
Qed.

Lemma select_paint_texture_source (env : PaintEnv) :
  fst (fst (select_paint_texture env priv)) =
  match mipmap_paint_texture priv (env_now env) (env_tower_texture env) with
  | Some t => Some t
  | None => texture priv
  end.
Proof.
  unfold select_paint_texture.
  destruct (mipmap_paint_texture _ _ _); [reflexivity |].
  destruct (texture priv); [| reflexivity].
  destruct (arm_remipmap env priv). reflexivity.
Qed.

End MipStalenessPolicy.

(** C2 (as stated, refuted).  Mipmaps are enabled, the texture was
    invalidated 299999 microseconds ago and no fast update was counted, so
    the decision is to use the mipmap; the tower has no paint texture to
    give, and the raw surface is painted. *)
Lemma mipmap_decision_true_raw_surface_painted :
  let raw := mkTexture 1 64 64 in
  let priv :=
    mkPriv 1 (Some raw) None None None None None None None None
      64 64 0 0 0 1 0%N 0 0 true in
  let box := mkBox (float_of_int 0) (float_of_int 0)
               (float_of_int 64) (float_of_int 64) in
  let env := mkPaintEnv 300000 None box 255 true 7 in
  should_use_mipmap priv (env_now env) = true /\
  fst (fst (select_paint_texture env priv)) = Some raw.
Proof. split; reflexivity. Qed.

(** C2 (amended).  The decision is true exactly when mipmapping is
    enabled, an invalidation has been recorded, and, with
    [age = now - last_invalidation], [age >= MIN_MIPMAP_AGE_USEC] or
    [fast_updates < MIN_FAST_UPDATES_BEFORE_UNMIPMAP]; it is false
    otherwise.  Exactly in that case the texture tower is asked for the
    paint texture; the texture it gives is the paint source, and the raw
    surface is the paint source when the decision is false or the tower
    gives none. *)
Theorem mipmap_decision_and_paint_source
    (priv : MetaShapedTexturePrivate) (env : PaintEnv) :
  let now := env_now env in
  let age := sub64 now (last_invalidation priv) in
  (should_use_mipmap priv now = true <->
   create_mipmaps priv = true /\ last_invalidation priv <> 0 /\
   (MIN_MIPMAP_AGE_USEC <= age \/
    (fast_updates priv < MIN_FAST_UPDATES_BEFORE_UNMIPMAP)%N)) /\
  mipmap_paint_texture priv now (env_tower_texture env) =
    (if should_use_mipmap priv now then env_tower_texture env else None) /\
  fst (fst (select_paint_texture env priv)) =
    match env_tower_texture env with
    | Some pyramid =>
        if should_use_mipmap priv now then Some pyramid else texture priv
    | None => texture priv
    end.
Proof.
  intros now age. split; [apply should_use_mipmap_true |].
  split; [reflexivity |].
  rewrite select_paint_texture_source. unfold mipmap_paint_texture. fold now.
  destruct (should_use_mipmap priv now), (env_tower_texture env); reflexivity.
Qed.

(** ** The invalidation timeline *)

(** The functions that do not record an update leave the timeline as it
    is. *)
Lemma dirty_mask_timeline (priv : MetaShapedTexturePrivate) :
  timeline (meta_shaped_texture_dirty_mask priv) = timeline priv.
Proof. reflexivity. Qed.

Lemma ensure_mask_timeline (priv priv' : MetaShapedTexturePrivate) :
  meta_shaped_texture_ensure_mask priv = Some priv' ->
  timeline priv' = timeline priv.
Proof.
  unfold meta_shaped_texture_ensure_mask. intros H.
  repeat match type of H with
         | context [match ?x with _ => _ end] => destruct x eqn:?
         end;
    inversion H; subst; reflexivity.
Qed.

Lemma arm_remipmap_timeline (env : PaintEnv) (priv : MetaShapedTexturePrivate) :
  timeline (fst (arm_remipmap env priv)) = timeline priv.
Proof.
  unfold arm_remipmap.
  destruct (create_mipmaps priv), (remipmap_timeout_id priv =? 0); reflexivity.
Qed.

Lemma select_paint_texture_timeline (env : PaintEnv)
    (priv : MetaShapedTexturePrivate) :
  timeline (snd (fst (select_paint_texture env priv))) = timeline priv.
Proof.
  unfold select_paint_texture.
  destruct (mipmap_paint_texture _ _ _); [reflexivity |].
  destruct (texture priv); [| reflexivity].
  pose proof (arm_remipmap_timeline env priv) as Harm.
  destruct (arm_remipmap env priv). exact Harm.
Qed.

Lemma paint_texture_timeline (env : PaintEnv)
    (priv priv' : MetaShapedTexturePrivate) (paint_tex : CoglTexture)
    (calls : list call) :
  paint_texture env priv paint_tex = Some (priv', calls) ->
  timeline priv' = timeline priv.
Proof.
  unfold paint_texture. intros H.
  destruct ((tex_width priv =? 0) || (tex_height priv =? 0));
    [inversion H; reflexivity |].
  destruct (shape_region priv); [| inversion H; reflexivity].
  destruct (meta_shaped_texture_ensure_mask priv) as [priv1 |] eqn:E;
    [| discriminate].
  apply ensure_mask_timeline in E. inversion H; subst. exact E.
Qed.

Lemma paint_timeline (env : PaintEnv) (priv priv' : MetaShapedTexturePrivate)
    (calls : list call) :
  meta_shaped_texture_paint env priv = Some (priv', calls) ->
  timeline priv' = timeline priv.
Proof.
  unfold meta_shaped_texture_paint. intros H.
  match type of H with
  | (if ?b then _ else _) = _ => destruct b
  end; [inversion H; reflexivity |].
  pose proof (select_paint_texture_timeline env priv) as Hsel.
  destruct (select_paint_texture env priv) as [[[paint_tex |] priv1] calls1];
    simpl in Hsel.
  - destruct (paint_texture env priv1 paint_tex) as [[priv2 draws] |] eqn:E;
      [| discriminate].
    apply paint_texture_timeline in E. inversion H; subst. congruence.
  - inversion H; subst. exact Hsel.
Qed.

Lemma record_update_fast_updates (priv : MetaShapedTexturePrivate) (now : Z) :
  fast_updates (record_update priv now) =
  if last_invalidation priv =? 0 then fast_updates priv
  else if MIN_MIPMAP_AGE_USEC <=? sub64 now (last_invalidation priv) then 0%N
  else if (fast_updates priv <? MIN_FAST_UPDATES_BEFORE_UNMIPMAP)%N
       then (fast_updates priv + 1)%N
       else fast_updates priv.
Proof.
  unfold record_update. simpl.
  destruct (last_invalidation priv =? 0); simpl; [reflexivity |].
  rewrite Z.ltb_antisym, negb_involutive.
  destruct (MIN_MIPMAP_AGE_USEC <=? sub64 now (last_invalidation priv));
    [reflexivity |].
  destruct (N.ltb_spec (fast_updates priv) MIN_FAST_UPDATES_BEFORE_UNMIPMAP);
    [apply guint_succ_small; assumption | reflexivity].
Qed.

Lemma record_update_bounded (priv : MetaShapedTexturePrivate) (now : Z) :
  (fast_updates (record_update priv now)
   <= N.max (fast_updates priv) MIN_FAST_UPDATES_BEFORE_UNMIPMAP)%N.
Proof.
  rewrite record_update_fast_updates.
  repeat match goal with
         | |- context [if ?b then _ else _] => destruct b eqn:?
         end;
    rewrite ?N.ltb_lt in *; lia.
Qed.

Lemma set_pixmap_fast_updates (priv : MetaShapedTexturePrivate)
    (pixmap' : Z) (new_texture : option CoglTexture) :
  fast_updates (fst (meta_shaped_texture_set_pixmap priv pixmap' new_texture))
  = fast_updates priv.
Proof.
  unfold meta_shaped_texture_set_pixmap, set_cogl_texture.
  repeat match goal with
         | |- context [if ?b then _ else _] => destruct b
         | |- context [match ?x with Some _ => _ | None => _ end] =>
             destruct x
         end; reflexivity.
Qed.

Lemma apply_operation_bounded (priv : MetaShapedTexturePrivate) (op : operation) :
  (fast_updates priv <= MIN_FAST_UPDATES_BEFORE_UNMIPMAP)%N ->
  (fast_updates (apply_operation priv op)
   <= MIN_FAST_UPDATES_BEFORE_UNMIPMAP)%N.
Proof.
  intros Hle. destruct op; simpl.
  - unfold meta_shaped_texture_update_area.
    destruct (texture priv); [| assumption].
    destruct (queue_damage_redraw _ _). cbn [fst].
    pose proof (record_update_bounded priv now). lia.
  - destruct (meta_shaped_texture_paint env priv) as [[priv' calls] |] eqn:E;
      [| assumption].
    apply paint_timeline in E. unfold timeline in E. congruence.
  - assumption.
  - assumption.
  - unfold meta_shaped_texture_set_clip_region.
    destruct region; assumption.
  - unfold meta_shaped_texture_set_create_mipmaps.
    destruct (negb _); assumption.
  - rewrite set_pixmap_fast_updates. assumption.
Qed.

Lemma run_operations_bounded (ops : list operation) :
  forall priv,
    (fast_updates priv <= MIN_FAST_UPDATES_BEFORE_UNMIPMAP)%N ->
    (fast_updates (run_operations priv ops)
     <= MIN_FAST_UPDATES_BEFORE_UNMIPMAP)%N.
Proof.
  induction ops as [| op ops IH]; intros priv Hle; simpl; [assumption |].
  apply IH, apply_operation_bounded, Hle.
Qed.

(** C3.  [record_update] moves [last_invalidation] into
    [prev_invalidation] and stores [now]; when there was a previous
    update, with [interval = last - prev], an interval of at least
    [MIN_MIPMAP_AGE_USEC] resets [fast_updates] to 0 and a shorter one
    increments it unless it has reached the threshold; the counter never
    exceeds [MIN_FAST_UPDATES_BEFORE_UNMIPMAP], whatever operations are
    run from the initial state. *)
Theorem record_update_timeline (priv : MetaShapedTexturePrivate) (now : Z) :
  let priv' := record_update priv now in
  let interval := sub64 (last_invalidation priv') (prev_invalidation priv') in
  prev_invalidation priv' = last_invalidation priv /\
  last_invalidation priv' = now /\
  fast_updates priv' =
    (if prev_invalidation priv' =? 0 then fast_updates priv
     else if MIN_MIPMAP_AGE_USEC <=? interval then 0%N
     else if (fast_updates priv <? MIN_FAST_UPDATES_BEFORE_UNMIPMAP)%N
          then (fast_updates priv + 1)%N
          else fast_updates priv) /\
  (fast_updates priv'
   <= N.max (fast_updates priv) MIN_FAST_UPDATES_BEFORE_UNMIPMAP)%N /\
  forall ops : list operation,
    (fast_updates (run_operations meta_shaped_texture_init ops)
     <= MIN_FAST_UPDATES_BEFORE_UNMIPMAP)%N.
Proof.
  intros priv' interval.
  split; [reflexivity |]. split; [reflexivity |].
  split; [apply record_update_fast_updates |].
  split; [apply record_update_bounded |].
  intros ops. apply run_operations_bounded. simpl.
  unfold MIN_FAST_UPDATES_BEFORE_UNMIPMAP. lia.
Qed.

(** ** Rectangles *)

(** Case analysis on every integer comparison of a hypothesis. *)
Ltac split_comparisons H :=
  repeat match type of H with
         | context [?a <? ?b] => destruct (Z.ltb_spec a b)
         | context [?a <=? ?b] => destruct (Z.leb_spec a b)
         end.

Lemma wrap32_exact (z : Z) : - 2 ^ 31 <= z < 2 ^ 31 -> wrap32 z = z.
Proof.
  intros H. unfold wrap32. rewrite Z.mod_small; lia.
Qed.

Lemma wrap32_range (z : Z) : - 2 ^ 31 <= wrap32 z < 2 ^ 31.
Proof.
  unfold wrap32.
  pose proof (Z.mod_pos_bound (z + 2 ^ 31) (2 ^ 32) ltac:(lia)). lia.
Qed.

Lemma guint_to_gint_exact (u : Z) :
  - 2 ^ 31 <= u < 2 ^ 31 -> guint_to_gint u = u.
Proof. apply wrap32_exact. Qed.

(** From [2^31] on a [guint] is stored as a negative [int]. *)
Lemma guint_to_gint_large (u : Z) :
  2 ^ 31 <= u < 2 ^ 32 -> guint_to_gint u = u - 2 ^ 32.
Proof.
  intros H. unfold guint_to_gint, wrap32.
  replace (u + 2 ^ 31) with (u - 2 ^ 31 + 1 * 2 ^ 32) by lia.
  rewrite Z.mod_add by lia. rewrite Z.mod_small; lia.
Qed.

Lemma fits_gint_spec (z : Z) : fits_gint z = true <-> - 2 ^ 31 <= z < 2 ^ 31.
Proof.
  unfold fits_gint. rewrite andb_true_iff, Z.leb_le, Z.ltb_lt. tauto.
Qed.

(** Where no far corner passes the range of [gint] and the first
    rectangle has a [gint] size, GDK computes the intersection of the
    two rectangles. *)
Lemma gdk_rectangle_intersect_fit
    (src1 src2 dest0 : cairo_rectangle_int_t) :
  corners_fit src1 -> corners_fit src2 ->
  rwidth src1 < 2 ^ 31 -> rheight src1 < 2 ^ 31 ->
  gdk_rectangle_intersect src1 src2 dest0 =
  let dest_x := MAX (rx src1) (rx src2) in
  let dest_y := MAX (ry src1) (ry src2) in
  let dest_x2 := MIN (rx src1 + rwidth src1) (rx src2 + rwidth src2) in
  let dest_y2 := MIN (ry src1 + rheight src1) (ry src2 + rheight src2) in
  if (dest_x <? dest_x2) && (dest_y <? dest_y2)
  then (true, mkRect dest_x dest_y (dest_x2 - dest_x) (dest_y2 - dest_y))
  else (false, mkRect (rx dest0) (ry dest0) 0 0).
Proof.
  intros [Hx1 Hy1] [Hx2 Hy2] Hw Hh.
  unfold gdk_rectangle_intersect, gint_add. cbv zeta.
  rewrite !wrap32_exact by assumption.
  destruct (Z.ltb_spec (MAX (rx src1) (rx src2))
              (MIN (rx src1 + rwidth src1) (rx src2 + rwidth src2)));
    [| reflexivity].
  destruct (Z.ltb_spec (MAX (ry src1) (ry src2))
              (MIN (ry src1 + rheight src1) (ry src2 + rheight src2)));
    [| reflexivity].
  cbn [andb]. unfold gint_sub.
  rewrite !wrap32_exact; [reflexivity | |];
    unfold MAX, MIN in *;
    repeat match goal with
           | |- context [?a <? ?b] => destruct (Z.ltb_spec a b)
           | H : context [?a <? ?b] |- _ => destruct (Z.ltb_spec a b)
           end; lia.
Qed.

Lemma gdk_rectangle_intersect_true
    (src1 src2 dest0 dest : cairo_rectangle_int_t) :
  corners_fit src1 -> corners_fit src2 ->
  rwidth src1 < 2 ^ 31 -> rheight src1 < 2 ^ 31 ->
  gdk_rectangle_intersect src1 src2 dest0 = (true, dest) ->
  rect_nonempty dest /\
  forall px py, in_rect px py dest <-> in_rect px py src1 /\ in_rect px py src2.
Proof.
  intros H1 H2 Hw Hh.
  rewrite (gdk_rectangle_intersect_fit _ _ _ H1 H2 Hw Hh).
  unfold MAX, MIN, rect_nonempty, in_rect.
  intros H. split_comparisons H;
    simpl in H; inversion H; subst; simpl; (split; [lia | intros; lia]).
Qed.

Lemma gdk_rectangle_intersect_false
    (src1 src2 dest0 dest : cairo_rectangle_int_t) :
  corners_fit src1 -> corners_fit src2 ->
  rwidth src1 < 2 ^ 31 -> rheight src1 < 2 ^ 31 ->
  gdk_rectangle_intersect src1 src2 dest0 = (false, dest) ->
  dest = mkRect (rx dest0) (ry dest0) 0 0 /\
  forall px py, ~ (in_rect px py src1 /\ in_rect px py src2).
Proof.
  intros H1 H2 Hw Hh.
  rewrite (gdk_rectangle_intersect_fit _ _ _ H1 H2 Hw Hh).
  unfold MAX, MIN, in_rect.
  intros H. split_comparisons H;
    simpl in H; inversion H; subst; (split; [reflexivity | intros; lia]).
Qed.

(** ** Obscured query *)

Lemma cairo_region_is_empty_nil (rects : list cairo_rectangle_int_t) :
  cairo_region_is_empty rects = true <-> rects = [].
Proof. destruct rects; simpl; split; congruence. Qed.

(** A region without rectangles has no pixel, and a well-formed region
    without pixel has no rectangle. *)
Lemma region_no_pixel (rects : list cairo_rectangle_int_t) :
  region_wf rects ->
  (rects = [] <-> forall px py, ~ in_region px py rects).
Proof.
  intros Hwf. split.
  - intros -> px py H. inversion H.
  - destruct rects as [| r rest]; [reflexivity |]. intros Hno.
    inversion Hwf as [| ? ? [Hw Hh] _]; subst.
    exfalso. apply (Hno (rx r) (ry r)).
    constructor. unfold in_rect. lia.
Qed.

(** The answer on one state: true exactly when the actor has no mapped
    clone and the structure holds an unobscured region that is empty. *)
Lemma is_obscured_iff (priv : MetaShapedTexturePrivate)
    (has_mapped_clones : bool) :
  meta_shaped_texture_is_obscured priv has_mapped_clones = true <->
  has_mapped_clones = false /\
  exists region,
    unobscured_region priv = Some region /\ region_rects region = [].
Proof.
  unfold meta_shaped_texture_is_obscured, effective_unobscured_region.
  destruct has_mapped_clones.
  - split; [discriminate | intros [H _]; discriminate].
  - destruct (unobscured_region priv) as [region |].
    + rewrite cairo_region_is_empty_nil. split.
      * intros H. split; [reflexivity | exists region; auto].
      * intros [_ [region' [E H]]]. inversion E; subst. exact H.
    + split; [discriminate | intros [_ [region [E _]]]; discriminate].
Qed.

(** ** Flattened image *)




(** ** Clipped paint *)




(** ** Damage *)

Lemma rect_intersect_Some (clip r r' : cairo_rectangle_int_t) :
  rect_intersect clip r = Some r' ->
  rect_nonempty r' /\
  forall px py, in_rect px py r' <-> in_rect px py r /\ in_rect px py clip.
Proof.
  unfold rect_intersect, rect_nonempty, in_rect. intros H.
  split_comparisons H; simpl in H; inversion H; subst; simpl;
    (split; [lia | intros; lia]).
Qed.

Lemma rect_intersect_None (clip r : cairo_rectangle_int_t) :
  rect_intersect clip r = None ->
  forall px py, ~ (in_rect px py r /\ in_rect px py clip).
Proof.
  unfold rect_intersect, in_rect. intros H.
  split_comparisons H; simpl in H; inversion H; intros; lia.
Qed.

Lemma intersect_rectangle_pixels (rects : list cairo_rectangle_int_t)
    (clip : cairo_rectangle_int_t) (px py : Z) :
  in_region px py (cairo_region_intersect_rectangle rects clip) <->
  in_region px py rects /\ in_rect px py clip.
Proof.
  unfold in_region, cairo_region_intersect_rectangle.
  induction rects as [| r rest IH]; simpl.
  - rewrite !Exists_nil. tauto.
  - destruct (rect_intersect clip r) as [r' |] eqn:E.
    + apply rect_intersect_Some in E as [_ Hin].
      rewrite !Exists_cons, IH, Hin. tauto.
    + pose proof (rect_intersect_None _ _ E px py) as Hno.
      rewrite Exists_cons, IH. tauto.
Qed.

Lemma intersect_rectangle_wf (rects : list cairo_rectangle_int_t)
    (clip : cairo_rectangle_int_t) :
  region_wf (cairo_region_intersect_rectangle rects clip).
Proof.
  unfold region_wf, cairo_region_intersect_rectangle.
  induction rects as [| r rest IH]; simpl; [constructor |].
  destruct (rect_intersect clip r) as [r' |] eqn:E; [| exact IH].
  constructor; [| exact IH]. apply (rect_intersect_Some _ _ _ E).
Qed.

Lemma bounding_box_ext (P Q : Z -> Z -> Prop) (b : cairo_rectangle_int_t) :
  (forall px py, P px py <-> Q px py) -> bounding_box P b -> bounding_box Q b.
Proof.
  intros Heq (Hall & [y1 H1] & [y2 H2] & [x3 H3] & [x4 H4]).
  split; [intros px py H; apply Hall, Heq, H |].
  repeat split; eexists; apply Heq; eassumption.
Qed.

Lemma bounding_box_single (r : cairo_rectangle_int_t) :
  rect_nonempty r -> bounding_box (fun px py => in_rect px py r) r.
Proof.
  unfold rect_nonempty, bounding_box, in_rect. intros [Hw Hh].
  split; [auto |].
  repeat split; try (exists (ry r); lia); exists (rx r); lia.
Qed.

Lemma bounding_box_hull (P : Z -> Z -> Prop) (b r : cairo_rectangle_int_t) :
  bounding_box P b -> rect_nonempty r ->
  bounding_box (fun px py => P px py \/ in_rect px py r) (rect_hull b r).
Proof.
  intros (Hall & [y1 H1] & [y2 H2] & [x3 H3] & [x4 H4]) [Hw Hh].
  unfold bounding_box, rect_hull; simpl.
  split.
  - intros px py [H | H]; [apply Hall in H |];
      unfold in_rect in *; simpl; lia.
  - repeat split.
    + destruct (Z.min_spec (rx b) (rx r)) as [[_ ->] | [_ ->]];
        [exists y1; left; exact H1 |].
      exists (ry r). right. unfold in_rect. lia.
    + destruct (Z.max_spec (rx b + rwidth b) (rx r + rwidth r))
        as [[_ E] | [_ E]].
      * exists (ry r). right. unfold in_rect. lia.
      * exists y2. left.
        replace (_ + _ - 1) with (rx b + rwidth b - 1) by lia. exact H2.
    + destruct (Z.min_spec (ry b) (ry r)) as [[_ ->] | [_ ->]];
        [exists x3; left; exact H3 |].
      exists (rx r). right. unfold in_rect. lia.
    + destruct (Z.max_spec (ry b + rheight b) (ry r + rheight r))
        as [[_ E] | [_ E]].
      * exists (rx r). right. unfold in_rect. lia.
      * exists x4. left.
        replace (_ + _ - 1) with (ry b + rheight b - 1) by lia. exact H4.
Qed.

Lemma fold_hull_bounding_box (rest : list cairo_rectangle_int_t) :
  forall (P : Z -> Z -> Prop) (b : cairo_rectangle_int_t),
    bounding_box P b -> region_wf rest ->
    bounding_box (fun px py => P px py \/ in_region px py rest)
      (fold_left rect_hull rest b).
Proof.
  induction rest as [| r rest IH]; intros P b Hb Hwf; simpl.
  - apply (bounding_box_ext P); [| exact Hb].
    intros px py. unfold in_region. rewrite Exists_nil. tauto.
  - inversion Hwf as [| ? ? Hr Hrest]; subst.
    apply (bounding_box_ext
             (fun px py => (P px py \/ in_rect px py r) \/ in_region px py rest)).
    + intros px py. unfold in_region. rewrite Exists_cons. tauto.
    + apply IH; [apply bounding_box_hull; assumption | exact Hrest].
Qed.

Lemma get_extents_bounding_box (r : cairo_rectangle_int_t)
    (rest : list cairo_rectangle_int_t) :
  region_wf (r :: rest) ->
  bounding_box (fun px py => in_region px py (r :: rest))
    (cairo_region_get_extents (r :: rest)).
Proof.
  intros Hwf. inversion Hwf as [| ? ? Hr Hrest]; subst. simpl.
  apply (bounding_box_ext
           (fun px py => in_rect px py r \/ in_region px py rest)).
  - intros px py. unfold in_region. rewrite Exists_cons. tauto.
  - apply (fold_hull_bounding_box rest (fun px py => in_rect px py r));
      [apply bounding_box_single; exact Hr | exact Hrest].
Qed.

(** The last block of [meta_shaped_texture_update_area].  Without an
    unobscured region a redraw clipped to the damage rectangle is queued
    and the result is true.  With one, nothing is queued and the result
    is false when the region and the rectangle share no pixel (the region
    is empty, or the intersection is); otherwise one redraw is queued,
    clipped to the bounding box of the pixels that the region and the
    rectangle share, and the result is true. *)
Lemma queue_damage_redraw_decision (rect : cairo_rectangle_int_t)
    (unobscured_region : option cairo_region_t) :
  match unobscured_region with
  | None =>
      queue_damage_redraw rect None =
      ([clutter_actor_queue_redraw_with_clip rect], true)
  | Some region =>
      let damaged px py :=
        in_region px py (region_rects region) /\ in_rect px py rect in
      ((forall px py, ~ damaged px py) /\
       queue_damage_redraw rect (Some region) = ([], false)) \/
      ((exists px py, damaged px py) /\
       exists extents,
         bounding_box damaged extents /\
         queue_damage_redraw rect (Some region) =
         ([clutter_actor_queue_redraw_with_clip extents], true))
  end.
Proof.
  destruct unobscured_region as [region |]; [| reflexivity].
  intros damaged. unfold queue_damage_redraw.
  pose proof (intersect_rectangle_pixels (region_rects region) rect) as Hpix.
  pose proof (intersect_rectangle_wf (region_rects region) rect) as Hwf.
  destruct (region_rects region) as [| r0 rects0] eqn:Erects.
  - left. split; [| reflexivity].
    intros px py [H _]. inversion H.
  - cbn [cairo_region_is_empty].
    destruct (cairo_region_intersect_rectangle (r0 :: rects0) rect)
      as [| r rest] eqn:E; cbn [cairo_region_is_empty negb].
    + left. split; [| reflexivity].
      intros px py H. apply Hpix in H. inversion H.
    + right.
      pose proof (get_extents_bounding_box r rest Hwf) as Hbox.
      apply (bounding_box_ext _ damaged) in Hbox; [| exact Hpix].
      split.
      * destruct Hbox as (_ & [py H] & _). eauto.
      * eexists. split; [exact Hbox | reflexivity].
Qed.



(** ** Clipped paint: the batching loop *)

Lemma clip_to_texture_Some (tex_rect rect rect' : cairo_rectangle_int_t) :
  corners_fit tex_rect -> corners_fit rect ->
  rwidth tex_rect < 2 ^ 31 -> rheight tex_rect < 2 ^ 31 ->
  clip_to_texture tex_rect rect = Some rect' ->
  rect_nonempty rect' /\
  forall px py,
    in_rect px py rect' <-> in_rect px py tex_rect /\ in_rect px py rect.
Proof.
  intros H1 H2 Hw Hh. unfold clip_to_texture.
  destruct (gdk_rectangle_intersect tex_rect rect rect) as [[|] r] eqn:E;
    [| discriminate].
  intros H. inversion H; subst.
  apply (gdk_rectangle_intersect_true _ _ _ _ H1 H2 Hw Hh E).
Qed.

Lemma clip_to_texture_None (tex_rect rect : cairo_rectangle_int_t) :
  corners_fit tex_rect -> corners_fit rect ->
  rwidth tex_rect < 2 ^ 31 -> rheight tex_rect < 2 ^ 31 ->
  clip_to_texture tex_rect rect = None ->
  forall px py, ~ (in_rect px py tex_rect /\ in_rect px py rect).
Proof.
  intros H1 H2 Hw Hh. unfold clip_to_texture.
  destruct (gdk_rectangle_intersect tex_rect rect rect) as [[|] r] eqn:E;
    [discriminate |].
  intros _. apply (gdk_rectangle_intersect_false _ _ _ _ H1 H2 Hw Hh E).
Qed.

Lemma clipped_rectangles_pixels (tex_rect : cairo_rectangle_int_t)
    (rects : list cairo_rectangle_int_t) (px py : Z) :
  corners_fit tex_rect ->
  rwidth tex_rect < 2 ^ 31 -> rheight tex_rect < 2 ^ 31 ->
  Forall corners_fit rects ->
  in_region px py (omap (clip_to_texture tex_rect) rects) <->
  in_region px py rects /\ in_rect px py tex_rect.
Proof.
  intros H1 Hw Hh Hrects. unfold in_region.
  induction Hrects as [| r rest Hr _ IH]; simpl.
  - rewrite !Exists_nil. tauto.
  - destruct (clip_to_texture tex_rect r) as [r' |] eqn:E.
    + apply clip_to_texture_Some in E as [_ Hin]; try assumption.
      rewrite !Exists_cons, IH, Hin. tauto.
    + pose proof (clip_to_texture_None _ _ H1 Hr Hw Hh E px py) as Hno.
      rewrite Exists_cons, IH. tauto.
Qed.

(** Every rectangle drawn is the part inside the texture of one rectangle
    of the clip region. *)
Lemma clipped_rectangles_origin (tex_rect : cairo_rectangle_int_t)
    (rects : list cairo_rectangle_int_t) :
  Forall (fun r' => exists r, In r rects /\ clip_to_texture tex_rect r = Some r')
    (omap (clip_to_texture tex_rect) rects).
Proof.
  induction rects as [| r rest IH]; simpl; [constructor |].
  assert (Hrest :
    Forall (fun r' => exists r0,
                (r = r0 \/ In r0 rest) /\ clip_to_texture tex_rect r0 = Some r')
      (omap (clip_to_texture tex_rect) rest)).
  { eapply Forall_impl; [exact IH |].
    intros r' [r0 [Hin E]]. exists r0. auto. }
  destruct (clip_to_texture tex_rect r) as [r' |] eqn:E; [| exact Hrest].
  constructor; [exists r; auto | exact Hrest].
Qed.

Lemma source_rectangle_exact (tex_width tex_height : Z) :
  - 2 ^ 31 <= tex_width < 2 ^ 31 -> - 2 ^ 31 <= tex_height < 2 ^ 31 ->
  source_rectangle tex_width tex_height = mkRect 0 0 tex_width tex_height.
Proof.
  intros Hw Hh. unfold source_rectangle.
  rewrite !guint_to_gint_exact by assumption. reflexivity.
Qed.

(** Whatever the rectangle of the clip region, what survives the
    intersection with [tex_rect] lies between the origin and the sizes
    stored in [tex_rect]: GDK's sums do not wrap for it, and neither do
    the sums [rect.x + rect.width] and [rect.y + rect.height] of the
    loop. *)
Lemma clip_to_source_inside (tex_width tex_height : Z)
    (rect rect' : cairo_rectangle_int_t) :
  clip_to_texture (source_rectangle tex_width tex_height) rect = Some rect' ->
  0 <= rx rect' /\ 0 < rwidth rect' /\
  rx rect' + rwidth rect' <= guint_to_gint tex_width /\
  0 <= ry rect' /\ 0 < rheight rect' /\
  ry rect' + rheight rect' <= guint_to_gint tex_height.
Proof.
  unfold clip_to_texture, source_rectangle, gdk_rectangle_intersect.
  cbn [rx ry rwidth rheight].
  pose proof (wrap32_range tex_width) as HW.
  pose proof (wrap32_range tex_height) as HH.
  fold (guint_to_gint tex_width) in HW.
  fold (guint_to_gint tex_height) in HH.
  assert (EW : gint_add 0 (guint_to_gint tex_width) = guint_to_gint tex_width)
    by (unfold gint_add; rewrite Z.add_0_l; apply wrap32_exact; exact HW).
  assert (EH : gint_add 0 (guint_to_gint tex_height) = guint_to_gint tex_height)
    by (unfold gint_add; rewrite Z.add_0_l; apply wrap32_exact; exact HH).
  rewrite EW, EH.
  set (W := guint_to_gint tex_width) in *.
  set (H := guint_to_gint tex_height) in *.
  set (A := gint_add (rx rect) (rwidth rect)).
  set (B := gint_add (ry rect) (rheight rect)).
  destruct (Z.ltb_spec (MAX 0 (rx rect)) (MIN W A)) as [Hx |];
    [| discriminate].
  destruct (Z.ltb_spec (MAX 0 (ry rect)) (MIN H B)) as [Hy |];
    [| discriminate].
  cbn [andb]. intros [= <-]. cbn [rx ry rwidth rheight].
  assert (Hx0 : 0 <= MAX 0 (rx rect))
    by (unfold MAX; destruct (Z.ltb_spec (rx rect) 0); lia).
  assert (Hy0 : 0 <= MAX 0 (ry rect))
    by (unfold MAX; destruct (Z.ltb_spec (ry rect) 0); lia).
  assert (Hx2 : MIN W A <= W)
    by (unfold MIN; destruct (Z.ltb_spec W A); lia).
  assert (Hy2 : MIN H B <= H)
    by (unfold MIN; destruct (Z.ltb_spec H B); lia).
  unfold gint_sub. rewrite !wrap32_exact by lia. lia.
Qed.

Lemma paint_rectangles_within_budget (region : cairo_region_t)
    (tex_width tex_height : Z) (alloc : ClutterActorBox) :
  cairo_region_num_rectangles (region_rects region) <= MAX_RECTS ->
  paint_rectangles (Some region) tex_width tex_height alloc =
  map (multitexture_rectangle alloc)
    (omap (clip_to_texture (source_rectangle tex_width tex_height))
       (region_rects region)).
Proof.
  intros Hle. unfold paint_rectangles.
  destruct (Z.leb_spec (cairo_region_num_rectangles (region_rects region))
              MAX_RECTS); [reflexivity | lia].
Qed.

(** The rectangles drawn lie in the texture, so for sizes that tex_rect
    stores as at most [2^24] their corners are passed to Cogl exactly. *)
Lemma clipped_destinations_decode (tex_width tex_height : Z)
    (rects : list cairo_rectangle_int_t) (alloc : ClutterActorBox) :
  guint_to_gint tex_width <= 2 ^ 24 -> guint_to_gint tex_height <= 2 ^ 24 ->
  map (fun c => call_destination c ≫= destination_rect)
    (map (multitexture_rectangle alloc)
       (omap (clip_to_texture (source_rectangle tex_width tex_height)) rects)) =
  map Some
    (omap (clip_to_texture (source_rectangle tex_width tex_height)) rects).
Proof.
  intros Hw Hh.
  pose proof (clipped_rectangles_origin
                (source_rectangle tex_width tex_height) rects) as Horigin.
  induction Horigin as [| r drawn [c [_ E]] _ IH]; [reflexivity |].
  cbn [map]. rewrite IH. f_equal.
  apply clip_to_source_inside in E as (Hx & Hrw & Hx2 & Hy & Hrh & Hy2).
  cbn [multitexture_rectangle call_destination mbind option_bind].
  apply destination_of_rect_exact; lia.
Qed.

(** C5 (as stated, refuted).  A texture [2^25] pixels wide and the clip
    rectangle (16777217, 0, 1, 1), inside it.  The corner 16777217 has no
    [float]: it is passed to Cogl as 16777216, so the rectangle drawn is
    (16777216, 0, 2, 1) and covers the pixel (16777216, 0), which is
    outside the clip region. *)
Lemma clipped_paint_quad_outside_clip :
  in_rect 16777217 0 (mkRect 0 0 33554432 1) /\
  map (fun c => call_destination c ≫= destination_rect)
    (paint_rectangles (Some (mkRegion 1 [mkRect 16777217 0 1 1])) 33554432 1
       (mkBox (float_of_int 0) (float_of_int 0)
          (float_of_int 33554432) (float_of_int 1)))
  = [Some (mkRect 16777216 0 2 1)] /\
  in_rect 16777216 0 (mkRect 16777216 0 2 1) /\
  ~ in_region 16777216 0 [mkRect 16777217 0 1 1].
Proof.
  split; [unfold in_rect; simpl; lia |].
  split; [vm_compute; reflexivity |].
  split; [unfold in_rect; simpl; lia |].
  intros H. apply Exists_cons in H as [H | H]; [| inversion H].
  unfold in_rect in H. simpl in H. lia.
Qed.

(** C5 (amended).  For a clip region of at most [MAX_RECTS] rectangles,
    as cairo enumerates them, and a texture of at most [2^24] pixels each
    way: the corners passed to Cogl are, without rounding, those of
    rectangles that taken together cover exactly the pixels of the clip
    region that lie in the source rectangle
    [(0, 0, tex_width, tex_height)]; each of them is not empty and lies
    inside one rectangle of the clip region and inside the source
    rectangle. *)
Theorem clipped_paint_covers_clip_in_source (region : cairo_region_t)
    (tex_width tex_height : Z) (alloc : ClutterActorBox) :
  cairo_region_num_rectangles (region_rects region) <= MAX_RECTS ->
  0 <= tex_width <= 2 ^ 24 -> 0 <= tex_height <= 2 ^ 24 ->
  Forall corners_fit (region_rects region) ->
  let source := mkRect 0 0 tex_width tex_height in
  exists drawn : list cairo_rectangle_int_t,
    map (fun c => call_destination c ≫= destination_rect)
      (paint_rectangles (Some region) tex_width tex_height alloc) =
    map Some drawn /\
    (forall px py,
        in_region px py drawn <->
        in_region px py (region_rects region) /\ in_rect px py source) /\
    Forall (fun r =>
              rect_nonempty r /\
              exists c, In c (region_rects region) /\
                forall px py,
                  in_rect px py r -> in_rect px py c /\ in_rect px py source)
      drawn.
Proof.
  intros Hle Hw Hh Hfit source.
  assert (Esource : source_rectangle tex_width tex_height = source)
    by (apply source_rectangle_exact; lia).
  assert (Hsource : corners_fit source)
    by (unfold corners_fit, source; simpl; lia).
  exists (omap (clip_to_texture source) (region_rects region)).
  split; [| split].
  - rewrite paint_rectangles_within_budget by exact Hle.
    rewrite <- Esource. apply clipped_destinations_decode;
      rewrite guint_to_gint_exact; lia.
  - intros px py.
    apply clipped_rectangles_pixels;
      [exact Hsource | simpl; lia | simpl; lia | exact Hfit].
  - pose proof (clipped_rectangles_origin source (region_rects region))
      as Horigin.
    rewrite Forall_forall in Hfit.
    eapply Forall_impl; [exact Horigin |].
    intros r' [c [Hin E]].
    apply clip_to_texture_Some in E as [Hne Hpix];
      [| exact Hsource | apply Hfit, list_elem_of_In, Hin
       | simpl; lia | simpl; lia].
    split; [exact Hne |]. exists c. split; [exact Hin |].
    intros px py H. apply Hpix in H. tauto.
Qed.

Lemma two_rectangles_clipped_paint :
  let region := mkRegion 1 [mkRect (-10) 0 30 20; mkRect 200 200 5 5] in
  let alloc := mkBox (float_of_int 0) (float_of_int 0)
                 (float_of_int 100) (float_of_int 100) in
  let source := mkRect 0 0 100 100 in
  exists drawn : list cairo_rectangle_int_t,
    map (fun c => call_destination c ≫= destination_rect)
      (paint_rectangles (Some region) 100 100 alloc) =
    map Some drawn /\
    (forall px py,
        in_region px py drawn <->
        in_region px py (region_rects region) /\ in_rect px py source) /\
    Forall (fun r =>
              rect_nonempty r /\
              exists c, In c (region_rects region) /\
                forall px py,
                  in_rect px py r -> in_rect px py c /\ in_rect px py source)
      drawn.
Proof.
  apply (clipped_paint_covers_clip_in_source
           (mkRegion 1 [mkRect (-10) 0 30 20; mkRect 200 200 5 5]) 100 100).
  - vm_compute. discriminate.
  - lia.
  - lia.
  - repeat constructor; simpl; lia.
Defined.

(** C7 (as stated, refuted).  The texture is 100 by 100 and the actor is
    allocated 200 by 200.  The clip rectangle at (50, 50) is drawn with
    texture coordinates that start at 50 / 200, not at 50 / 100. *)
Lemma texture_coordinates_not_normalized_by_source :
  let region := mkRegion 1 [mkRect 50 50 10 10] in
  let alloc := mkBox (float_of_int 0) (float_of_int 0)
                 (float_of_int 200) (float_of_int 200) in
  exists c,
    paint_rectangles (Some region) 100 100 alloc = [c] /\
    call_destination c = Some (destination_of_rect (mkRect 50 50 10 10)) /\
    take 4 (call_tex_coords c) =
      normalized_coords (float_of_int 200) (float_of_int 200)
        (mkRect 50 50 10 10) /\
    take 4 (call_tex_coords c) <>
      normalized_coords (float_of_int 100) (float_of_int 100)
        (mkRect 50 50 10 10).
Proof.
  eexists. split; [reflexivity |]. split; [reflexivity |].
  split; [reflexivity |]. vm_compute. discriminate.
Qed.

(** C7 (amended).  In the loop over a clip region of at most [MAX_RECTS]
    rectangles, every surviving rectangle is drawn with its corners
    divided by the extent of the allocation box ([x] by
    [alloc.x2 - alloc.x1], [y] by [alloc.y2 - alloc.y1]) as texture
    coordinates, and the same four coordinates are given for both texture
    layers. *)
Theorem clipped_paint_texture_coordinates (region : cairo_region_t)
    (tex_width tex_height : Z) (alloc : ClutterActorBox) :
  cairo_region_num_rectangles (region_rects region) <= MAX_RECTS ->
  let source := source_rectangle tex_width tex_height in
  let alloc_width := float_sub (box_x2 alloc) (box_x1 alloc) in
  let alloc_height := float_sub (box_y2 alloc) (box_y1 alloc) in
  Forall2 (fun c r =>
             call_destination c = Some (destination_of_rect r) /\
             call_tex_coords c =
               normalized_coords alloc_width alloc_height r
                 ++ normalized_coords alloc_width alloc_height r)
    (paint_rectangles (Some region) tex_width tex_height alloc)
    (omap (clip_to_texture source) (region_rects region)).
Proof.
  intros Hle source alloc_width alloc_height.
  rewrite paint_rectangles_within_budget by exact Hle. fold source.
  induction (omap (clip_to_texture source) (region_rects region))
    as [| r rest IH]; simpl; constructor; auto.
Qed.

Lemma clipped_paint_texture_coordinates_example :
  Forall2 (fun c r =>
             call_destination c = Some (destination_of_rect r) /\
             call_tex_coords c =
               normalized_coords (float_of_int 200) (float_of_int 200) r
                 ++ normalized_coords (float_of_int 200) (float_of_int 200) r)
    (paint_rectangles (Some (mkRegion 1 [mkRect 50 50 10 10])) 100 100
       (mkBox (float_of_int 0) (float_of_int 0)
          (float_of_int 200) (float_of_int 200)))
    [mkRect 50 50 10 10].
Proof.
  apply (clipped_paint_texture_coordinates
           (mkRegion 1 [mkRect 50 50 10 10]) 100 100
           (mkBox (float_of_int 0) (float_of_int 0)
              (float_of_int 200) (float_of_int 200))).
  vm_compute. discriminate.
Defined.

(** ** Clearing the overlay *)

Lemma refcount_positive (m : Memory) (addr : positive) :
  (0 < refcount m addr)%nat ->
  exists n, region_refs m !! addr = Some (S n).
Proof.
  unfold refcount.
  destruct (region_refs m !! addr) as [[| n] |]; simpl; try lia.
  intros _. exists n. reflexivity.
Qed.

(** Dropping one reference: the count goes down by one and no other
    region is touched. *)
Lemma exec_region_destroy (m : Memory) (region : cairo_region_t) :
  (0 < refcount m (region_addr region))%nat ->
  exists m',
    exec_call m (cairo_region_destroy region) = Some m' /\
    refcount m' (region_addr region) = pred (refcount m (region_addr region)) /\
    (forall addr, addr <> region_addr region ->
                  refcount m' addr = refcount m addr) /\
    live_paths m' = live_paths m.
Proof.
  intros Hlive. destruct (refcount_positive _ _ Hlive) as [n Hn].
  unfold exec_call, refcount. rewrite Hn.
  destruct n as [| n]; eexists; (split; [reflexivity |]); simpl.
  - rewrite lookup_delete_eq. repeat split.
    intros addr Hne. rewrite lookup_delete_ne by congruence. reflexivity.
  - rewrite lookup_insert_eq. repeat split.
    intros addr Hne. rewrite lookup_insert_ne by congruence. reflexivity.
Qed.

Lemma set_overlay_path_state (priv : MetaShapedTexturePrivate)
    (region : option cairo_region_t) (path : option cairo_path_t) :
  let priv' := fst (meta_shaped_texture_set_overlay_path priv region path) in
  overlay_region priv' = region /\
  overlay_path priv' = path /\
  mask_texture priv' = None /\
  match pipeline priv' with
  | Some p => layer1 p = None
  | None => pipeline priv = None
  end.
Proof.
  simpl. repeat split.
  unfold dirty_mask_pipeline. simpl. destruct (pipeline priv); reflexivity.
Qed.

(** C8.  Clearing the overlay ([NULL] region, [NULL] path) in a state
    whose stored overlay region and path are live runs without undefined
    behaviour: the reference of the element on the stored region is
    dropped, the stored path is freed, both fields are left [NULL], the
    mask texture is dropped and layer 1 of the shaped pipeline is reset;
    the [NULL] region is passed to [cairo_region_reference] only, which
    touches no memory for it. *)
Theorem clear_overlay_path (priv : MetaShapedTexturePrivate) (m : Memory) :
  (forall region, overlay_region priv = Some region ->
                  (0 < refcount m (region_addr region))%nat) ->
  (forall path, overlay_path priv = Some path ->
                path_addr path ∈ live_paths m) ->
  let priv' := fst (meta_shaped_texture_set_overlay_path priv None None) in
  let calls := snd (meta_shaped_texture_set_overlay_path priv None None) in
  exists m',
    exec_calls m calls = Some m' /\
    calls = destroy_region_if_set (overlay_region priv)
              ++ destroy_path_if_set (overlay_path priv)
              ++ [cairo_region_reference None] /\
    overlay_region priv' = None /\
    overlay_path priv' = None /\
    mask_texture priv' = None /\
    match pipeline priv' with
    | Some p => layer1 p = None
    | None => pipeline priv = None
    end /\
    match overlay_region priv with
    | Some region =>
        refcount m' (region_addr region)
        = pred (refcount m (region_addr region)) /\
        forall addr, addr <> region_addr region ->
                     refcount m' addr = refcount m addr
    | None => region_refs m' = region_refs m
    end /\
    match overlay_path priv with
    | Some path => live_paths m' = live_paths m ∖ {[path_addr path]}
    | None => live_paths m' = live_paths m
    end.
Proof.
  intros Hregion Hpath priv' calls.
  pose proof (set_overlay_path_state priv None None) as (Hr & Hp & Hm & Hl).
  fold priv' in Hr, Hp, Hm, Hl.
  assert (Hrun : exists m',
    exec_calls m calls = Some m' /\
    match overlay_region priv with
    | Some region =>
        refcount m' (region_addr region)
        = pred (refcount m (region_addr region)) /\
        forall addr, addr <> region_addr region ->
                     refcount m' addr = refcount m addr
    | None => region_refs m' = region_refs m
    end /\
    match overlay_path priv with
    | Some path => live_paths m' = live_paths m ∖ {[path_addr path]}
    | None => live_paths m' = live_paths m
    end).
  { subst calls. unfold meta_shaped_texture_set_overlay_path. cbn [snd].
    unfold destroy_region_if_set, destroy_path_if_set.
    destruct (overlay_region priv) as [region |];
      destruct (overlay_path priv) as [path |]; cbn [app exec_calls].
    - destruct (exec_region_destroy m region (Hregion _ eq_refl))
        as (m1 & -> & Hcount & Hother & Hpaths).
      specialize (Hpath _ eq_refl). rewrite <- Hpaths in Hpath.
      cbn [exec_call].
      destruct (decide (path_addr path ∈ live_paths m1)); [| contradiction].
      eexists. split; [reflexivity |]. simpl. rewrite Hpaths. auto.
    - destruct (exec_region_destroy m region (Hregion _ eq_refl))
        as (m1 & -> & Hcount & Hother & Hpaths).
      eexists. split; [reflexivity |]. auto.
    - specialize (Hpath _ eq_refl). cbn [exec_call].
      destruct (decide (path_addr path ∈ live_paths m)); [| contradiction].
      eexists. split; [reflexivity |]. simpl. auto.
    - eexists. split; [reflexivity |]. auto. }
  destruct Hrun as (m' & Hexec & Hrefs & Hpaths).
  exists m'. repeat split; try assumption; reflexivity.
Qed.

Lemma clear_overlay_path_example :
  let region := mkRegion 5 [mkRect 0 0 10 10] in
  let path := mkPath 9 (fun _ _ => 255) in
  let priv :=
    mkPriv 0 None (Some (mkMask 4 4 4 (replicate 16 255)))
      (Some (mkPipeline None (Some (mkMask 4 4 4 (replicate 16 255))) 255))
      None None None None (Some region) (Some path)
      0 0 4 4 0 0 0%N 0 0 true in
  let m := mkMemory {[5%positive := 2%nat]} {[9%positive]} in
  exists m',
    exec_calls m (snd (meta_shaped_texture_set_overlay_path priv None None))
    = Some m' /\
    refcount m' 5 = 1%nat /\
    live_paths m' = live_paths m ∖ {[9%positive]} /\
    overlay_region
      (fst (meta_shaped_texture_set_overlay_path priv None None)) = None.
Proof.
  intros region path priv m.
  destruct (clear_overlay_path priv m) as (m' & Hexec & _ & Hr & _ & _ & _ & Hrefs & Hpaths).
  - intros r [= <-]. vm_compute. lia.
  - intros p [= <-]. simpl. set_solver.
  - exists m'. split; [exact Hexec |]. split; [apply Hrefs |].
    split; [exact Hpaths | exact Hr].
Defined.

(** ** The mask rasterizer *)

Lemma CLAMP_bounds (x low high : Z) :
  low <= high -> low <= CLAMP x low high <= high.
Proof. unfold CLAMP. intros H. repeat case_match; lia. Qed.

Lemma land_minus_4 (x : Z) : Z.land x (-4) = 4 * (x / 4).
Proof.
  change (-4) with (Z.lnot (Z.ones 2)).
  rewrite <- Z.ldiff_land, Z.ldiff_ones_r by lia.
  rewrite Z.shiftr_div_pow2, Z.shiftl_mul_pow2 by lia.
  change (2 ^ 2) with 4. lia.
Qed.

(** The stride of an A8 row holds the row and at most three bytes of
    padding. *)
Lemma stride_bounds (width : Z) :
  0 <= width < (2 ^ 31 - 1 - 7) / 8 ->
  width <= cairo_format_stride_for_width_A8 width <= width + 3.
Proof.
  unfold cairo_format_stride_for_width_A8.
  change ((2 ^ 31 - 1 - 7) / 8) with 268435455. intros Hw.
  destruct (Z.ltb_spec width 0); [lia |].
  destruct (Z.leb_spec 268435455 width); [lia |].
  simpl orb. cbv iota. rewrite land_minus_4.
  Z.div_mod_to_equations. lia.
Qed.

Lemma memset_Some (buf : list Z) (p c n : Z) :
  0 <= p -> 0 <= n -> p + n <= Z.of_nat (length buf) ->
  exists buf',
    memset buf p c n = Some buf' /\
    length buf' = length buf /\
    forall i, 0 <= i ->
      nth (Z.to_nat i) buf' 0 =
      if (p <=? i) && (i <? p + n) then c else nth (Z.to_nat i) buf 0.
Proof.
  intros Hp Hn Hlen. unfold memset.
  destruct (Z.leb_spec 0 p); [| lia].
  destruct (Z.leb_spec 0 n); [| lia].
  destruct (Z.leb_spec (p + n) (Z.of_nat (length buf))); [| lia].
  eexists. split; [reflexivity |]. split.
  - rewrite !length_app, length_take, length_replicate, length_drop. lia.
  - intros i Hi. rewrite !nth_lookup.
    destruct (Z.leb_spec p i); simpl.
    + rewrite lookup_app_r by (rewrite length_take; lia).
      rewrite length_take.
      destruct (Z.ltb_spec i (p + n)).
      * rewrite lookup_app_l by (rewrite length_replicate; lia).
        rewrite lookup_replicate_2 by lia. reflexivity.
      * rewrite lookup_app_r by (rewrite length_replicate; lia).
        rewrite length_replicate, lookup_drop. do 2 f_equal. lia.
    + rewrite lookup_app_l by (rewrite length_take; lia).
      rewrite lookup_take_lt by lia. reflexivity.
Qed.

(** Byte [y * stride + x] lies in the part of row [y1] that starts at
    column [x1] exactly when [y] is [y1] and [x] is one of the columns. *)
Lemma row_hit (stride x1 len x y y1 : Z) :
  0 <= x1 -> 0 <= len -> x1 + len <= stride -> 0 <= x < stride ->
  (y1 * stride + x1 <=? y * stride + x)
  && (y * stride + x <? y1 * stride + x1 + len)
  = (y =? y1) && (x1 <=? x) && (x <? x1 + len).
Proof.
  intros Hx1 Hlen Hfit Hx.
  destruct (Z.eqb_spec y y1) as [-> | Hne]; simpl.
  - destruct (Z.leb_spec x1 x), (Z.ltb_spec x (x1 + len)); simpl;
      repeat match goal with
             | |- context [?a <=? ?b] => destruct (Z.leb_spec a b)
             | |- context [?a <? ?b] => destruct (Z.ltb_spec a b)
             end; simpl; try reflexivity; lia.
  - destruct (Z.lt_total y y1) as [Hlt | [Heq | Hgt]]; [| contradiction |].
    + assert (y * stride + x < y1 * stride + x1) by nia.
      destruct (Z.leb_spec (y1 * stride + x1) (y * stride + x)); [lia |].
      reflexivity.
    + assert (y1 * stride + x1 + len <= y * stride + x) by nia.
      destruct (Z.ltb_spec (y * stride + x) (y1 * stride + x1 + len));
        [lia |].
      apply andb_false_r.
Qed.

Lemma fill_rows_spec (stride x1 len : Z) :
  0 <= x1 -> 0 <= len -> x1 + len <= stride ->
  forall (rows : nat) (data : list Z) (y1 : Z),
    0 <= y1 ->
    (y1 + Z.of_nat rows) * stride <= Z.of_nat (length data) ->
    exists data',
      fill_rows rows data (y1 * stride + x1) stride len = Some data' /\
      length data' = length data /\
      forall x y, 0 <= x < stride -> 0 <= y ->
        nth (Z.to_nat (y * stride + x)) data' 0 =
        if (y1 <=? y) && (y <? y1 + Z.of_nat rows)
           && (x1 <=? x) && (x <? x1 + len)
        then 255
        else nth (Z.to_nat (y * stride + x)) data 0.
Proof.
  intros Hx1 Hlen Hfit.
  induction rows as [| rows IH]; intros data y1 Hy1 Hsize.
  - exists data. split; [reflexivity |]. split; [reflexivity |].
    intros x y Hx Hy.
    destruct (Z.leb_spec y1 y), (Z.ltb_spec y (y1 + Z.of_nat 0));
      simpl; try reflexivity; lia.
  - cbn [fill_rows].
    destruct (memset_Some data (y1 * stride + x1) 255 len)
      as (data1 & -> & Hlen1 & Hnth1); [nia | lia | nia |].
    destruct (IH data1 (y1 + 1)) as (data2 & Hfill & Hlen2 & Hnth2);
      [lia | rewrite Hlen1; nia |].
    replace (y1 * stride + x1 + stride) with ((y1 + 1) * stride + x1) by lia.
    exists data2. split; [exact Hfill |]. split; [congruence |].
    intros x y Hx Hy.
    rewrite Hnth2 by assumption. rewrite Hnth1 by nia.
    rewrite row_hit by assumption.
    destruct (Z.eqb_spec y y1) as [-> | Hne].
    + destruct (Z.leb_spec (y1 + 1) y1); [lia |].
      destruct (Z.leb_spec y1 y1); [| lia].
      destruct (Z.ltb_spec y1 (y1 + Z.of_nat (S rows))); [| lia].
      reflexivity.
    + simpl.
      destruct (Z.leb_spec (y1 + 1) y), (Z.leb_spec y1 y),
        (Z.ltb_spec y (y1 + 1 + Z.of_nat rows)),
        (Z.ltb_spec y (y1 + Z.of_nat (S rows)));
        simpl; try reflexivity; lia.
Qed.

Lemma fill_rectangle_spec (tex_width tex_height stride : Z)
    (data : list Z) (rect : cairo_rectangle_int_t) :
  0 < tex_width -> 0 < tex_height -> tex_width <= stride ->
  stride * tex_height < 2 ^ 31 ->
  Z.of_nat (length data) = stride * tex_height ->
  exists data',
    fill_rectangle tex_width tex_height stride data rect = Some data' /\
    length data' = length data /\
    forall x y, 0 <= x < stride -> 0 <= y ->
      nth (Z.to_nat (y * stride + x)) data' 0 =
      if filledb tex_width tex_height x y rect then 255
      else nth (Z.to_nat (y * stride + x)) data 0.
Proof.
  intros Hw Hh Hstride Hint Hsize. unfold fill_rectangle, filledb.
  pose proof (CLAMP_bounds (rx rect) 0 (tex_width - 1)) as Hx1.
  pose proof (CLAMP_bounds (ry rect) 0 (tex_height - 1)) as Hy1.
  fold (clamp_x1 tex_width rect) in Hx1.
  fold (clamp_y1 tex_height rect) in Hy1.
  pose proof (CLAMP_bounds (rx rect + rwidth rect)
                (clamp_x1 tex_width rect) tex_width) as Hx2.
  pose proof (CLAMP_bounds (ry rect + rheight rect)
                (clamp_y1 tex_height rect) tex_height) as Hy2.
  fold (clamp_x2 tex_width rect) in Hx2.
  fold (clamp_y2 tex_height rect) in Hy2.
  set (x1 := clamp_x1 tex_width rect) in *.
  set (x2 := clamp_x2 tex_width rect) in *.
  set (y1 := clamp_y1 tex_height rect) in *.
  set (y2 := clamp_y2 tex_height rect) in *.
  assert (Hfits : fits_gint (tex_width - 1) && fits_gint (tex_height - 1)
                  && fits_gint (y1 * stride) = true).
  { rewrite !andb_true_iff, !fits_gint_spec. nia. }
  rewrite Hfits.
  destruct (fill_rows_spec stride x1 (x2 - x1)) with
    (rows := Z.to_nat (y2 - y1)) (data := data) (y1 := y1)
    as (data' & Hfill & Hlen & Hnth); try lia; [nia |].
  exists data'. split; [exact Hfill |]. split; [exact Hlen |].
  intros x y Hx Hy. rewrite Hnth by assumption.
  replace (y1 + Z.of_nat (Z.to_nat (y2 - y1))) with y2 by lia.
  replace (x1 + (x2 - x1)) with x2 by lia. reflexivity.
Qed.

Lemma fill_rectangles_spec (tex_width tex_height stride : Z) :
  0 < tex_width -> 0 < tex_height -> tex_width <= stride ->
  stride * tex_height < 2 ^ 31 ->
  forall (rects : list cairo_rectangle_int_t) (data : list Z),
    Z.of_nat (length data) = stride * tex_height ->
    exists data',
      fill_rectangles tex_width tex_height stride data rects = Some data' /\
      length data' = length data /\
      forall x y, 0 <= x < stride -> 0 <= y ->
        nth (Z.to_nat (y * stride + x)) data' 0 =
        if existsb (filledb tex_width tex_height x y) rects then 255
        else nth (Z.to_nat (y * stride + x)) data 0.
Proof.
  intros Hw Hh Hstride Hint.
  induction rects as [| rect rest IH]; intros data Hsize.
  - exists data. auto.
  - cbn [fill_rectangles].
    destruct (fill_rectangle_spec tex_width tex_height stride data rect)
      as (data1 & -> & Hlen1 & Hnth1); try assumption.
    destruct (IH data1) as (data2 & Hfill & Hlen2 & Hnth2); [congruence |].
    exists data2. split; [exact Hfill |]. split; [congruence |].
    intros x y Hx Hy. rewrite Hnth2, Hnth1 by assumption.
    cbn [existsb].
    destruct (filledb tex_width tex_height x y rect),
      (existsb (filledb tex_width tex_height x y) rest); reflexivity.
Qed.

Lemma g_malloc0_nth (n : Z) (i : nat) : nth i (g_malloc0 n) 0 = 0.
Proof.
  unfold g_malloc0. rewrite nth_lookup.
  destruct (replicate (Z.to_nat n) 0 !! i) as [v |] eqn:E; [| reflexivity].
  apply lookup_replicate in E as [-> _]. reflexivity.
Qed.

(** The sizes that fit are stored in [int] as they are, and the size of
    the buffer is their product. *)
Lemma mask_size_fits_exact (tex_width tex_height : Z) :
  mask_size_fits tex_width tex_height ->
  guint_to_gint tex_width = tex_width /\
  guint_to_gint tex_height = tex_height /\
  tex_width <= cairo_format_stride_for_width_A8 tex_width /\
  (cairo_format_stride_for_width_A8 tex_width * tex_height) mod 2 ^ 32
  = cairo_format_stride_for_width_A8 tex_width * tex_height.
Proof.
  intros (Hw & Hh & Hint).
  pose proof (stride_bounds tex_width ltac:(lia)) as Hstride.
  change ((2 ^ 31 - 1 - 7) / 8) with 268435455 in Hw.
  split; [apply guint_to_gint_exact; lia |].
  split; [apply guint_to_gint_exact; nia |].
  split; [lia |].
  apply Z.mod_small. nia.
Qed.

(** What the rasterizer builds, for every shape region: the mask has the
    size of the texture, no write leaves the buffer, and a pixel is 255
    exactly when the clamped box of some rectangle holds it. *)
Lemma ensure_mask_pixels (priv : MetaShapedTexturePrivate)
    (tex : CoglTexture) (shape : cairo_region_t) :
  texture priv = Some tex ->
  mask_texture priv = None ->
  shape_region priv = Some shape ->
  overlay_region priv = None ->
  mask_size_fits (texture_width tex) (texture_height tex) ->
  exists m,
    meta_shaped_texture_ensure_mask priv =
      Some (with_mask (Some m) (texture_width tex) (texture_height tex) priv) /\
    mask_tex_width m = texture_width tex /\
    mask_tex_height m = texture_height tex /\
    forall x y, 0 <= x < texture_width tex -> 0 <= y < texture_height tex ->
      mask_pixel m x y =
      if existsb (filledb (texture_width tex) (texture_height tex) x y)
           (region_rects shape)
      then 255 else 0.
Proof.
  intros Htex Hmask Hshape Hoverlay Hfits.
  destruct (mask_size_fits_exact _ _ Hfits) as (Ew & Eh & Hstride & Esize).
  destruct Hfits as (Hw & Hh & Hint).
  unfold meta_shaped_texture_ensure_mask.
  rewrite Htex, Hmask. cbv zeta. rewrite Hmask, Hshape.
  rewrite Ew, Eh, Esize.
  set (stride := cairo_format_stride_for_width_A8 (texture_width tex)) in *.
  destruct (fill_rectangles_spec (texture_width tex) (texture_height tex)
              stride) with
    (rects := region_rects shape)
    (data := g_malloc0 (stride * texture_height tex))
    as (filled & -> & Hlen & Hnth); try lia.
  { unfold g_malloc0. rewrite length_replicate. nia. }
  unfold install_overlay_path. rewrite Hoverlay.
  eexists. split; [reflexivity |]. split; [reflexivity |].
  split; [reflexivity |].
  intros x y Hx Hy. unfold mask_pixel. cbn [mask_rowstride mask_bytes].
  rewrite Hnth by lia. rewrite g_malloc0_nth. reflexivity.
Qed.

(** For a rectangle that starts inside the texture the clamped box is the
    part of the rectangle inside the texture. *)
Lemma filledb_inside (tex_width tex_height x y : Z)
    (rect : cairo_rectangle_int_t) :
  rx rect < tex_width -> ry rect < tex_height ->
  0 <= x < tex_width -> 0 <= y < tex_height ->
  filledb tex_width tex_height x y rect = true <-> in_rect x y rect.
Proof.
  intros Hrx Hry Hx Hy.
  unfold filledb, clamp_x2, clamp_y2, clamp_x1, clamp_y1, CLAMP, in_rect.
  rewrite !andb_true_iff, !Z.leb_le, !Z.ltb_lt.
  repeat match goal with
         | |- context [?a <? ?b] => destruct (Z.ltb_spec a b)
         end; lia.
Qed.


(** C1 (the code departs from it).  The texture is 4 by 4 and the shape
    region is the one rectangle (10, 10, 5, 5), which lies outside the
    texture: no pixel of the texture is covered, yet the mask built has
    255 at pixel (3, 3). *)
Theorem mask_of_rectangle_outside_texture :
  let shape := mkRegion 1 [mkRect 10 10 5 5] in
  exists priv' m,
    meta_shaped_texture_ensure_mask (shaped_state 4 4 shape) = Some priv' /\
    mask_texture priv' = Some m /\
    mask_tex_width m = 4 /\ mask_tex_height m = 4 /\
    (forall x y, ~ covered 4 4 (region_rects shape) x y) /\
    mask_pixel m 3 3 = 255.
Proof.
  eexists _, _. split; [vm_compute; reflexivity |].
  split; [reflexivity |]. split; [reflexivity |]. split; [reflexivity |].
  split; [| reflexivity].
  intros x y [Hin Hbounds]. unfold in_region in Hin.
  apply Exists_cons in Hin as [Hin | Hin]; [| inversion Hin].
  unfold in_rect in *. simpl in *. lia.
Qed.

(** ** The blocks inside their functions *)

(** With a texture bound, [meta_shaped_texture_update_area] updates the
    texture and the tower, records the update and takes the damage
    decision; without one it does nothing and returns [FALSE]. *)
Lemma update_area_blocks (priv : MetaShapedTexturePrivate)
    (x y width height : Z) (unobscured_region : option cairo_region_t)
    (now : Z) :
  meta_shaped_texture_update_area priv x y width height unobscured_region now =
  match texture priv with
  | None => (priv, [], false)
  | Some _ =>
      (record_update priv now,
       [cogl_texture_pixmap_x11_update_area x y width height;
        meta_texture_tower_update_area x y width height]
         ++ fst (queue_damage_redraw (mkRect x y width height)
                   unobscured_region),
       snd (queue_damage_redraw (mkRect x y width height) unobscured_region))
  end.
Proof.
  unfold meta_shaped_texture_update_area.
  destruct (texture priv); [| reflexivity].
  destruct (queue_damage_redraw _ _). reflexivity.
Qed.

(** The mask is built for the paint without touching the clip region or
    the cached size. *)
Lemma ensure_mask_geometry (priv priv' : MetaShapedTexturePrivate) :
  meta_shaped_texture_ensure_mask priv = Some priv' ->
  clip_region priv' = clip_region priv /\
  tex_width priv' = tex_width priv /\
  tex_height priv' = tex_height priv.
Proof.
  unfold meta_shaped_texture_ensure_mask. intros H.
  repeat match type of H with
         | context [match ?x with _ => _ end] => destruct x eqn:?
         end;
    inversion H; subst; auto.
Qed.

(** Once the source is set, a paint that gets that far draws what the
    batching step gives for the clip region, the cached texture size and
    the allocation. *)
Lemma paint_texture_draws (env : PaintEnv) (priv priv' : MetaShapedTexturePrivate)
    (paint_tex : CoglTexture) (calls : list call) :
  paint_texture env priv paint_tex = Some (priv', calls) ->
  tex_width priv <> 0 -> tex_height priv <> 0 ->
  exists p,
    layer0 p = Some paint_tex /\
    calls = cogl_set_source p
              :: paint_rectangles (clip_region priv) (tex_width priv)
                   (tex_height priv) (env_alloc env).
Proof.
  unfold paint_texture. intros H Hw Hh.
  destruct (Z.eqb_spec (tex_width priv) 0); [contradiction |].
  destruct (Z.eqb_spec (tex_height priv) 0); [contradiction |].
  cbn [orb] in H.
  destruct (shape_region priv).
  - destruct (meta_shaped_texture_ensure_mask priv) as [priv1 |] eqn:E;
      [| discriminate].
    apply ensure_mask_geometry in E as (Ec & Ew & Eh).
    rewrite Ec, Ew, Eh in H.
    inversion H; subst. eexists. split; [| reflexivity]. reflexivity.
  - inversion H; subst. eexists. split; [| reflexivity]. reflexivity.
Qed.

(** The rectangles drawn lie in the texture, so for a texture of at most
    [2^24] pixels each way, as [tex_rect] stores its sizes, their corners
    are passed to Cogl exactly. *)
Lemma clipped_paint_destinations_exact (region : cairo_region_t)
    (tex_width tex_height : Z) (alloc : ClutterActorBox) :
  cairo_region_num_rectangles (region_rects region) <= MAX_RECTS ->
  guint_to_gint tex_width <= 2 ^ 24 -> guint_to_gint tex_height <= 2 ^ 24 ->
  map (fun c => call_destination c ≫= destination_rect)
    (paint_rectangles (Some region) tex_width tex_height alloc) =
  map Some
    (omap (clip_to_texture (source_rectangle tex_width tex_height))
       (region_rects region)).
Proof.
  intros Hle Hw Hh.
  rewrite paint_rectangles_within_budget by exact Hle.
  apply clipped_destinations_decode; assumption.
Qed.

(** ** No undefined behaviour on the way to the mask *)

(** With a shape region set and a texture whose mask stays within 32
    bits, the mask is ensured without a write outside its data and
    without an [int] that overflows. *)
Lemma ensure_mask_defined (priv : MetaShapedTexturePrivate)
    (shape : cairo_region_t) :
  shape_region priv = Some shape ->
  (forall tex, texture priv = Some tex ->
               mask_size_fits (texture_width tex) (texture_height tex)) ->
  exists priv', meta_shaped_texture_ensure_mask priv = Some priv'.
Proof.
  intros Hshape Hsize. unfold meta_shaped_texture_ensure_mask.
  destruct (texture priv) as [tex |]; [| eauto].
  pose proof (Hsize tex eq_refl) as Hfits.
  destruct (mask_size_fits_exact _ _ Hfits) as (Ew & Eh & Hstride & Esize).
  destruct Hfits as (Hw & Hh & Hint). cbv zeta.
  match goal with
  | |- context [match mask_texture ?p with _ => _ end] =>
      set (priv1 := p);
      assert (Hshape1 : shape_region priv1 = Some shape)
        by (subst priv1; destruct (mask_texture priv); [| exact Hshape];
            destruct (negb _ || negb _); exact Hshape)
  end.
  clearbody priv1.
  destruct (mask_texture priv1); [eauto |]. rewrite Hshape1.
  rewrite Ew, Eh, Esize.
  set (stride := cairo_format_stride_for_width_A8 (texture_width tex)) in *.
  destruct (fill_rectangles_spec (texture_width tex) (texture_height tex)
              stride) with
    (rects := region_rects shape)
    (data := g_malloc0 (stride * texture_height tex))
    as (filled & -> & _); try lia.
  { unfold g_malloc0. rewrite length_replicate. nia. }
  eauto.
Qed.

(** A paint has defined behaviour whenever the bound texture has such a
    size. *)
Theorem paint_defined (env : PaintEnv) (priv : MetaShapedTexturePrivate) :
  (forall tex, texture priv = Some tex ->
               mask_size_fits (texture_width tex) (texture_height tex)) ->
  exists result, meta_shaped_texture_paint env priv = Some result.
Proof.
  intros Hsize. unfold meta_shaped_texture_paint.
  match goal with
  | |- context [if ?b then _ else _] => destruct b; [eauto |]
  end.
  assert (Hsel : texture (snd (fst (select_paint_texture env priv)))
                 = texture priv).
  { unfold select_paint_texture.
    destruct (mipmap_paint_texture _ _ _); [reflexivity |].
    destruct (texture priv) eqn:E; [| exact E].
    unfold arm_remipmap.
    destruct (create_mipmaps priv); [| exact E].
    destruct (remipmap_timeout_id priv =? 0); exact E. }
  destruct (select_paint_texture env priv) as [[[paint_tex |] priv1] calls];
    [| eauto].
  cbn [fst snd] in Hsel. unfold paint_texture.
  destruct ((tex_width priv1 =? 0) || (tex_height priv1 =? 0)); [eauto |].
  destruct (shape_region priv1) as [shape |] eqn:Hshape; [| eauto].
  destruct (ensure_mask_defined priv1 shape Hshape) as [priv2 ->]; [| eauto].
  rewrite Hsel. exact Hsize.
Qed.

(** When the actor is allocated the size of the texture, the extent of
    the allocation box is the extent of the source rectangle, and the
    texture coordinates are the corners divided by the texture size. *)
Lemma texture_coordinates_at_natural_size (region : cairo_region_t)
    (tex_width tex_height : Z) (alloc : ClutterActorBox) :
  cairo_region_num_rectangles (region_rects region) <= MAX_RECTS ->
  float_sub (box_x2 alloc) (box_x1 alloc) = float_of_int tex_width ->
  float_sub (box_y2 alloc) (box_y1 alloc) = float_of_int tex_height ->
  Forall2 (fun c r =>
             call_tex_coords c =
               normalized_coords (float_of_int tex_width)
                 (float_of_int tex_height) r
                 ++ normalized_coords (float_of_int tex_width)
                      (float_of_int tex_height) r)
    (paint_rectangles (Some region) tex_width tex_height alloc)
    (omap (clip_to_texture (source_rectangle tex_width tex_height))
       (region_rects region)).
Proof.
  intros Hle Hw Hh.
  rewrite paint_rectangles_within_budget by exact Hle.
  induction (omap _ (region_rects region)) as [| r rest IH];
    cbn [map]; constructor; [| exact IH].
  unfold multitexture_rectangle, normalized_coords. cbn [call_tex_coords app].
  rewrite Hw, Hh. reflexivity.
Qed.

(** * Further properties of the file *)

(** ** The shape of what [meta_shaped_texture_ensure_mask] returns *)

Ltac break_match_hyp H :=
  repeat match type of H with
         | context [match ?x with _ => _ end] => destruct x eqn:?
         end.

Lemma ensure_mask_cases (priv priv' : MetaShapedTexturePrivate) :
  meta_shaped_texture_ensure_mask priv = Some priv' ->
  priv' = priv \/
  priv' = meta_shaped_texture_dirty_mask priv \/
  exists tex m base,
    texture priv = Some tex /\
    (base = priv \/ base = meta_shaped_texture_dirty_mask priv) /\
    mask_texture base = None /\
    mask_tex_width m = texture_width tex /\
    mask_tex_height m = texture_height tex /\
    priv' = with_mask (Some m) (texture_width tex) (texture_height tex) base.
Proof.
  unfold meta_shaped_texture_ensure_mask. intros H.
  destruct (texture priv) as [tex |] eqn:Etex; [| inversion H; auto].
  cbv zeta in H.
  match type of H with
  | context [match mask_texture ?p with _ => _ end] =>
      set (base := p) in *;
      assert (Hbase : base = priv \/ base = meta_shaped_texture_dirty_mask priv)
        by (subst base; destruct (mask_texture priv); [| auto];
            destruct (negb _ || negb _); auto)
  end.
  clearbody base.
  destruct (mask_texture base) eqn:Emask.
  - inversion H; subst. destruct Hbase as [-> | ->]; auto.
  - break_match_hyp H; inversion H; subst;
      try (destruct Hbase as [-> | ->]; auto; fail).
    right. right. eexists tex, (mkMask _ _ _ _), base.
    split; [reflexivity |]. split; [exact Hbase |]. split; [exact Emask |].
    split; [reflexivity |]. split; reflexivity.
Qed.


(** ** What a live element keeps true *)

Ltac unfold_invariant :=
  unfold live_invariant, size_cached, mask_recorded, pipeline_mask_current in *.

Lemma dirty_mask_invariant (priv : MetaShapedTexturePrivate) :
  live_invariant priv -> live_invariant (meta_shaped_texture_dirty_mask priv).
Proof.
  unfold_invariant. destruct priv as [? ? ? [p |] ? ? ? ? ? ? ? ? ? ? ? ? ? ? ? ?];
    simpl; intuition auto.
Qed.

Lemma ensure_mask_invariant (priv priv' : MetaShapedTexturePrivate) :
  live_invariant priv ->
  meta_shaped_texture_ensure_mask priv = Some priv' ->
  live_invariant priv'.
Proof.
  intros Hinv H.
  destruct (ensure_mask_cases _ _ H)
    as [-> | [-> | (tex & m & base & Etex & Hbase & Emask & Hw & Hh & ->)]].
  - exact Hinv.
  - apply dirty_mask_invariant, Hinv.
  - assert (Hb : live_invariant base /\ texture base = texture priv).
    { destruct Hbase as [-> | ->]; [auto |].
      split; [apply dirty_mask_invariant, Hinv | reflexivity]. }
    destruct Hb as [Hb Et]. clear Hinv Hbase H.
    unfold_invariant.
    destruct base as [? ? ? [p |] ? ? ? ? ? ? ? ? ? ? ? ? ? ? ? ?];
      simpl in *; subst; intuition (auto; congruence).
Qed.

Lemma with_remipmap_invariant (id earliest : Z)
    (priv : MetaShapedTexturePrivate) :
  live_invariant priv -> live_invariant (with_remipmap id earliest priv).
Proof. unfold_invariant. destruct priv; simpl; auto. Qed.

Lemma select_paint_texture_invariant (env : PaintEnv)
    (priv : MetaShapedTexturePrivate) :
  live_invariant priv ->
  live_invariant (snd (fst (select_paint_texture env priv))).
Proof.
  intros Hinv. unfold select_paint_texture.
  destruct (mipmap_paint_texture _ _ _); [exact Hinv |].
  destruct (texture priv); [| exact Hinv].
  unfold arm_remipmap. destruct (create_mipmaps priv); [| exact Hinv].
  destruct (remipmap_timeout_id priv =? 0);
    apply with_remipmap_invariant, Hinv.
Qed.

Lemma paint_texture_invariant (env : PaintEnv)
    (priv priv' : MetaShapedTexturePrivate) (paint_tex : CoglTexture)
    (calls : list call) :
  live_invariant priv ->
  paint_texture env priv paint_tex = Some (priv', calls) ->
  live_invariant priv'.
Proof.
  intros Hinv. unfold paint_texture.
  destruct ((tex_width priv =? 0) || (tex_height priv =? 0));
    [intros [= <- _]; exact Hinv |].
  destruct (shape_region priv).
  - destruct (meta_shaped_texture_ensure_mask priv) as [priv1 |] eqn:E;
      [| discriminate].
    intros [= <- _]. apply ensure_mask_invariant in E; [| exact Hinv].
    clear Hinv. unfold_invariant. destruct priv1; simpl in *. intuition auto.
  - intros [= <- _]. unfold_invariant. destruct priv; simpl in *. exact Hinv.
Qed.

Lemma paint_invariant (env : PaintEnv) (priv priv' : MetaShapedTexturePrivate)
    (calls : list call) :
  live_invariant priv ->
  meta_shaped_texture_paint env priv = Some (priv', calls) ->
  live_invariant priv'.
Proof.
  intros Hinv. unfold meta_shaped_texture_paint.
  match goal with
  | |- (if ?b then _ else _) = _ -> _ => destruct b
  end; [intros [= <- _]; exact Hinv |].
  pose proof (select_paint_texture_invariant env priv Hinv) as Hsel.
  destruct (select_paint_texture env priv) as [[[paint_tex |] priv1] calls1];
    simpl in Hsel.
  - destruct (paint_texture env priv1 paint_tex) as [[priv2 draws] |] eqn:E;
      [| discriminate].
    intros [= <- _]. eapply paint_texture_invariant; eassumption.
  - intros [= <- _]. exact Hsel.
Qed.

Lemma set_cogl_texture_invariant (priv : MetaShapedTexturePrivate)
    (cogl_tex : option CoglTexture) :
  live_invariant priv -> live_invariant (fst (set_cogl_texture priv cogl_tex)).
Proof.
  unfold set_cogl_texture. intros Hinv.
  destruct cogl_tex as [tex |]; cbv zeta.
  - match goal with
    | |- context [if ?b then _ else _] => destruct b eqn:Esize
    end; unfold_invariant;
      destruct priv as [? ? ? [p |] [pu |] ? ? ? ? ? ? ? ? ? ? ? ? ? ? ?];
      simpl in *; try (intuition auto; fail);
      rewrite orb_false_iff, !negb_false_iff, !Z.eqb_eq in Esize;
      intuition auto.
  - unfold_invariant.
    destruct priv as [? ? ? [p |] [pu |] ? ? ? ? ? ? ? ? ? ? ? ? ? ? ?];
      simpl in *; intuition auto.
Qed.

Lemma set_pixmap_invariant (priv : MetaShapedTexturePrivate)
    (pixmap' : Z) (new_texture : option CoglTexture) :
  live_invariant priv ->
  live_invariant (fst (meta_shaped_texture_set_pixmap priv pixmap' new_texture)).
Proof.
  intros Hinv. unfold meta_shaped_texture_set_pixmap.
  destruct (pixmap priv =? pixmap'); [exact Hinv |].
  assert (Hpix : live_invariant (with_pixmap pixmap' priv))
    by (unfold_invariant; destruct priv; simpl in *; exact Hinv).
  destruct (negb (pixmap' =? 0)).
  - pose proof (set_cogl_texture_invariant _ new_texture Hpix) as H.
    destruct (set_cogl_texture (with_pixmap pixmap' priv) new_texture)
      as [priv2 calls].
    destruct (create_mipmaps priv2); exact H.
  - pose proof (set_cogl_texture_invariant _ None Hpix) as H.
    destruct (set_cogl_texture (with_pixmap pixmap' priv) None)
      as [priv2 calls].
    destruct (create_mipmaps priv2); exact H.
Qed.

Lemma apply_operation_invariant (priv : MetaShapedTexturePrivate)
    (op : operation) :
  live_invariant priv -> live_invariant (apply_operation priv op).
Proof.
  intros Hinv. destruct op; cbn [apply_operation].
  - rewrite update_area_blocks. destruct (texture priv) eqn:E; [| exact Hinv].
    cbn [fst]. unfold record_update.
    unfold_invariant. destruct priv; simpl in *. exact Hinv.
  - destruct (meta_shaped_texture_paint env priv) as [[priv' calls] |] eqn:E;
      [| exact Hinv].
    eapply paint_invariant; eassumption.
  - cbn [meta_shaped_texture_set_shape_region fst].
    apply dirty_mask_invariant.
    unfold_invariant. destruct priv; simpl in *. exact Hinv.
  - cbn [meta_shaped_texture_set_overlay_path fst].
    apply dirty_mask_invariant.
    unfold_invariant. destruct priv; simpl in *. exact Hinv.
  - unfold meta_shaped_texture_set_clip_region.
    destruct region; cbn [fst]; unfold_invariant; destruct priv; simpl in *;
      exact Hinv.
  - unfold meta_shaped_texture_set_create_mipmaps.
    destruct (negb _); cbn [fst]; [| exact Hinv].
    unfold_invariant. destruct priv; simpl in *. exact Hinv.
  - apply set_pixmap_invariant, Hinv.
Qed.

Lemma apply_event_invariant (priv : MetaShapedTexturePrivate) (ev : event) :
  live_invariant priv -> live_invariant (apply_event priv ev).
Proof.
  intros Hinv. destruct ev; cbn [apply_event].
  - apply apply_operation_invariant, Hinv.
  - unfold texture_is_idle_and_not_mipmapped.
    destruct (sub64 now (earliest_remipmap priv) <? 0); cbn [fst];
      [exact Hinv | apply with_remipmap_invariant, Hinv].
  - unfold meta_shaped_texture_pick.
    destruct (shape_region priv); [| exact Hinv].
    destruct should_pick_paint; [| exact Hinv].
    destruct (texture priv) as [tex |]; [| exact Hinv].
    cbv zeta.
    destruct ((texture_width tex =? 0) || (texture_height tex =? 0));
      [exact Hinv |].
    destruct (meta_shaped_texture_ensure_mask priv) as [priv1 |] eqn:E;
      [| exact Hinv].
    eapply ensure_mask_invariant; eassumption.
Qed.

Lemma init_invariant : live_invariant meta_shaped_texture_init.
Proof. unfold_invariant; simpl; auto. Qed.

Lemma run_events_invariant (evs : list event) :
  forall priv : MetaShapedTexturePrivate,
    live_invariant priv -> live_invariant (run_events priv evs).
Proof.
  unfold run_events.
  induction evs as [| ev evs IH]; intros priv Hinv; simpl; [exact Hinv |].
  apply IH, apply_event_invariant, Hinv.
Qed.

(** From the initial structure, whatever the caller, the time-out and the
    picks do: the cached size is the size of the bound texture (zero
    without one), a mask texture has the size recorded for it, and layer
    1 of the shaped pipeline is unset or is the current mask texture. *)
Theorem live_invariant_always (evs : list event) :
  live_invariant (run_events meta_shaped_texture_init evs).
Proof. apply run_events_invariant, init_invariant. Qed.

(** ** The mask is cached *)

(** Ensuring the mask a second time changes nothing: the mask is rebuilt
    only after it was dropped or the texture changed its size. *)
Theorem ensure_mask_idempotent (priv priv' : MetaShapedTexturePrivate) :
  meta_shaped_texture_ensure_mask priv = Some priv' ->
  meta_shaped_texture_ensure_mask priv' = Some priv'.
Proof.
  unfold meta_shaped_texture_ensure_mask at 1. intros H.
  destruct (texture priv) as [tex |] eqn:Etex.
  2:{ inversion H; subst. unfold meta_shaped_texture_ensure_mask.
      rewrite Etex. reflexivity. }
  cbv zeta in H.
  destruct (mask_texture priv) as [m |] eqn:Emask.
  - destruct (negb (mask_width priv =? texture_width tex)
              || negb (mask_height priv =? texture_height tex)) eqn:Esize.
    + (* dropped, then rebuilt or left out *)
      change (mask_texture (meta_shaped_texture_dirty_mask priv))
        with (@None MaskTexture) in H.
      change (shape_region (meta_shaped_texture_dirty_mask priv))
        with (shape_region priv) in H.
      change (overlay_region (meta_shaped_texture_dirty_mask priv))
        with (overlay_region priv) in H.
      destruct (shape_region priv) as [shape |] eqn:Eshape.
      * destruct (fill_rectangles _ _ _ _ _) as [filled |]; [| discriminate].
        inversion H; subst. unfold meta_shaped_texture_ensure_mask.
        cbn. rewrite Etex. cbn. rewrite !Z.eqb_refl. reflexivity.
      * match type of H with
        | (if ?b then _ else _) = _ => destruct b eqn:Eov; [| discriminate]
        end.
        inversion H; subst. unfold meta_shaped_texture_ensure_mask.
        cbn. rewrite Etex, Eshape. cbn. rewrite Eov. reflexivity.
    + rewrite Emask in H. inversion H; subst.
      unfold meta_shaped_texture_ensure_mask.
      rewrite Etex. cbv zeta. rewrite Emask, Esize, Emask. reflexivity.
  - rewrite Emask in H.
    destruct (shape_region priv) as [shape |] eqn:Eshape.
    + destruct (fill_rectangles _ _ _ _ _) as [filled |]; [| discriminate].
      inversion H; subst. unfold meta_shaped_texture_ensure_mask.
      cbn. rewrite Etex. cbn. rewrite !Z.eqb_refl. reflexivity.
    + match type of H with
      | (if ?b then _ else _) = _ => destruct b eqn:Eov; [| discriminate]
      end.
      inversion H; subst. unfold meta_shaped_texture_ensure_mask.
      rewrite Etex. cbv zeta. rewrite Emask. cbv iota.
      rewrite Emask, Eshape, Eov. reflexivity.
Qed.

(** The size recorded for an ensured mask is the size of the bound
    texture. *)
Lemma ensure_mask_recorded_size (priv priv' : MetaShapedTexturePrivate)
    (tex : CoglTexture) (m : MaskTexture) :
  meta_shaped_texture_ensure_mask priv = Some priv' ->
  texture priv = Some tex ->
  mask_texture priv' = Some m ->
  mask_width priv' = texture_width tex /\
  mask_height priv' = texture_height tex.
Proof.
  unfold meta_shaped_texture_ensure_mask. intros H Etex Hm.
  rewrite Etex in H. cbv zeta in H.
  destruct (mask_texture priv) as [m0 |] eqn:Emask.
  - destruct (negb (mask_width priv =? texture_width tex)
              || negb (mask_height priv =? texture_height tex)) eqn:Esize.
    + change (mask_texture (meta_shaped_texture_dirty_mask priv))
        with (@None MaskTexture) in H.
      break_match_hyp H; inversion H; subst; try discriminate;
        split; reflexivity.
    + rewrite Emask in H. inversion H; subst.
      rewrite orb_false_iff, !negb_false_iff, !Z.eqb_eq in Esize. exact Esize.
  - rewrite Emask in H.
    break_match_hyp H; inversion H; subst; try congruence; split; reflexivity.
Qed.

(** After any history, a mask that has been ensured has the size of the
    bound texture. *)
Theorem ensured_mask_has_texture_size (evs : list event)
    (priv' : MetaShapedTexturePrivate) (tex : CoglTexture) (m : MaskTexture) :
  meta_shaped_texture_ensure_mask (run_events meta_shaped_texture_init evs)
  = Some priv' ->
  texture priv' = Some tex ->
  mask_texture priv' = Some m ->
  mask_tex_width m = texture_width tex /\
  mask_tex_height m = texture_height tex.
Proof.
  intros H Etex Hm.
  pose proof (run_events_invariant evs _ init_invariant) as Hinv.
  pose proof (ensure_mask_invariant _ _ Hinv H) as (_ & Hrec & _).
  unfold mask_recorded in Hrec. rewrite Hm in Hrec.
  assert (Etex0 : texture (run_events meta_shaped_texture_init evs) = Some tex).
  { destruct (ensure_mask_cases _ _ H)
      as [<- | [-> | (? & ? & base & _ & Hbase & _ & _ & _ & ->)]];
      [exact Etex | exact Etex |].
    destruct Hbase as [-> | ->]; exact Etex. }
  destruct (ensure_mask_recorded_size _ _ _ _ H Etex0 Hm) as [Hw Hh].
  destruct Hrec. split; congruence.
Qed.

(** ** A new shape region reaches the mask *)

(** Whatever mask was cached, after [meta_shaped_texture_set_shape_region]
    on an element without overlay region, whose texture has a mask that
    stays within 32 bits, the next mask is built from the new region. *)
Theorem mask_follows_shape_region (priv : MetaShapedTexturePrivate)
    (tex : CoglTexture) (shape : cairo_region_t) :
  texture priv = Some tex ->
  overlay_region priv = None ->
  mask_size_fits (texture_width tex) (texture_height tex) ->
  let priv1 := fst (meta_shaped_texture_set_shape_region priv (Some shape)) in
  exists priv2 m,
    meta_shaped_texture_ensure_mask priv1 = Some priv2 /\
    mask_texture priv2 = Some m /\
    mask_tex_width m = texture_width tex /\
    mask_tex_height m = texture_height tex /\
    forall x y, 0 <= x < texture_width tex -> 0 <= y < texture_height tex ->
      mask_pixel m x y =
      if existsb (filledb (texture_width tex) (texture_height tex) x y)
           (region_rects shape)
      then 255 else 0.
Proof.
  intros Htex Hoverlay Hfits priv1.
  destruct (ensure_mask_pixels priv1 tex shape)
    as (m & Hrun & Hmw & Hmh & Hpix); try assumption; try reflexivity.
  eexists _, m. split; [exact Hrun |]. split; [reflexivity |]. auto.
Qed.

(** ** What a paint draws *)

Lemma omap_length_le (A B : Type) (f : A -> option B) (l : list A) :
  (length (omap f l) <= length l)%nat.
Proof.
  induction l as [| a l IH]; [apply Nat.le_refl |].
  cbn [omap list_omap]. destruct (f a); cbn [length]; fold (omap f l); lia.
Qed.

Lemma paint_rectangles_draws (clip : option cairo_region_t)
    (tex_width tex_height : Z) (alloc : ClutterActorBox) :
  Forall (fun c => is_draw c = true /\ is_timeout_add c = false)
    (paint_rectangles clip tex_width tex_height alloc) /\
  (length (paint_rectangles clip tex_width tex_height alloc)
   <= Z.to_nat MAX_RECTS)%nat.
Proof.
  unfold paint_rectangles. change (Z.to_nat MAX_RECTS) with 16%nat.
  assert (Hfull : Forall (fun c => is_draw c = true /\ is_timeout_add c = false)
                    [full_rectangle alloc] /\
                  (length [full_rectangle alloc] <= 16)%nat).
  { split; [| simpl; lia].
    constructor; [split; reflexivity | constructor]. }
  destruct clip as [region |]; [| exact Hfull].
  destruct (Z.leb_spec (cairo_region_num_rectangles (region_rects region))
              MAX_RECTS) as [Hle | Hgt]; [| exact Hfull].
  split.
  - apply Forall_map, Forall_forall. intros r _. split; reflexivity.
  - rewrite length_map. unfold cairo_region_num_rectangles in Hle.
    pose proof (omap_length_le _ _
                  (clip_to_texture (source_rectangle tex_width tex_height))
                  (region_rects region)). unfold MAX_RECTS in Hle. lia.
Qed.

Lemma filter_all (A : Type) (f : A -> bool) (l : list A) :
  Forall (fun a => f a = true) l -> List.filter f l = l.
Proof.
  induction 1 as [| a l Ha _ IH]; simpl; [reflexivity |].
  rewrite Ha, IH. reflexivity.
Qed.

Lemma filter_none (A : Type) (f : A -> bool) (l : list A) :
  Forall (fun a => f a = false) l -> List.filter f l = [].
Proof.
  induction 1 as [| a l Ha _ IH]; simpl; [reflexivity |].
  rewrite Ha, IH. reflexivity.
Qed.

Lemma arm_remipmap_calls (env : PaintEnv) (priv : MetaShapedTexturePrivate) :
  Forall (fun c => is_draw c = false) (snd (arm_remipmap env priv)).
Proof.
  unfold arm_remipmap.
  destruct (create_mipmaps priv), (remipmap_timeout_id priv =? 0);
    repeat constructor.
Qed.

Lemma select_paint_texture_calls (env : PaintEnv)
    (priv : MetaShapedTexturePrivate) :
  Forall (fun c => is_draw c = false) (snd (select_paint_texture env priv)).
Proof.
  unfold select_paint_texture.
  destruct (mipmap_paint_texture _ _ _); [constructor |].
  destruct (texture priv); [| constructor].
  pose proof (arm_remipmap_calls env priv).
  destruct (arm_remipmap env priv). assumption.
Qed.

(** A paint issues at most [MAX_RECTS] draws, and none when the clip
    region is present and empty, when the cached size is zero, or when
    neither the tower nor the element has a texture. *)
Theorem paint_draws_bounded (env : PaintEnv)
    (priv priv' : MetaShapedTexturePrivate) (calls : list call) :
  meta_shaped_texture_paint env priv = Some (priv', calls) ->
  (length (List.filter is_draw calls) <= Z.to_nat MAX_RECTS)%nat /\
  (List.filter is_draw calls <> [] ->
   (forall region, clip_region priv = Some region -> region_rects region <> []) /\
   tex_width priv <> 0 /\ tex_height priv <> 0 /\
   (texture priv <> None \/ env_tower_texture env <> None)).
Proof.
  unfold meta_shaped_texture_paint. intros H.
  assert (Hnodraw : forall l, Forall (fun c => is_draw c = false) l ->
                              List.filter is_draw l = [])
    by (intros l; apply filter_none).
  assert (Hrealize : Forall (fun c => is_draw c = false)
                       (if env_realized env then [] else [clutter_actor_realize]))
    by (destruct (env_realized env); repeat constructor).
  match type of H with
  | (if ?b then _ else _) = _ => destruct b eqn:Eclip
  end.
  { inversion H; subst. simpl. split; [lia | congruence]. }
  pose proof (select_paint_texture_calls env priv) as Hsel.
  assert (Hsrc : fst (fst (select_paint_texture env priv)) <> None ->
                 texture priv <> None \/ env_tower_texture env <> None).
  { rewrite select_paint_texture_source. unfold mipmap_paint_texture.
    destruct (should_use_mipmap priv (env_now env)),
      (env_tower_texture env), (texture priv); auto; congruence. }
  assert (Hgeom : clip_region (snd (fst (select_paint_texture env priv)))
                  = clip_region priv /\
                  tex_width (snd (fst (select_paint_texture env priv)))
                  = tex_width priv /\
                  tex_height (snd (fst (select_paint_texture env priv)))
                  = tex_height priv).
  { unfold select_paint_texture.
    destruct (mipmap_paint_texture _ _ _); [auto |].
    destruct (texture priv); [| auto].
    unfold arm_remipmap. destruct (create_mipmaps priv); [| auto].
    destruct (remipmap_timeout_id priv =? 0); auto. }
  destruct (select_paint_texture env priv) as [[[paint_tex |] priv1] calls1];
    cbn [fst snd] in *.
  - destruct Hgeom as (Ec & Ew & Eh).
    destruct (paint_texture env priv1 paint_tex) as [[priv2 draws] |] eqn:E;
      [| discriminate].
    inversion H; subst. rewrite !List.filter_app.
    rewrite (Hnodraw _ Hrealize), (Hnodraw _ Hsel). cbn [app].
    unfold paint_texture in E.
    destruct (Z.eqb_spec (tex_width priv1) 0) as [Ez | Hw0];
      [inversion E; subst; simpl; split; [lia | congruence] |].
    destruct (Z.eqb_spec (tex_height priv1) 0) as [Ez | Hh0];
      [inversion E; subst; simpl; split; [lia | congruence] |].
    cbn [orb] in E.
    assert (Hdraws : exists p clip,
               draws = cogl_set_source p
                         :: paint_rectangles clip (tex_width priv1)
                              (tex_height priv1) (env_alloc env)).
    { destruct (shape_region priv1).
      - destruct (meta_shaped_texture_ensure_mask priv1) as [priv3 |] eqn:Em;
          [| discriminate].
        apply ensure_mask_geometry in Em as (_ & Ew3 & Eh3).
        rewrite Ew3, Eh3 in E. inversion E; subst. eauto.
      - inversion E; subst. eauto. }
    destruct Hdraws as (p & clip & ->). cbn [List.filter is_draw].
    destruct (paint_rectangles_draws clip (tex_width priv1) (tex_height priv1)
                (env_alloc env)) as [Hall Hlen].
    rewrite filter_all
      by (eapply Forall_impl; [exact Hall | intros c [Hc _]; exact Hc]).
    split; [exact Hlen |]. intros _.
    split; [| split; [congruence | split; [congruence |]]].
    + intros region Eregion. rewrite Eregion in Eclip.
      destruct (region_rects region); [discriminate | congruence].
    + apply Hsrc. discriminate.
  - inversion H; subst. rewrite List.filter_app.
    rewrite (Hnodraw _ Hrealize), (Hnodraw _ Hsel). simpl.
    split; [lia | congruence].
Qed.

(** ** The time-out of the idle check *)

Lemma add64_exact (a b : Z) :
  - 2 ^ 63 <= a + b < 2 ^ 63 -> add64 a b = a + b.
Proof.
  intros H. unfold add64, wrap64.
  rewrite Z.mod_small; lia.
Qed.

Lemma ensure_mask_remipmap (priv priv' : MetaShapedTexturePrivate) :
  meta_shaped_texture_ensure_mask priv = Some priv' ->
  remipmap_timeout_id priv' = remipmap_timeout_id priv /\
  earliest_remipmap priv' = earliest_remipmap priv.
Proof.
  intros H.
  destruct (ensure_mask_cases _ _ H)
    as [-> | [-> | (? & ? & base & _ & Hbase & _ & _ & _ & ->)]];
    [auto | auto |].
  destruct Hbase as [-> | ->]; auto.
Qed.

Lemma paint_texture_remipmap (env : PaintEnv)
    (priv priv' : MetaShapedTexturePrivate) (paint_tex : CoglTexture)
    (calls : list call) :
  paint_texture env priv paint_tex = Some (priv', calls) ->
  remipmap_timeout_id priv' = remipmap_timeout_id priv /\
  earliest_remipmap priv' = earliest_remipmap priv /\
  Forall (fun c => is_timeout_add c = false) calls.
Proof.
  unfold paint_texture. intros H.
  destruct ((tex_width priv =? 0) || (tex_height priv =? 0));
    [inversion H; subst; auto |].
  assert (Hrects : forall clip w h,
             Forall (fun c => is_timeout_add c = false)
               (paint_rectangles clip w h (env_alloc env))).
  { intros clip w h.
    eapply Forall_impl; [apply paint_rectangles_draws |].
    intros c [_ Hc]. exact Hc. }
  destruct (shape_region priv).
  - destruct (meta_shaped_texture_ensure_mask priv) as [priv1 |] eqn:E;
      [| discriminate].
    apply ensure_mask_remipmap in E as [Eid Eearly].
    inversion H; subst. cbn [with_pipelines remipmap_timeout_id earliest_remipmap].
    split; [exact Eid |]. split; [exact Eearly |].
    constructor; [reflexivity | apply Hrects].
  - inversion H; subst. cbn [with_pipelines remipmap_timeout_id earliest_remipmap].
    split; [reflexivity |]. split; [reflexivity |].
    constructor; [reflexivity | apply Hrects].
Qed.

(** A paint adds a time-out only when it paints the raw texture with
    mipmaps wanted and none is pending; it then stores the identifier,
    and otherwise leaves the stored one alone.  It never adds two. *)
Theorem paint_adds_one_timeout (env : PaintEnv)
    (priv priv' : MetaShapedTexturePrivate) (calls : list call) :
  meta_shaped_texture_paint env priv = Some (priv', calls) ->
  (List.filter is_timeout_add calls = [] /\
   remipmap_timeout_id priv' = remipmap_timeout_id priv) \/
  (List.filter is_timeout_add calls
   = [g_timeout_add (MIN_MIPMAP_AGE_USEC / 1000)] /\
   remipmap_timeout_id priv = 0 /\
   create_mipmaps priv = true /\
   remipmap_timeout_id priv' = env_timeout_id env).
Proof.
  unfold meta_shaped_texture_paint. intros H.
  match type of H with
  | (if ?b then _ else _) = _ => destruct b
  end; [inversion H; subst; left; auto |].
  assert (Hrealize : List.filter is_timeout_add
                       (if env_realized env then [] else [clutter_actor_realize])
                     = [])
    by (destruct (env_realized env); reflexivity).
  assert (Hsel :
    (List.filter is_timeout_add (snd (select_paint_texture env priv)) = [] /\
     remipmap_timeout_id (snd (fst (select_paint_texture env priv)))
     = remipmap_timeout_id priv) \/
    (List.filter is_timeout_add (snd (select_paint_texture env priv))
     = [g_timeout_add (MIN_MIPMAP_AGE_USEC / 1000)] /\
     remipmap_timeout_id priv = 0 /\
     create_mipmaps priv = true /\
     remipmap_timeout_id (snd (fst (select_paint_texture env priv)))
     = env_timeout_id env)).
  { unfold select_paint_texture.
    destruct (mipmap_paint_texture _ _ _); [left; auto |].
    destruct (texture priv); [| left; auto].
    unfold arm_remipmap. destruct (create_mipmaps priv); [| left; auto].
    destruct (Z.eqb_spec (remipmap_timeout_id priv) 0);
      [right; auto | left; auto]. }
  destruct (select_paint_texture env priv) as [[[paint_tex |] priv1] calls1];
    cbn [fst snd] in Hsel.
  - destruct (paint_texture env priv1 paint_tex) as [[priv2 draws] |] eqn:E;
      [| discriminate].
    apply paint_texture_remipmap in E as (Eid & _ & Hdraws).
    inversion H; subst. rewrite !List.filter_app, Hrealize.
    rewrite (filter_none _ _ _ Hdraws), app_nil_r. cbn [app].
    rewrite Eid. exact Hsel.
  - inversion H; subst. rewrite List.filter_app, Hrealize. exact Hsel.
Qed.

(** The check armed by a paint of the raw texture: the earliest time is
    [MIN_MIPMAP_AGE_USEC - 1000] after the paint; fired before it, the
    callback does nothing and stays; fired at or after it, as after the
    interval given to [g_timeout_add], it queues a redraw, clears the
    stored identifier and is removed. *)
Theorem idle_check_after_raw_paint (env : PaintEnv)
    (priv priv' : MetaShapedTexturePrivate) (calls : list call) (t : Z) :
  meta_shaped_texture_paint env priv = Some (priv', calls) ->
  (forall region, clip_region priv = Some region -> region_rects region <> []) ->
  create_mipmaps priv = true ->
  texture priv <> None ->
  mipmap_paint_texture priv (env_now env) (env_tower_texture env) = None ->
  0 <= env_now env < 2 ^ 62 ->
  0 <= t < 2 ^ 63 ->
  let earliest := env_now env + MIN_MIPMAP_AGE_USEC - 1000 in
  earliest_remipmap priv' = earliest /\
  texture_is_idle_and_not_mipmapped priv' t =
  if t <? earliest then (priv', [], true)
  else (with_remipmap 0 earliest priv', [clutter_actor_queue_redraw], false).
Proof.
  intros H Hclip Hcreate Htex Hraw Hnow Ht earliest.
  assert (Hearly : earliest_remipmap priv' = earliest).
  { unfold meta_shaped_texture_paint in H.
    match type of H with
    | (if ?b then _ else _) = _ => destruct b eqn:Eclip
    end.
    { exfalso. destruct (clip_region priv) as [region |]; [| discriminate].
      specialize (Hclip region eq_refl).
      destruct (region_rects region); [congruence | discriminate]. }
    unfold select_paint_texture in H. rewrite Hraw in H.
    destruct (texture priv) as [raw |]; [| congruence].
    unfold arm_remipmap in H. rewrite Hcreate in H.
    assert (Eearly : sub64 (add64 (env_now env) MIN_MIPMAP_AGE_USEC) 1000
                     = earliest).
    { rewrite MIN_MIPMAP_AGE_USEC_value in *.
      rewrite add64_exact by lia. rewrite sub64_exact by lia.
      subst earliest. rewrite MIN_MIPMAP_AGE_USEC_value. reflexivity. }
    rewrite Eearly in H.
    destruct (remipmap_timeout_id priv =? 0);
      match type of H with
      | match paint_texture ?e ?p ?tx with _ => _ end = _ =>
          destruct (paint_texture e p tx) as [[priv2 draws] |] eqn:E;
            [| discriminate];
          apply paint_texture_remipmap in E as (_ & E & _);
          inversion H; subst; exact E
      end. }
  split; [exact Hearly |].
  unfold texture_is_idle_and_not_mipmapped. rewrite Hearly.
  assert (Hrange : 0 <= earliest < 2 ^ 63).
  { subst earliest. rewrite MIN_MIPMAP_AGE_USEC_value. lia. }
  rewrite sub64_exact by lia.
  destruct (Z.ltb_spec (t - earliest) 0), (Z.ltb_spec t earliest);
    try lia; reflexivity.
Qed.

(** ** Damage, seen from the caller of [meta_shaped_texture_update_area] *)

Lemma bounding_box_inside (P : Z -> Z -> Prop)
    (b rect : cairo_rectangle_int_t) :
  bounding_box P b ->
  (forall px py, P px py -> in_rect px py rect) ->
  forall px py, in_rect px py b -> in_rect px py rect.
Proof.
  intros (_ & [y1 H1] & [y2 H2] & [x3 H3] & [x4 H4]) Hsub px py Hin.
  apply Hsub in H1, H2, H3, H4. unfold in_rect in *. lia.
Qed.

Lemma queue_damage_redraw_within (rect : cairo_rectangle_int_t)
    (unobscured_region : option cairo_region_t) :
  (snd (queue_damage_redraw rect unobscured_region) = true /\
   exists clip,
     fst (queue_damage_redraw rect unobscured_region)
     = [clutter_actor_queue_redraw_with_clip clip] /\
     forall px py, in_rect px py clip -> in_rect px py rect) \/
  (snd (queue_damage_redraw rect unobscured_region) = false /\
   fst (queue_damage_redraw rect unobscured_region) = []).
Proof.
  unfold queue_damage_redraw.
  destruct unobscured_region as [region |];
    [| left; split; [reflexivity |]; exists rect; auto].
  destruct (cairo_region_is_empty (region_rects region)); [right; auto |].
  pose proof (intersect_rectangle_pixels (region_rects region) rect) as Hpix.
  pose proof (intersect_rectangle_wf (region_rects region) rect) as Hwf.
  destruct (cairo_region_intersect_rectangle (region_rects region) rect)
    as [| r rest]; cbn [cairo_region_is_empty negb]; [right; auto |].
  left. split; [reflexivity |]. eexists. split; [reflexivity |].
  apply (bounding_box_inside _ _ _ (get_extents_bounding_box r rest Hwf)).
  intros px py H. apply Hpix in H. tauto.
Qed.

(** [meta_shaped_texture_update_area] returns [TRUE] exactly when it has
    queued a redraw; it queues at most one, and the clip of that redraw
    lies inside the damaged rectangle.  Without a bound texture it
    queues nothing. *)
Theorem update_area_redraw_within_damage (priv : MetaShapedTexturePrivate)
    (x y width height : Z) (unobscured_region : option cairo_region_t)
    (now : Z) :
  let result :=
    meta_shaped_texture_update_area priv x y width height unobscured_region
      now in
  let redraws := List.filter is_redraw (snd (fst result)) in
  (snd result = true /\ texture priv <> None /\
   exists clip,
     redraws = [clutter_actor_queue_redraw_with_clip clip] /\
     forall px py,
       in_rect px py clip -> in_rect px py (mkRect x y width height)) \/
  (snd result = false /\ redraws = []).
Proof.
  intros result redraws. subst redraws result.
  rewrite update_area_blocks.
  destruct (texture priv); [| right; auto].
  cbn [fst snd app List.filter is_redraw].
  destruct (queue_damage_redraw_within (mkRect x y width height)
              unobscured_region) as [(-> & clip & -> & Hin) | (-> & ->)].
  - left. split; [reflexivity |]. split; [discriminate |]. exists clip. auto.
  - right. auto.
Qed.

(** ** Bursts of updates *)

Lemma record_update_fast (priv : MetaShapedTexturePrivate) (t : Z) :
  last_invalidation priv <> 0 ->
  sub64 t (last_invalidation priv) < MIN_MIPMAP_AGE_USEC ->
  (fast_updates priv <= MIN_FAST_UPDATES_BEFORE_UNMIPMAP)%N ->
  fast_updates (record_update priv t)
  = N.min (fast_updates priv + 1) MIN_FAST_UPDATES_BEFORE_UNMIPMAP.
Proof.
  intros Hlast Hfast Hle. rewrite record_update_fast_updates.
  destruct (Z.eqb_spec (last_invalidation priv) 0); [contradiction |].
  destruct (Z.leb_spec MIN_MIPMAP_AGE_USEC (sub64 t (last_invalidation priv)));
    [lia |].
  destruct (N.ltb_spec (fast_updates priv) MIN_FAST_UPDATES_BEFORE_UNMIPMAP);
    lia.
Qed.

Lemma last_cons_default (A : Type) (a : A) (l : list A) (d d' : A) :
  List.last (a :: l) d = List.last (a :: l) d'.
Proof.
  revert a. induction l as [| b l IH]; intros a; [reflexivity |].
  change (List.last (b :: l) d = List.last (b :: l) d'). apply IH.
Qed.

Lemma record_updates_fast (times : list Z) :
  forall priv : MetaShapedTexturePrivate,
    (fast_updates priv <= MIN_FAST_UPDATES_BEFORE_UNMIPMAP)%N ->
    all_fast (last_invalidation priv) times ->
    fast_updates (fold_left record_update times priv)
    = N.min (fast_updates priv + N.of_nat (length times))
        MIN_FAST_UPDATES_BEFORE_UNMIPMAP /\
    last_invalidation (fold_left record_update times priv)
    = List.last times (last_invalidation priv).
Proof.
  induction times as [| t rest IH]; intros priv Hle Hfast.
  - simpl. split; [lia | reflexivity].
  - destruct Hfast as (Hlast & Hgap & Hrest). cbn [fold_left].
    pose proof (record_update_fast priv t Hlast Hgap Hle) as Hstep.
    destruct (IH (record_update priv t)) as [Hcount Hend].
    + rewrite Hstep. lia.
    + exact Hrest.
    + split.
      * rewrite Hcount, Hstep. cbn [length]. lia.
      * rewrite Hend. cbn [record_update with_timeline last_invalidation].
        destruct rest as [| z rest']; [reflexivity |].
        change (List.last (t :: z :: rest') (last_invalidation priv))
          with (List.last (z :: rest') (last_invalidation priv)).
        apply last_cons_default.
Qed.

(** A run of fast updates adds one to [fast_updates] for each update
    until the threshold is reached, and the counter stays there. *)
Theorem fast_burst_counter (priv : MetaShapedTexturePrivate)
    (times : list Z) :
  (fast_updates priv <= MIN_FAST_UPDATES_BEFORE_UNMIPMAP)%N ->
  all_fast (last_invalidation priv) times ->
  fast_updates (fold_left record_update times priv)
  = N.min (fast_updates priv + N.of_nat (length times))
      MIN_FAST_UPDATES_BEFORE_UNMIPMAP /\
  last_invalidation (fold_left record_update times priv)
  = List.last times (last_invalidation priv).
Proof. apply record_updates_fast. Qed.

(** After a run of fast updates, a paint uses the mipmap exactly when
    mipmaps are enabled, the last update was recorded, and either the
    texture has since been idle for [MIN_MIPMAP_AGE_USEC] or the run has
    not brought the counter to the threshold. *)
Theorem mipmap_decision_after_burst (priv : MetaShapedTexturePrivate)
    (times : list Z) (now : Z) :
  (fast_updates priv <= MIN_FAST_UPDATES_BEFORE_UNMIPMAP)%N ->
  all_fast (last_invalidation priv) times ->
  let priv' := fold_left record_update times priv in
  let last := List.last times (last_invalidation priv) in
  should_use_mipmap priv' now = true <->
  create_mipmaps priv = true /\ last <> 0 /\
  (MIN_MIPMAP_AGE_USEC <= sub64 now last \/
   (fast_updates priv + N.of_nat (length times)
    < MIN_FAST_UPDATES_BEFORE_UNMIPMAP)%N).
Proof.
  intros Hle Hfast priv' last.
  destruct (record_updates_fast times priv Hle Hfast) as [Hcount Hend].
  fold priv' in Hcount, Hend. fold last in Hend.
  assert (Hcreate : create_mipmaps priv' = create_mipmaps priv).
  { subst priv'. clear. revert priv.
    induction times as [| t rest IH]; intros priv; [reflexivity |].
    cbn [fold_left]. rewrite IH. reflexivity. }
  rewrite should_use_mipmap_true, Hcreate, Hend, Hcount.
  split; intros (Hc & Hl & [Hage | Hn]); (split; [exact Hc |]);
    (split; [exact Hl |]); auto; right; lia.
Qed.

(** ** References of the element on its regions *)

Lemma exec_calls_app (m : Memory) (cs1 cs2 : list call) :
  exec_calls m (cs1 ++ cs2) =
  match exec_calls m cs1 with
  | Some m1 => exec_calls m1 cs2
  | None => None
  end.
Proof.
  revert m. induction cs1 as [| c cs1 IH]; intros m; [reflexivity |].
  cbn [app exec_calls]. destruct (exec_call m c); [apply IH | reflexivity].
Qed.

Lemma refcount_lookup_None (m : Memory) (addr : positive) :
  region_refs m !! addr = None -> refcount m addr = O.
Proof. unfold refcount. intros ->. reflexivity. Qed.

Lemma exec_region_destroy_fresh (m m' : Memory) (region : cairo_region_t)
    (addr : positive) :
  exec_call m (cairo_region_destroy region) = Some m' ->
  region_refs m !! addr = None -> region_refs m' !! addr = None.
Proof.
  cbn [exec_call]. intros H Hfresh.
  destruct (region_refs m !! region_addr region) as [[| [| n]] |] eqn:E;
    inversion H; subst; cbn [region_refs].
  - destruct (decide (region_addr region = addr)) as [Heq | Hne];
      [rewrite <- Heq; apply lookup_delete_eq
      | rewrite lookup_delete_ne by exact Hne; exact Hfresh].
  - destruct (decide (region_addr region = addr)) as [Heq | Hne];
      [rewrite <- Heq in Hfresh; congruence
      | rewrite lookup_insert_ne by exact Hne; exact Hfresh].
Qed.

Lemma exec_region_reference (m : Memory) (region : cairo_region_t) :
  (0 < refcount m (region_addr region))%nat ->
  exists m',
    exec_call m (cairo_region_reference (Some region)) = Some m' /\
    refcount m' (region_addr region) = S (refcount m (region_addr region)) /\
    (forall addr, addr <> region_addr region ->
                  refcount m' addr = refcount m addr) /\
    live_paths m' = live_paths m.
Proof.
  intros Hlive. destruct (refcount_positive _ _ Hlive) as [n Hn].
  unfold exec_call, refcount. rewrite Hn.
  eexists. split; [reflexivity |]. cbn [region_refs live_paths].
  rewrite lookup_insert_eq. repeat split.
  intros addr Hne. rewrite lookup_insert_ne by congruence. reflexivity.
Qed.

(** Dropping the reference of one field. *)
Lemma exec_destroy_if_set (m : Memory) (field : option cairo_region_t) :
  (forall addr, (field_holds field addr <= refcount m addr)%nat) ->
  exists m',
    exec_calls m (destroy_region_if_set field) = Some m' /\
    (forall addr,
        (refcount m' addr + field_holds field addr)%nat = refcount m addr) /\
    live_paths m' = live_paths m /\
    (forall addr, region_refs m !! addr = None ->
                  region_refs m' !! addr = None).
Proof.
  intros Hheld. destruct field as [region |]; cbn [destroy_region_if_set].
  - destruct (exec_region_destroy m region)
      as (m' & Hexec & Hcount & Hother & Hpaths).
    { specialize (Hheld (region_addr region)). cbn [field_holds] in Hheld.
      destruct (decide (region_addr region = region_addr region));
        [lia | congruence]. }
    exists m'. cbn [exec_calls]. rewrite Hexec.
    split; [reflexivity |]. split; [| split; [exact Hpaths |]].
    + intros addr. cbn [field_holds].
      destruct (decide (region_addr region = addr)) as [<- | Hne].
      * specialize (Hheld (region_addr region)). cbn [field_holds] in Hheld.
        destruct (decide (region_addr region = region_addr region));
          [lia | congruence].
      * rewrite Hother by congruence. lia.
    + intros addr. apply (exec_region_destroy_fresh _ _ _ _ Hexec).
  - exists m. cbn [exec_calls field_holds].
    split; [reflexivity |]. split; [intros; lia |]. auto.
Qed.

(** Taking a reference for one field. *)
Lemma exec_reference_field (m : Memory) (field : option cairo_region_t) :
  (forall region, field = Some region ->
                  (0 < refcount m (region_addr region))%nat) ->
  exists m',
    exec_call m (cairo_region_reference field) = Some m' /\
    (forall addr,
        refcount m' addr = (refcount m addr + field_holds field addr)%nat) /\
    live_paths m' = live_paths m.
Proof.
  intros Hlive. destruct field as [region |].
  - destruct (exec_region_reference m region (Hlive _ eq_refl))
      as (m' & Hexec & Hcount & Hother & Hpaths).
    exists m'. split; [exact Hexec |]. split; [| exact Hpaths].
    intros addr. cbn [field_holds].
    destruct (decide (region_addr region = addr)) as [<- | Hne];
      [lia | rewrite Hother by congruence; lia].
  - exists m. split; [reflexivity |]. split; [intros; cbn; lia | reflexivity].
Qed.

(** [meta_shaped_texture_set_shape_region] called with a region on which
    the caller has a reference of its own (or with [NULL]) runs without
    undefined behaviour; afterwards the memory still has every reference
    the element holds, and the references held by others are the same
    as before. *)
Theorem set_shape_region_keeps_ownership (m : Memory)
    (priv : MetaShapedTexturePrivate) (region : option cairo_region_t) :
  owns m priv ->
  (forall r, region = Some r ->
             (holds priv (region_addr r) < refcount m (region_addr r))%nat) ->
  let priv' := fst (meta_shaped_texture_set_shape_region priv region) in
  exists m',
    exec_calls m (snd (meta_shaped_texture_set_shape_region priv region))
    = Some m' /\
    owns m' priv' /\
    forall addr,
      (refcount m' addr + holds priv addr)%nat
      = (refcount m addr + holds priv' addr)%nat.
Proof.
  intros [Hheld Hpath] Hcaller priv'.
  unfold meta_shaped_texture_set_shape_region in *. cbn [fst snd] in *.
  destruct (exec_destroy_if_set m (shape_region priv))
    as (m1 & Hexec1 & Hcount1 & Hpaths1 & _).
  { intros addr. specialize (Hheld addr). unfold holds in Hheld. lia. }
  destruct (exec_reference_field m1 region) as (m2 & Hexec2 & Hcount2 & Hpaths2).
  { intros r ->. specialize (Hcaller r eq_refl).
    specialize (Hcount1 (region_addr r)). unfold holds in Hcaller. lia. }
  assert (Hcalls : exec_calls m
            (destroy_region_if_set (shape_region priv)
               ++ match region with
                  | Some _ => [cairo_region_reference region]
                  | None => []
                  end ++ [clutter_actor_queue_redraw]) = Some m2).
  { rewrite exec_calls_app, Hexec1.
    destruct region; cbn [app exec_calls]; [rewrite Hexec2; reflexivity |].
    cbn [exec_call] in Hexec2. cbn [exec_call]. congruence. }
  exists m2. split; [exact Hcalls |].
  assert (Hholds : forall addr,
            (holds priv' addr + field_holds (shape_region priv) addr)%nat
            = (holds priv addr + field_holds region addr)%nat).
  { intros addr. subst priv'. unfold holds. cbn. lia. }
  split; [split |].
  - intros addr. specialize (Hheld addr). specialize (Hcount1 addr).
    specialize (Hcount2 addr). specialize (Hholds addr).
    assert (field_holds (shape_region priv) addr <= holds priv addr)%nat
      by (unfold holds; lia).
    lia.
  - subst priv'. cbn. rewrite Hpaths2, Hpaths1. exact Hpath.
  - intros addr. specialize (Hheld addr). specialize (Hcount1 addr).
    specialize (Hcount2 addr). specialize (Hholds addr). lia.
Qed.

(** Called with the region it already stores, while the element holds
    the only reference on it, [meta_shaped_texture_set_shape_region]
    (and likewise [meta_shaped_texture_set_overlay_path]) destroys the
    region before it references it again: the behaviour is undefined. *)
Theorem set_stored_region_again_is_undefined (m : Memory)
    (priv : MetaShapedTexturePrivate) (region : cairo_region_t)
    (path : option cairo_path_t) :
  refcount m (region_addr region) = 1%nat ->
  (shape_region priv = Some region ->
   exec_calls m (snd (meta_shaped_texture_set_shape_region priv (Some region)))
   = None) /\
  (overlay_region priv = Some region ->
   exec_calls m
     (snd (meta_shaped_texture_set_overlay_path priv (Some region) path))
   = None).
Proof.
  intros Hone.
  assert (Hlookup : region_refs m !! region_addr region = Some 1%nat).
  { destruct (refcount_positive m (region_addr region)) as [n Hn]; [lia |].
    unfold refcount in Hone. rewrite Hn in Hone. simpl in Hone.
    rewrite Hn. congruence. }
  assert (Hdead : forall m1,
            exec_call m (cairo_region_destroy region) = Some m1 ->
            exec_call m1 (cairo_region_reference (Some region)) = None).
  { intros m1. cbn [exec_call]. rewrite Hlookup. intros [= <-].
    cbn [region_refs]. rewrite lookup_delete_eq. reflexivity. }
  assert (Hdestroy : exists m1,
            exec_call m (cairo_region_destroy region) = Some m1 /\
            live_paths m1 = live_paths m).
  { cbn [exec_call]. rewrite Hlookup. eauto. }
  destruct Hdestroy as (m1 & Hm1 & Hpaths).
  split; intros Hstored.
  - unfold meta_shaped_texture_set_shape_region. cbn [snd].
    rewrite Hstored. cbn [destroy_region_if_set app exec_calls].
    rewrite Hm1, (Hdead m1 Hm1). reflexivity.
  - unfold meta_shaped_texture_set_overlay_path. cbn [snd].
    rewrite Hstored. cbn [destroy_region_if_set app exec_calls].
    rewrite Hm1.
    destruct (overlay_path priv) as [old |];
      cbn [destroy_path_if_set app exec_calls].
    + cbn [exec_call].
      destruct (decide (path_addr old ∈ live_paths m1)); [| reflexivity].
      cbn [exec_calls exec_call].
      pose proof (Hdead m1 Hm1) as Hd1. cbn [exec_call] in Hd1.
      cbn [region_refs].
      destruct (region_refs m1 !! region_addr region) as [[| n] |];
        try discriminate; reflexivity.
    + rewrite (Hdead m1 Hm1). reflexivity.
Qed.

Lemma exec_destroy_path_if_set (m : Memory) (field : option cairo_path_t) :
  (forall path, field = Some path -> path_addr path ∈ live_paths m) ->
  exists m',
    exec_calls m (destroy_path_if_set field) = Some m' /\
    region_refs m' = region_refs m /\
    live_paths m' =
      live_paths m ∖ match field with
                     | Some path => {[path_addr path]}
                     | None => ∅
                     end.
Proof.
  intros Hlive. destruct field as [path |];
    cbn [destroy_path_if_set exec_calls exec_call].
  - destruct (decide (path_addr path ∈ live_paths m)) as [_ | Hno];
      [| exfalso; apply Hno, Hlive; reflexivity].
    eexists. split; [reflexivity |]. split; reflexivity.
  - exists m. split; [reflexivity |]. split; [reflexivity |]. set_solver.
Qed.

Lemma refcount_same_refs (m m' : Memory) (addr : positive) :
  region_refs m' = region_refs m -> refcount m' addr = refcount m addr.
Proof. unfold refcount. intros ->. reflexivity. Qed.

(** [meta_shaped_texture_set_overlay_path] takes the path over: called
    with a region on which the caller has a reference of its own and with
    a live path other than the stored one (or with [NULL]s), it runs
    without undefined behaviour, frees the stored path, keeps the new one
    live, and leaves the references held by others as they were. *)
Theorem set_overlay_path_keeps_ownership (m : Memory)
    (priv : MetaShapedTexturePrivate) (region : option cairo_region_t)
    (path : option cairo_path_t) :
  owns m priv ->
  (forall r, region = Some r ->
             (holds priv (region_addr r) < refcount m (region_addr r))%nat) ->
  (forall p, path = Some p ->
             path_addr p ∈ live_paths m /\
             forall old, overlay_path priv = Some old ->
                         path_addr old <> path_addr p) ->
  let priv' := fst (meta_shaped_texture_set_overlay_path priv region path) in
  exists m',
    exec_calls m (snd (meta_shaped_texture_set_overlay_path priv region path))
    = Some m' /\
    owns m' priv' /\
    (forall addr,
        (refcount m' addr + holds priv addr)%nat
        = (refcount m addr + holds priv' addr)%nat) /\
    live_paths m' =
      live_paths m ∖ match overlay_path priv with
                     | Some old => {[path_addr old]}
                     | None => ∅
                     end.
Proof.
  intros [Hheld Hpath] Hcaller Hnew priv'.
  unfold meta_shaped_texture_set_overlay_path in *. cbn [fst snd] in *.
  destruct (exec_destroy_if_set m (overlay_region priv))
    as (m1 & Hexec1 & Hcount1 & Hpaths1 & _).
  { intros addr. specialize (Hheld addr). unfold holds in Hheld. lia. }
  destruct (exec_destroy_path_if_set m1 (overlay_path priv))
    as (m2 & Hexec2 & Hrefs2 & Hpaths2).
  { intros old Hold. rewrite Hold in Hpath. rewrite Hpaths1. exact Hpath. }
  destruct (exec_reference_field m2 region) as (m3 & Hexec3 & Hcount3 & Hpaths3).
  { intros r ->. specialize (Hcaller r eq_refl).
    specialize (Hcount1 (region_addr r)).
    rewrite (refcount_same_refs _ _ _ Hrefs2).
    unfold holds in Hcaller. lia. }
  exists m3. split.
  { rewrite exec_calls_app, Hexec1, exec_calls_app, Hexec2.
    cbn [exec_calls]. rewrite Hexec3. reflexivity. }
  assert (Hholds : forall addr,
            (holds priv' addr + field_holds (overlay_region priv) addr)%nat
            = (holds priv addr + field_holds region addr)%nat).
  { intros addr. subst priv'. unfold holds. cbn. lia. }
  assert (Hcount : forall addr,
            (refcount m3 addr + field_holds (overlay_region priv) addr)%nat
            = (refcount m addr + field_holds region addr)%nat).
  { intros addr. rewrite Hcount3, (refcount_same_refs _ _ _ Hrefs2).
    specialize (Hcount1 addr). lia. }
  split; [split |]; [| | split].
  - intros addr. specialize (Hheld addr). specialize (Hcount addr).
    specialize (Hholds addr).
    assert (field_holds (overlay_region priv) addr <= holds priv addr)%nat
      by (unfold holds; lia).
    lia.
  - subst priv'. cbn. destruct path as [p |]; [| exact I].
    destruct (Hnew p eq_refl) as [Hlive Hother].
    rewrite Hpaths3, Hpaths2, Hpaths1.
    destruct (overlay_path priv) as [old |];
      [specialize (Hother old eq_refl) |]; set_solver.
  - intros addr. specialize (Hcount addr). specialize (Hholds addr).
    specialize (Hheld addr).
    assert (field_holds (overlay_region priv) addr <= holds priv addr)%nat
      by (unfold holds; lia).
    lia.
  - rewrite Hpaths3, Hpaths2, Hpaths1. reflexivity.
Qed.

(** ** Disposal *)

Lemma setter_calls_app (cs1 cs2 : list dispose_call) :
  setter_calls (cs1 ++ cs2) = setter_calls cs1 ++ setter_calls cs2.
Proof. apply omap_app. Qed.

Lemma setter_calls_map (cs : list call) :
  setter_calls (map setter_call cs) = cs.
Proof.
  induction cs as [| c cs IH]; [reflexivity |].
  cbn [map]. unfold setter_calls in *. cbn [omap list_omap].
  fold (omap (fun c0 : dispose_call =>
                match c0 with setter_call c' => Some c' | _ => None end)
          (map setter_call cs)).
  rewrite IH. reflexivity.
Qed.

Lemma dispose_setter_calls (priv : MetaShapedTexturePrivate)
    (paint_tower : bool) :
  setter_calls (snd (meta_shaped_texture_dispose priv paint_tower)) =
  destroy_region_if_set (shape_region priv)
    ++ [clutter_actor_queue_redraw]
    ++ destroy_region_if_set (clip_region priv)
    ++ destroy_region_if_set (overlay_region priv)
    ++ destroy_path_if_set (overlay_path priv)
    ++ [cairo_region_reference None].
Proof.
  unfold meta_shaped_texture_dispose.
  cbn [meta_shaped_texture_set_shape_region meta_shaped_texture_set_clip_region
         meta_shaped_texture_set_overlay_path fst snd].
  rewrite !setter_calls_app, setter_calls_map.
  assert (E1 : setter_calls
                 (if negb (remipmap_timeout_id priv =? 0)
                  then [g_source_remove (remipmap_timeout_id priv)] else [])
               = []) by (destruct (negb _); reflexivity).
  assert (E2 : setter_calls
                 (if paint_tower then [meta_texture_tower_free] else []) = [])
    by (destruct paint_tower; reflexivity).
  rewrite E1, E2. cbn [app setter_calls omap list_omap].
  rewrite app_nil_r. destruct priv. cbn. rewrite <- !app_assoc. reflexivity.
Qed.

(** Disposal of an element whose references the memory has: it runs
    without undefined behaviour, gives back every reference the element
    holds on a region, frees the stored overlay path, and leaves no
    region, path, texture, mask, pipeline or pending time-out in the
    structure; the time-out source is removed when one was pending. *)
Theorem dispose_releases_everything (m : Memory)
    (priv : MetaShapedTexturePrivate) (paint_tower : bool) :
  owns m priv ->
  let result := meta_shaped_texture_dispose priv paint_tower in
  let priv' := fst (fst result) in
  exists m',
    exec_calls m (setter_calls (snd result)) = Some m' /\
    (forall addr, (refcount m' addr + holds priv addr)%nat = refcount m addr) /\
    live_paths m' =
      live_paths m ∖ match overlay_path priv with
                     | Some old => {[path_addr old]}
                     | None => ∅
                     end /\
    (forall addr, holds priv' addr = O) /\
    overlay_path priv' = None /\
    texture priv' = None /\ mask_texture priv' = None /\
    pipeline priv' = None /\ pipeline_unshaped priv' = None /\
    remipmap_timeout_id priv' = 0 /\
    (In (g_source_remove (remipmap_timeout_id priv)) (snd result) <->
     remipmap_timeout_id priv <> 0).
Proof.
  intros [Hheld Hpath] result priv'.
  subst result. rewrite dispose_setter_calls.
  destruct (exec_destroy_if_set m (shape_region priv))
    as (m1 & Hexec1 & Hcount1 & Hpaths1 & _).
  { intros addr. specialize (Hheld addr). unfold holds in Hheld. lia. }
  destruct (exec_destroy_if_set m1 (clip_region priv))
    as (m2 & Hexec2 & Hcount2 & Hpaths2 & _).
  { intros addr. specialize (Hheld addr). specialize (Hcount1 addr).
    unfold holds in Hheld. lia. }
  destruct (exec_destroy_if_set m2 (overlay_region priv))
    as (m3 & Hexec3 & Hcount3 & Hpaths3 & _).
  { intros addr. specialize (Hheld addr). specialize (Hcount1 addr).
    specialize (Hcount2 addr). unfold holds in Hheld. lia. }
  destruct (exec_destroy_path_if_set m3 (overlay_path priv))
    as (m4 & Hexec4 & Hrefs4 & Hpaths4).
  { intros old Hold. rewrite Hold in Hpath.
    rewrite Hpaths3, Hpaths2, Hpaths1. exact Hpath. }
  exists m4. split.
  { rewrite exec_calls_app, Hexec1. cbn [app exec_calls exec_call].
    rewrite exec_calls_app, Hexec2, exec_calls_app, Hexec3,
      exec_calls_app, Hexec4. reflexivity. }
  split.
  { intros addr. rewrite (refcount_same_refs _ _ _ Hrefs4).
    specialize (Hcount1 addr). specialize (Hcount2 addr).
    specialize (Hcount3 addr). unfold holds. lia. }
  split; [rewrite Hpaths4, Hpaths3, Hpaths2, Hpaths1; reflexivity |].
  assert (Hfields : (forall addr, holds priv' addr = O) /\
            overlay_path priv' = None /\
            texture priv' = None /\ mask_texture priv' = None /\
            pipeline priv' = None /\ pipeline_unshaped priv' = None /\
            remipmap_timeout_id priv' = 0).
  { subst priv'. unfold meta_shaped_texture_dispose.
    destruct priv as [? ? ? [p |] ? ? ? ? ? ? ? ? ? ? ? ? ? id ? ?]; cbn;
      (split; [intros addr; reflexivity |]); repeat split; reflexivity. }
  destruct Hfields as (F1 & F2 & F3 & F4 & F5 & F6 & F7).
  repeat (split; [assumption |]).
  unfold meta_shaped_texture_dispose.
  cbn [meta_shaped_texture_set_shape_region meta_shaped_texture_set_clip_region
         meta_shaped_texture_set_overlay_path fst snd].
  rewrite !in_app_iff.
  destruct (Z.eqb_spec (remipmap_timeout_id priv) 0) as [Hid | Hid];
    cbn [negb In].
  - split; [| intros Hne; contradiction].
    intros [[] | [Hin | [Hin | Hin]]].
    + destruct paint_tower; cbn in Hin; [destruct Hin as [Hin | []] |];
        [discriminate | contradiction].
    + apply in_map_iff in Hin. destruct Hin as (c & Hc & _). discriminate.
    + destruct Hin as [Hin | []]. discriminate.
  - split; [intros _; exact Hid | intros _; left; left; reflexivity].
Qed.

(** What a disposal leaves in the structure. *)
Lemma dispose_state (priv : MetaShapedTexturePrivate) (paint_tower : bool) :
  fst (fst (meta_shaped_texture_dispose priv paint_tower)) =
  mkPriv (pixmap priv) None None None None None (unobscured_region priv)
    None None None (tex_width priv) (tex_height priv)
    (mask_width priv) (mask_height priv)
    (prev_invalidation priv) (last_invalidation priv) (fast_updates priv)
    0 (earliest_remipmap priv) (create_mipmaps priv) /\
  snd (fst (meta_shaped_texture_dispose priv paint_tower)) = false.
Proof.
  destruct priv as [? ? ? pl ? ? ? ? ? ? ? ? ? ? ? ? ? id ? ?].
  split; reflexivity.
Qed.

(** A second disposal, as GObject may run it, finds nothing left to
    release: it only queues the redraw of the shape setter, passes [NULL]
    to [cairo_region_reference], and chains up. *)
Theorem dispose_twice (priv : MetaShapedTexturePrivate) (paint_tower : bool) :
  let first := meta_shaped_texture_dispose priv paint_tower in
  meta_shaped_texture_dispose (fst (fst first)) (snd (fst first)) =
  (fst (fst first), false,
   [setter_call clutter_actor_queue_redraw;
    setter_call (cairo_region_reference None);
    parent_dispose]).
Proof.
  intros first. subst first.
  destruct (dispose_state priv paint_tower) as [-> ->].
  reflexivity.
Qed.

(** ** The obscured query over the life of an element *)

(** No function of the file writes [priv->unobscured_region]. *)
Lemma ensure_mask_unobscured (priv priv' : MetaShapedTexturePrivate) :
  meta_shaped_texture_ensure_mask priv = Some priv' ->
  unobscured_region priv' = unobscured_region priv.
Proof.
  unfold meta_shaped_texture_ensure_mask. intros H.
  repeat match type of H with
         | context [match ?x with _ => _ end] => destruct x eqn:?
         end;
    inversion H; subst; reflexivity.
Qed.

Lemma paint_unobscured (env : PaintEnv) (priv priv' : MetaShapedTexturePrivate)
    (calls : list call) :
  meta_shaped_texture_paint env priv = Some (priv', calls) ->
  unobscured_region priv' = unobscured_region priv.
Proof.
  unfold meta_shaped_texture_paint. intros H.
  match type of H with
  | (if ?b then _ else _) = _ => destruct b
  end; [inversion H; reflexivity |].
  assert (Hsel : unobscured_region (snd (fst (select_paint_texture env priv)))
                 = unobscured_region priv).
  { unfold select_paint_texture.
    destruct (mipmap_paint_texture _ _ _); [reflexivity |].
    destruct (texture priv); [| reflexivity].
    unfold arm_remipmap.
    destruct (create_mipmaps priv), (remipmap_timeout_id priv =? 0);
      reflexivity. }
  destruct (select_paint_texture env priv) as [[[paint_tex |] priv1] calls1];
    cbn [fst snd] in Hsel.
  - unfold paint_texture in H.
    destruct ((tex_width priv1 =? 0) || (tex_height priv1 =? 0));
      [inversion H; subst; exact Hsel |].
    destruct (shape_region priv1); [| inversion H; subst; exact Hsel].
    destruct (meta_shaped_texture_ensure_mask priv1) as [priv2 |] eqn:E;
      [| discriminate].
    apply ensure_mask_unobscured in E. inversion H; subst.
    cbn. congruence.
  - inversion H; subst. exact Hsel.
Qed.

Lemma apply_operation_unobscured (priv : MetaShapedTexturePrivate)
    (op : operation) :
  unobscured_region (apply_operation priv op) = unobscured_region priv.
Proof.
  destruct op; cbn [apply_operation].
  - unfold meta_shaped_texture_update_area.
    destruct (texture priv); [| reflexivity].
    destruct (queue_damage_redraw _ _). reflexivity.
  - destruct (meta_shaped_texture_paint env priv) as [[priv' calls] |] eqn:E;
      [| reflexivity].
    exact (paint_unobscured _ _ _ _ E).
  - reflexivity.
  - reflexivity.
  - unfold meta_shaped_texture_set_clip_region. destruct region; reflexivity.
  - unfold meta_shaped_texture_set_create_mipmaps.
    destruct (negb _); reflexivity.
  - unfold meta_shaped_texture_set_pixmap, set_cogl_texture.
    repeat match goal with
           | |- context [if ?b then _ else _] => destruct b
           | |- context [match ?x with Some _ => _ | None => _ end] =>
               destruct x
           end; reflexivity.
Qed.

Lemma apply_event_unobscured (priv : MetaShapedTexturePrivate) (ev : event) :
  unobscured_region (apply_event priv ev) = unobscured_region priv.
Proof.
  destruct ev; cbn [apply_event].
  - apply apply_operation_unobscured.
  - unfold texture_is_idle_and_not_mipmapped.
    destruct (sub64 now (earliest_remipmap priv) <? 0); reflexivity.
  - destruct (meta_shaped_texture_pick priv color should_pick_paint alloc)
      as [[priv' calls] |] eqn:E; [| reflexivity].
    unfold meta_shaped_texture_pick in E.
    destruct (shape_region priv); [| inversion E; reflexivity].
    destruct should_pick_paint; [| inversion E; reflexivity].
    destruct (texture priv) as [tex |]; [| inversion E; reflexivity].
    destruct ((texture_width tex =? 0) || (texture_height tex =? 0));
      [inversion E; reflexivity |].
    destruct (meta_shaped_texture_ensure_mask priv) as [priv1 |] eqn:Em;
      [| discriminate].
    inversion E; subst. exact (ensure_mask_unobscured _ _ Em).
Qed.

Lemma run_events_unobscured (evs : list event) :
  forall priv : MetaShapedTexturePrivate,
    unobscured_region (run_events priv evs) = unobscured_region priv.
Proof.
  unfold run_events.
  induction evs as [| ev evs IH]; intros priv; cbn [fold_left];
    [reflexivity |].
  rewrite IH. apply apply_event_unobscured.
Qed.

(** C9 (the code departs from it).  Whatever updates, paints, setter
    calls, idle checks and picks an element has gone through since
    [meta_shaped_texture_init], whether or not it has a mapped clone, and
    also after its disposal, [meta_shaped_texture_is_obscured] answers
    [FALSE]: the field it reads is written nowhere, so an empty
    unobscured region handed to [meta_shaped_texture_update_area] never
    makes the query true. *)
Theorem obscured_query_never_true (evs : list event)
    (x y width height : Z) (region : cairo_region_t) (now : Z)
    (has_mapped_clones paint_tower : bool) :
  meta_shaped_texture_is_obscured
    (run_events meta_shaped_texture_init evs) has_mapped_clones = false /\
  (cairo_region_is_empty (region_rects region) = true ->
   meta_shaped_texture_is_obscured
     (run_events meta_shaped_texture_init
        (evs ++ [EvOperation
                   (OpUpdateArea x y width height (Some region) now)]))
     has_mapped_clones = false) /\
  meta_shaped_texture_is_obscured
    (fst (fst (meta_shaped_texture_dispose
                 (run_events meta_shaped_texture_init evs) paint_tower)))
    has_mapped_clones = false.
Proof.
  assert (Hnever : forall evs',
            meta_shaped_texture_is_obscured
              (run_events meta_shaped_texture_init evs') has_mapped_clones
            = false).
  { intros evs'.
    unfold meta_shaped_texture_is_obscured, effective_unobscured_region.
    rewrite run_events_unobscured.
    destruct has_mapped_clones; reflexivity. }
  split; [apply Hnever |]. split; [intros _; apply Hnever |].
  destruct (dispose_state (run_events meta_shaped_texture_init evs)
              paint_tower) as [-> _].
  unfold meta_shaped_texture_is_obscured, effective_unobscured_region.
  cbn [unobscured_region]. rewrite run_events_unobscured.
  destruct has_mapped_clones; reflexivity.
Qed.

(** ** The clip region is copied *)

Lemma exec_region_copy (m : Memory) (copy : cairo_region_t) :
  region_refs m !! region_addr copy = None ->
  exists m',
    exec_call m (cairo_region_copy copy) = Some m' /\
    (forall addr,
        refcount m' addr
        = (refcount m addr + field_holds (Some copy) addr)%nat) /\
    live_paths m' = live_paths m.
Proof.
  intros Hfresh. cbn [exec_call]. rewrite Hfresh.
  eexists. split; [reflexivity |]. split; [| reflexivity].
  intros addr. unfold refcount. cbn [region_refs field_holds].
  destruct (decide (region_addr copy = addr)) as [<- | Hne].
  - rewrite lookup_insert_eq, Hfresh. reflexivity.
  - rewrite lookup_insert_ne by exact Hne. lia.
Qed.

(** [meta_shaped_texture_set_clip_region] stores a copy: given a region
    on which the caller has a reference of its own (or [NULL]) and a
    fresh address for the copy, it runs without undefined behaviour, the
    element ends with a reference on the copy, which has the rectangles
    of the region given, and the caller keeps its reference on that
    region. *)
Theorem set_clip_region_copies (m : Memory)
    (priv : MetaShapedTexturePrivate) (region : option cairo_region_t)
    (copy_addr : positive) :
  owns m priv ->
  (forall r, region = Some r ->
             (holds priv (region_addr r) < refcount m (region_addr r))%nat) ->
  region_refs m !! copy_addr = None ->
  let priv' := fst (meta_shaped_texture_set_clip_region priv region copy_addr) in
  exists m',
    exec_calls m (snd (meta_shaped_texture_set_clip_region priv region copy_addr))
    = Some m' /\
    owns m' priv' /\
    (forall addr,
        (refcount m' addr + holds priv addr)%nat
        = (refcount m addr + holds priv' addr)%nat) /\
    (forall r, region = Some r ->
       clip_region priv' = Some (mkRegion copy_addr (region_rects r)) /\
       refcount m' copy_addr = 1%nat /\
       (holds priv' (region_addr r) < refcount m' (region_addr r))%nat).
Proof.
  intros [Hheld Hpath] Hcaller Hfresh priv'.
  destruct (exec_destroy_if_set m (clip_region priv))
    as (m1 & Hexec1 & Hcount1 & Hpaths1 & Hfresh1).
  { intros addr. specialize (Hheld addr). unfold holds in Hheld. lia. }
  specialize (Hfresh1 _ Hfresh).
  pose proof (refcount_lookup_None _ _ Hfresh) as Hzero.
  assert (Hnone : holds priv copy_addr = O)
    by (specialize (Hheld copy_addr); lia).
  destruct region as [r |];
    unfold meta_shaped_texture_set_clip_region in *; cbn [fst snd] in *.
  - destruct (exec_region_copy m1 (mkRegion copy_addr (region_rects r)) Hfresh1)
      as (m2 & Hexec2 & Hcount2 & Hpaths2).
    exists m2. split.
    { rewrite exec_calls_app, Hexec1. cbn [exec_calls]. rewrite Hexec2.
      reflexivity. }
    assert (Hholds : forall addr,
              (holds priv' addr + field_holds (clip_region priv) addr)%nat
              = (holds priv addr
                 + field_holds (Some (mkRegion copy_addr (region_rects r))) addr)%nat).
    { intros addr. subst priv'. unfold holds. cbn. lia. }
    assert (Hall : forall addr,
              (refcount m2 addr + holds priv addr)%nat
              = (refcount m addr + holds priv' addr)%nat).
    { intros addr. specialize (Hcount1 addr). specialize (Hcount2 addr).
      specialize (Hholds addr). specialize (Hheld addr).
      assert (field_holds (clip_region priv) addr <= holds priv addr)%nat
        by (unfold holds; lia).
      lia. }
    split; [split |]; [| | split; [exact Hall |]].
    + intros addr. specialize (Hall addr). specialize (Hheld addr). lia.
    + subst priv'. cbn. rewrite Hpaths2, Hpaths1. exact Hpath.
    + intros r' [= <-]. split; [reflexivity |].
      specialize (Hcaller r eq_refl).
      split.
      * pose proof (Hall copy_addr). pose proof (Hholds copy_addr) as Hh.
        cbn [field_holds region_addr] in Hh.
        destruct (decide (copy_addr = copy_addr)); [| congruence].
        assert (field_holds (clip_region priv) copy_addr = O)
          by (unfold holds in Hnone; lia).
        lia.
      * pose proof (Hall (region_addr r)). lia.
  - exists m1. split; [exact Hexec1 |].
    assert (Hholds : forall addr,
              (holds priv' addr + field_holds (clip_region priv) addr)%nat
              = holds priv addr).
    { intros addr. subst priv'. unfold holds. cbn. lia. }
    split; [split |]; [| | split; [| intros r' [=]]].
    + intros addr. specialize (Hcount1 addr). specialize (Hholds addr).
      specialize (Hheld addr). lia.
    + subst priv'. cbn. rewrite Hpaths1. exact Hpath.
    + intros addr. specialize (Hcount1 addr). specialize (Hholds addr).
      specialize (Hheld addr). lia.
Qed.

(** ** Picking and the preferred size *)


(** After any history of updates, paints, setter calls, idle checks and
    picks from the initial structure, the preferred size is a minimum of
    0 and, as natural size, the size of the texture that
    [meta_shaped_texture_get_texture] returns (0 without one).  A
    disposal ends this: it drops the texture and keeps the cached size,
    so the preferred size stays what it was while
    [meta_shaped_texture_get_texture] returns [NULL]. *)
Theorem preferred_size_is_texture_size (evs : list event)
    (paint_tower : bool) :
  let priv := run_events meta_shaped_texture_init evs in
  let disposed := fst (fst (meta_shaped_texture_dispose priv paint_tower)) in
  (meta_shaped_texture_get_preferred_width priv =
     (float_of_int 0,
      float_of_int match meta_shaped_texture_get_texture priv with
                   | Some tex => texture_width tex
                   | None => 0
                   end) /\
   meta_shaped_texture_get_preferred_height priv =
     (float_of_int 0,
      float_of_int match meta_shaped_texture_get_texture priv with
                   | Some tex => texture_height tex
                   | None => 0
                   end)) /\
  (meta_shaped_texture_get_texture disposed = None /\
   meta_shaped_texture_get_preferred_width disposed =
     meta_shaped_texture_get_preferred_width priv /\
   meta_shaped_texture_get_preferred_height disposed =
     meta_shaped_texture_get_preferred_height priv).
Proof.
  intros priv disposed. split.
  - destruct (run_events_invariant evs _ init_invariant) as (Hsize & _).
    fold priv in Hsize. unfold size_cached in Hsize.
    unfold meta_shaped_texture_get_preferred_width,
      meta_shaped_texture_get_preferred_height,
      meta_shaped_texture_get_texture.
    destruct (texture priv); destruct Hsize as [-> ->]; split; reflexivity.
  - subst disposed.
    destruct (dispose_state priv paint_tower) as [-> _].
    split; [reflexivity |]. split; reflexivity.
Qed.

(** * The properties above on concrete elements *)


Lemma mask_follows_shape_region_example :
  exists priv2 m,
    meta_shaped_texture_ensure_mask
      (fst (meta_shaped_texture_set_shape_region
              (shaped_state 4 4 (mkRegion 1 [mkRect 0 0 1 1]))
              (Some (mkRegion 2 [mkRect 1 1 2 2])))) = Some priv2 /\
    mask_texture priv2 = Some m /\
    mask_tex_width m = 4 /\ mask_tex_height m = 4 /\
    forall x y, 0 <= x < 4 -> 0 <= y < 4 ->
      mask_pixel m x y =
      if existsb (filledb 4 4 x y) [mkRect 1 1 2 2] then 255 else 0.
Proof.
  apply (mask_follows_shape_region
           (shaped_state 4 4 (mkRegion 1 [mkRect 0 0 1 1]))
           (mkTexture 1 4 4) (mkRegion 2 [mkRect 1 1 2 2])).
  - reflexivity.
  - reflexivity.
  - vm_compute. repeat split.
Defined.

Lemma ensure_mask_idempotent_example :
  exists priv',
    meta_shaped_texture_ensure_mask
      (shaped_state 4 4 (mkRegion 1 [mkRect 1 1 2 2])) = Some priv' /\
    mask_texture priv' <> None /\
    meta_shaped_texture_ensure_mask priv' = Some priv'.
Proof.
  eexists. split; [vm_compute; reflexivity |]. split; [discriminate |].
  apply (ensure_mask_idempotent
           (shaped_state 4 4 (mkRegion 1 [mkRect 1 1 2 2]))).
  vm_compute. reflexivity.
Defined.

Lemma ensured_mask_has_texture_size_example :
  exists priv' tex m,
    meta_shaped_texture_ensure_mask
      (run_events meta_shaped_texture_init
         [EvOperation (OpSetPixmap 7 (Some (mkTexture 2 4 3)));
          EvOperation (OpSetShapeRegion (Some (mkRegion 1 [mkRect 0 0 2 2])))])
    = Some priv' /\
    texture priv' = Some tex /\
    mask_texture priv' = Some m /\
    mask_tex_width m = texture_width tex /\
    mask_tex_height m = texture_height tex.
Proof.
  eexists _, _, _. split; [vm_compute; reflexivity |].
  split; [reflexivity |]. split; [reflexivity |].
  eapply (ensured_mask_has_texture_size
            [EvOperation (OpSetPixmap 7 (Some (mkTexture 2 4 3)));
             EvOperation (OpSetShapeRegion (Some (mkRegion 1 [mkRect 0 0 2 2])))]).
  - vm_compute. reflexivity.
  - reflexivity.
  - reflexivity.
Defined.

Lemma paint_defined_example :
  exists result,
    meta_shaped_texture_paint
      (mkPaintEnv 1000 None
         (mkBox (float_of_int 0) (float_of_int 0)
            (float_of_int 4) (float_of_int 4)) 255 true 77)
      (shaped_state 4 4 (mkRegion 1 [mkRect 1 1 2 2])) = Some result.
Proof.
  apply (paint_defined
           (mkPaintEnv 1000 None
              (mkBox (float_of_int 0) (float_of_int 0)
                 (float_of_int 4) (float_of_int 4)) 255 true 77)
           (shaped_state 4 4 (mkRegion 1 [mkRect 1 1 2 2]))).
  intros tex [= <-]. vm_compute. repeat split.
Defined.

Lemma clipped_paint_destinations_exact_example :
  map (fun c => call_destination c ≫= destination_rect)
    (paint_rectangles
       (Some (mkRegion 1 [mkRect (-10) 0 30 20; mkRect 200 200 5 5])) 100 100
       (mkBox (float_of_int 0) (float_of_int 0)
          (float_of_int 200) (float_of_int 200))) =
  map Some
    (omap (clip_to_texture (source_rectangle 100 100))
       [mkRect (-10) 0 30 20; mkRect 200 200 5 5]).
Proof.
  apply (clipped_paint_destinations_exact
           (mkRegion 1 [mkRect (-10) 0 30 20; mkRect 200 200 5 5]) 100 100
           (mkBox (float_of_int 0) (float_of_int 0)
              (float_of_int 200) (float_of_int 200))).
  - vm_compute. discriminate.
  - vm_compute. discriminate.
  - vm_compute. discriminate.
Defined.

Lemma paint_draws_bounded_example :
  exists priv' calls,
    meta_shaped_texture_paint
      (mkPaintEnv 1000 None
         (mkBox (float_of_int 0) (float_of_int 0)
            (float_of_int 4) (float_of_int 4)) 255 true 77)
      (shaped_state 4 4 (mkRegion 1 [mkRect 1 1 2 2])) = Some (priv', calls) /\
    (length (List.filter is_draw calls) <= Z.to_nat MAX_RECTS)%nat /\
    (List.filter is_draw calls <> [] ->
     (forall region,
         clip_region (shaped_state 4 4 (mkRegion 1 [mkRect 1 1 2 2]))
         = Some region -> region_rects region <> []) /\
     tex_width (shaped_state 4 4 (mkRegion 1 [mkRect 1 1 2 2])) <> 0 /\
     tex_height (shaped_state 4 4 (mkRegion 1 [mkRect 1 1 2 2])) <> 0 /\
     (texture (shaped_state 4 4 (mkRegion 1 [mkRect 1 1 2 2])) <> None \/
      @None CoglTexture <> None)).
Proof.
  eexists _, _. split; [vm_compute; reflexivity |].
  eapply (paint_draws_bounded
           (mkPaintEnv 1000 None
              (mkBox (float_of_int 0) (float_of_int 0)
                 (float_of_int 4) (float_of_int 4)) 255 true 77)
           (shaped_state 4 4 (mkRegion 1 [mkRect 1 1 2 2]))).
  vm_compute. reflexivity.
Defined.

Lemma paint_adds_one_timeout_example :
  exists priv' calls,
    meta_shaped_texture_paint
      (mkPaintEnv 1000 None
         (mkBox (float_of_int 0) (float_of_int 0)
            (float_of_int 4) (float_of_int 4)) 255 true 77)
      (shaped_state 4 4 (mkRegion 1 [mkRect 1 1 2 2])) = Some (priv', calls) /\
    List.filter is_timeout_add calls
    = [g_timeout_add (MIN_MIPMAP_AGE_USEC / 1000)] /\
    remipmap_timeout_id priv' = 77.
Proof.
  eexists _, _. split; [vm_compute; reflexivity |].
  destruct (paint_adds_one_timeout
              (mkPaintEnv 1000 None
                 (mkBox (float_of_int 0) (float_of_int 0)
                    (float_of_int 4) (float_of_int 4)) 255 true 77)
              (shaped_state 4 4 (mkRegion 1 [mkRect 1 1 2 2])) _ _
              ltac:(vm_compute; reflexivity))
    as [[Hnone _] | (Hone & _ & _ & Hid)].
  - vm_compute in Hnone. discriminate Hnone.
  - split; [exact Hone | exact Hid].
Defined.

Lemma idle_check_after_raw_paint_example :
  exists priv' calls,
    meta_shaped_texture_paint
      (mkPaintEnv 1000 None
         (mkBox (float_of_int 0) (float_of_int 0)
            (float_of_int 4) (float_of_int 4)) 255 true 77)
      (shaped_state 4 4 (mkRegion 1 [mkRect 1 1 2 2])) = Some (priv', calls) /\
    earliest_remipmap priv' = 1000 + MIN_MIPMAP_AGE_USEC - 1000 /\
    texture_is_idle_and_not_mipmapped priv' 150000 =
    if 150000 <? 1000 + MIN_MIPMAP_AGE_USEC - 1000 then (priv', [], true)
    else (with_remipmap 0 (1000 + MIN_MIPMAP_AGE_USEC - 1000) priv',
          [clutter_actor_queue_redraw], false).
Proof.
  eexists _, _. split; [vm_compute; reflexivity |].
  eapply (idle_check_after_raw_paint
           (mkPaintEnv 1000 None
              (mkBox (float_of_int 0) (float_of_int 0)
                 (float_of_int 4) (float_of_int 4)) 255 true 77)
           (shaped_state 4 4 (mkRegion 1 [mkRect 1 1 2 2])) _ _ 150000).
  - vm_compute. reflexivity.
  - intros region Hregion. discriminate Hregion.
  - reflexivity.
  - discriminate.
  - reflexivity.
  - vm_compute. split; [discriminate | reflexivity].
  - vm_compute. split; [discriminate | reflexivity].
Defined.

Lemma fast_burst_counter_example :
  fast_updates
    (fold_left record_update [2000; 3000; 4000]
       (record_update meta_shaped_texture_init 1000))
  = N.min (fast_updates (record_update meta_shaped_texture_init 1000)
           + N.of_nat (length [2000; 3000; 4000]))
      MIN_FAST_UPDATES_BEFORE_UNMIPMAP /\
  last_invalidation
    (fold_left record_update [2000; 3000; 4000]
       (record_update meta_shaped_texture_init 1000))
  = List.last [2000; 3000; 4000]
      (last_invalidation (record_update meta_shaped_texture_init 1000)).
Proof.
  apply (fast_burst_counter (record_update meta_shaped_texture_init 1000)
           [2000; 3000; 4000]).
  - vm_compute. discriminate.
  - vm_compute. repeat split; discriminate.
Defined.

Lemma mipmap_decision_after_burst_example :
  should_use_mipmap
    (fold_left record_update [2000; 3000; 4000]
       (record_update meta_shaped_texture_init 1000)) 5000 = true <->
  create_mipmaps (record_update meta_shaped_texture_init 1000) = true /\
  List.last [2000; 3000; 4000]
    (last_invalidation (record_update meta_shaped_texture_init 1000)) <> 0 /\
  (MIN_MIPMAP_AGE_USEC
   <= sub64 5000
        (List.last [2000; 3000; 4000]
           (last_invalidation (record_update meta_shaped_texture_init 1000))) \/
   (fast_updates (record_update meta_shaped_texture_init 1000)
    + N.of_nat (length [2000; 3000; 4000])
    < MIN_FAST_UPDATES_BEFORE_UNMIPMAP)%N).
Proof.
  apply (mipmap_decision_after_burst
           (record_update meta_shaped_texture_init 1000)
           [2000; 3000; 4000] 5000).
  - vm_compute. discriminate.
  - vm_compute. repeat split; discriminate.
Defined.

Lemma set_shape_region_keeps_ownership_example :
  exists m',
    exec_calls (mkMemory {[5%positive := 2%nat]} ∅)
      (snd (meta_shaped_texture_set_shape_region meta_shaped_texture_init
              (Some (mkRegion 5 [mkRect 0 0 2 2]))))
    = Some m' /\
    owns m'
      (fst (meta_shaped_texture_set_shape_region meta_shaped_texture_init
              (Some (mkRegion 5 [mkRect 0 0 2 2])))) /\
    forall addr,
      (refcount m' addr + holds meta_shaped_texture_init addr)%nat
      = (refcount (mkMemory {[5%positive := 2%nat]} ∅) addr
         + holds
             (fst (meta_shaped_texture_set_shape_region
                     meta_shaped_texture_init
                     (Some (mkRegion 5 [mkRect 0 0 2 2])))) addr)%nat.
Proof.
  apply (set_shape_region_keeps_ownership
           (mkMemory {[5%positive := 2%nat]} ∅) meta_shaped_texture_init
           (Some (mkRegion 5 [mkRect 0 0 2 2]))).
  - split; [intros addr; exact (Nat.le_0_l _) | exact I].
  - intros r [= <-]. vm_compute. lia.
Defined.

Lemma set_stored_region_again_is_undefined_example :
  exec_calls (mkMemory {[5%positive := 1%nat]} ∅)
    (snd (meta_shaped_texture_set_shape_region
            (with_shape_region (Some (mkRegion 5 [mkRect 0 0 2 2]))
               meta_shaped_texture_init)
            (Some (mkRegion 5 [mkRect 0 0 2 2]))))
  = None.
Proof.
  apply (set_stored_region_again_is_undefined
           (mkMemory {[5%positive := 1%nat]} ∅)
           (with_shape_region (Some (mkRegion 5 [mkRect 0 0 2 2]))
              meta_shaped_texture_init)
           (mkRegion 5 [mkRect 0 0 2 2]) None).
  - reflexivity.
  - reflexivity.
Defined.

Lemma set_overlay_path_keeps_ownership_example :
  exists m',
    exec_calls (mkMemory {[5%positive := 1%nat]} {[9%positive]})
      (snd (meta_shaped_texture_set_overlay_path meta_shaped_texture_init
              (Some (mkRegion 5 [mkRect 0 0 2 2]))
              (Some (mkPath 9 (fun _ _ => 128)))))
    = Some m' /\
    owns m'
      (fst (meta_shaped_texture_set_overlay_path meta_shaped_texture_init
              (Some (mkRegion 5 [mkRect 0 0 2 2]))
              (Some (mkPath 9 (fun _ _ => 128))))) /\
    live_paths m' = {[9%positive]} ∖ ∅.
Proof.
  destruct (set_overlay_path_keeps_ownership
              (mkMemory {[5%positive := 1%nat]} {[9%positive]})
              meta_shaped_texture_init
              (Some (mkRegion 5 [mkRect 0 0 2 2]))
              (Some (mkPath 9 (fun _ _ => 128))))
    as (m' & Hexec & Howns & _ & Hpaths).
  - split; [intros addr; exact (Nat.le_0_l _) | exact I].
  - intros r [= <-]. vm_compute. lia.
  - intros p [= <-]. cbn [path_addr live_paths].
    split; [apply elem_of_singleton_2; reflexivity |].
    intros old Hold. discriminate Hold.
  - exists m'. split; [exact Hexec |]. split; [exact Howns | exact Hpaths].
Defined.

Lemma dispose_releases_everything_example :
  exists m',
    exec_calls (mkMemory ∅ ∅)
      (setter_calls
         (snd (meta_shaped_texture_dispose
                 (with_remipmap 77 0 meta_shaped_texture_init) true)))
    = Some m' /\
    In (g_source_remove 77)
      (snd (meta_shaped_texture_dispose
              (with_remipmap 77 0 meta_shaped_texture_init) true)).
Proof.
  destruct (dispose_releases_everything (mkMemory ∅ ∅)
              (with_remipmap 77 0 meta_shaped_texture_init) true)
    as (m' & Hexec & _ & _ & _ & _ & _ & _ & _ & _ & _ & Hremoved).
  - split; [intros addr; exact (Nat.le_0_l _) | exact I].
  - exists m'. split; [exact Hexec |]. apply Hremoved. discriminate.
Defined.

Lemma set_clip_region_copies_example :
  exists m',
    exec_calls (mkMemory {[5%positive := 1%nat]} ∅)
      (snd (meta_shaped_texture_set_clip_region meta_shaped_texture_init
              (Some (mkRegion 5 [mkRect 0 0 2 2])) 6))
    = Some m' /\
    refcount m' 6 = 1%nat /\
    (0 < refcount m' 5)%nat.
Proof.
  destruct (set_clip_region_copies
              (mkMemory {[5%positive := 1%nat]} ∅) meta_shaped_texture_init
              (Some (mkRegion 5 [mkRect 0 0 2 2])) 6)
    as (m' & Hexec & _ & _ & Hcopy).
  - split; [intros addr; exact (Nat.le_0_l _) | exact I].
  - intros r [= <-]. vm_compute. lia.
  - reflexivity.
  - destruct (Hcopy _ eq_refl) as (_ & Hone & Hcaller).
    exists m'. split; [exact Hexec |]. split; [exact Hone |].
    eapply Nat.le_lt_trans; [apply Nat.le_0_l | exact Hcaller].
Defined.

